(** * adanos-alert: aggregation job, trigger matcher, lock manager, connector

    A shallow embedding of the Go sources

    - [internal/job] (aggregation job and the cron lock manager),
    - [internal/matcher/trigger_matcher.go],
    - [pkg/connector] (the client-side connector),
    - the user repository, the group controller, the agent's message API
      ([agent/api/message.go]) and the predefined templates
      ([migrate/template.go]),

    and the properties the specification states about them, followed by
    further properties read off the code.  Go interfaces
    (the repositories, the expression engine, the HTTP client) are type
    classes whose operations thread the state they act on; a Go [error] is an
    [option error], [nil] being [None]. *)

From Stdlib Require Import ZArith NArith Lia Bool Ascii String.
From stdpp Require Import base option list gmap strings.

Open Scope string_scope.

(** ** Shared vocabulary *)

(** [primitive.ObjectID] is a 12-byte identifier; it is read here as the
    natural number it encodes, [primitive.NilObjectID] being all zeroes. *)
Definition ObjectID := N.
Definition NilObjectID : ObjectID := 0%N.

(** Go errors.  The sentinels are the package-level variables the code
    compares against with [==]; [Wrapped] is what [errors.Wrap] of
    github.com/pkg/errors builds around a non-nil cause. *)
Inductive error : Type :=
  | ErrAlreadyLocked
  | ErrLockNotFound
  | InvalidReturnVal
  | ErrOther (msg : string)
  | Wrapped (cause : error) (msg : string).

Definition Wrap (err : error) (msg : string) : error := Wrapped err msg.

(** [err == repository.ErrAlreadyLocked] and [err == repository.ErrLockNotFound]. *)
Definition isErrAlreadyLocked (err : error) : bool :=
  match err with ErrAlreadyLocked => true | _ => false end.

Definition isErrLockNotFound (err : error) : bool :=
  match err with ErrLockNotFound => true | _ => false end.

(** ** Repository documents ([internal/repository]) *)

(** Modelled from the spec: the declarations of the repository package are
    not among the sources; the records below carry the attributes section 3
    of the specification lists and the fields the job and the matcher read
    or write ([ID], [Status], [GroupID], [Type], [Rule.ExpectReadyAt],
    [MessageCount], [PreCondition], ...). *)
Inductive MessageStatus : Type :=
  | MessageStatusPending
  | MessageStatusGrouped
  | MessageStatusCanceled
  | MessageStatusExpired
  | MessageStatusIgnored.

Inductive MessageGroupStatus : Type :=
  | MessageGroupStatusCollecting
  | MessageGroupStatusPending
  | MessageGroupStatusOkay
  | MessageGroupStatusFailed.

#[global] Instance MessageStatus_eq_dec : EqDecision MessageStatus.
Proof. solve_decision. Defined.

#[global] Instance MessageGroupStatus_eq_dec : EqDecision MessageGroupStatus.
Proof. solve_decision. Defined.

Module Message.
Record t := mk {
  ID : ObjectID;
  Content : string;
  Meta : list (string * string);
  Tags : list string;
  Origin : string;
  Type_ : string;
  GroupID : list ObjectID;
  Status : MessageStatus;
  CreatedAt : Z
}.

Definition withStatus (msg : t) (s : MessageStatus) : t :=
  {| ID := ID msg; Content := Content msg; Meta := Meta msg; Tags := Tags msg;
     Origin := Origin msg; Type_ := Type_ msg; GroupID := GroupID msg;
     Status := s; CreatedAt := CreatedAt msg |}.

Definition withGroupID (msg : t) (ids : list ObjectID) : t :=
  {| ID := ID msg; Content := Content msg; Meta := Meta msg; Tags := Tags msg;
     Origin := Origin msg; Type_ := Type_ msg; GroupID := ids;
     Status := Status msg; CreatedAt := CreatedAt msg |}.
End Message.

Module Trigger.
Record t := mk {
  ID : ObjectID;
  PreCondition : string;
  Channel : string
}.
End Trigger.

Module Rule.
Record t := mk {
  ID : ObjectID;
  Name : string;
  Rule : string;
  AggregateRule : string;
  Triggers : list Trigger.t
}.
End Rule.

Module GroupRule.
Record t := mk {
  ID : ObjectID;
  Name : string;
  AggregateKey : string;
  Type_ : string;
  ExpectReadyAt : Z
}.
End GroupRule.

Module MessageGroup.
Record t := mk {
  ID : ObjectID;
  MessageCount : Z;
  Rule : GroupRule.t;
  Actions : list Trigger.t;
  Status : MessageGroupStatus
}.

Definition withStatus (grp : t) (s : MessageGroupStatus) : t :=
  {| ID := ID grp; MessageCount := MessageCount grp; Rule := Rule grp;
     Actions := Actions grp; Status := s |}.

Definition withMessageCount (grp : t) (n : Z) : t :=
  {| ID := ID grp; MessageCount := n; Rule := Rule grp;
     Actions := Actions grp; Status := Status grp |}.

(** Modelled from the spec: [grp.Ready()] is not among the sources; a group
    is ready once its expected-ready-at is not after the clock. *)
Definition Ready (now : Z) (grp : t) : bool :=
  (GroupRule.ExpectReadyAt (Rule grp) <=? now)%Z.
End MessageGroup.

(** ** The distributed lock manager ([internal/job], provider file) *)

Module DistLock.

(** Modelled from the spec: the lease row of [repository.Lock] (resource
  name, owner, lock id, expiry); the manager only reads [LockID]. *)
Record Lock := mkLock {
  LockID : ObjectID;
  Resource : string;
  Owner : string;
  ExpiredAt : Z
}.

(** [repository.LockRepo]: the three calls the manager makes, each acting
  on the shared lock store. *)
Class LockRepo := {
  LockStore : Type;
  repoLock : string -> string -> Z -> LockStore -> (error + Lock) * LockStore;
  repoRenew : ObjectID -> Z -> LockStore -> (error + Lock) * LockStore;
  repoUnLock : ObjectID -> LockStore -> option error * LockStore
}.

(** The manager's own fields ([syncLock] only serialises the calls). *)
Record DistributeLockManager := mkManager {
  lockID : ObjectID;
  locked : bool;
  owner : string
}.

Definition NewDistributeLockManager (owner : string) : DistributeLockManager :=
  {| lockID := NilObjectID; locked := false; owner := owner |}.

Definition lockResource : string := "crontab-lock".

Section Manager.
Context {repo : LockRepo}.

Definition lock (d : DistributeLockManager) (s : LockStore)
  : option error * DistributeLockManager * LockStore :=
  match repoLock lockResource (owner d) 90 s with
  | (inl err, s') =>
      if isErrAlreadyLocked err then
        (None, {| lockID := NilObjectID; locked := false; owner := owner d |}, s')
      else (Some (Wrap err "acquire lock failed"), d, s')
  | (inr l, s') =>
      (None, {| lockID := LockID l; locked := true; owner := owner d |}, s')
  end.

Definition TryLock (d : DistributeLockManager) (s : LockStore)
  : option error * DistributeLockManager * LockStore :=
  if locked d then
    match repoRenew (lockID d) 90 s with
    | (inl err, s') =>
        if isErrLockNotFound err then lock d s'
        else (Some (Wrap err "renew lock failed"), d, s')
    | (inr _, s') => (None, d, s')
    end
  else lock d s.

Definition TryUnLock (d : DistributeLockManager) (s : LockStore)
  : option error * DistributeLockManager * LockStore :=
  if locked d then
    match repoUnLock (lockID d) s with
    | (Some err, s') =>
        (Some err, {| lockID := NilObjectID; locked := false; owner := owner d |}, s')
    | (None, s') => (None, d, s')
    end
  else (None, d, s).

Definition HasLock (d : DistributeLockManager) : bool := locked d.

End Manager.

(** Modelled from the spec: an in-memory lock store with the contract the
  spec gives the lock repository.  [Lock] inserts the lease when the
  resource has no unexpired row and answers [ErrAlreadyLocked] otherwise;
  [Renew] answers [ErrLockNotFound] for a lease id that is gone; [UnLock]
  removes the row and reports a missing one. *)
Record MemLocks := mkMemLocks {
  rows : list Lock;
  clock : Z;
  nextID : ObjectID
}.

Definition live (now : Z) (resource : string) (l : Lock) : bool :=
  bool_decide (Resource l = resource) && (now <? ExpiredAt l)%Z.

Definition memLock (resource owner : string) (ttl : Z) (s : MemLocks)
  : (error + Lock) * MemLocks :=
  if existsb (live (clock s) resource) (rows s) then (inl ErrAlreadyLocked, s)
  else
  let l := {| LockID := nextID s; Resource := resource; Owner := owner;
              ExpiredAt := (clock s + ttl)%Z |} in
  (inr l,
   {| rows := l :: filter (fun r => Resource r ≠ resource) (rows s);
      clock := clock s; nextID := N.succ (nextID s) |}).

Definition memRenew (id : ObjectID) (ttl : Z) (s : MemLocks)
  : (error + Lock) * MemLocks :=
  match find (fun r => bool_decide (LockID r = id)) (rows s) with
  | None => (inl ErrLockNotFound, s)
  | Some r =>
    let r' := {| LockID := id; Resource := Resource r; Owner := Owner r;
                 ExpiredAt := (clock s + ttl)%Z |} in
    (inr r',
     {| rows := r' :: filter (fun r => LockID r ≠ id) (rows s);
        clock := clock s; nextID := nextID s |})
  end.

Definition memUnLock (id : ObjectID) (s : MemLocks) : option error * MemLocks :=
  if existsb (fun r => bool_decide (LockID r = id)) (rows s) then
  (None, {| rows := filter (fun r => LockID r ≠ id) (rows s);
            clock := clock s; nextID := nextID s |})
  else (Some ErrLockNotFound, s).

Definition MemLockRepo : LockRepo :=
  {| LockStore := MemLocks; repoLock := memLock;
   repoRenew := memRenew; repoUnLock := memUnLock |}.

(** Scenario data: node A holds the lease (id 7) until time 190; the clock
  reads 120. *)
Definition leaseOfA : Lock :=
  {| LockID := 7%N; Resource := lockResource; Owner := "a(:19999)"; ExpiredAt := 190 |}.
Definition storeHeldByA : MemLocks :=
  {| rows := [leaseOfA]; clock := 120; nextID := 8%N |}.
Definition nodeA : DistributeLockManager :=
  {| lockID := 7%N; locked := true; owner := "a(:19999)" |}.
Definition nodeB : DistributeLockManager := NewDistributeLockManager "b(:19999)".

(** The same store seen at 200, after the lease of A ran out. *)
Definition expiredStore : MemLocks :=
  {| rows := [leaseOfA]; clock := 200; nextID := 8%N |}.

(** *** Call sequences and a recording repository *)

(** What the cron manager does with a lock manager over time: a tick calls
    [TryLock], a shutdown calls [TryUnLock]. *)
Inductive Call : Type :=
  | CallTryLock
  | CallTryUnLock.

Definition call {repo : LockRepo} (c : Call) (d : DistributeLockManager) (s : LockStore)
  : option error * DistributeLockManager * LockStore :=
  match c with
  | CallTryLock => TryLock d s
  | CallTryUnLock => TryUnLock d s
  end.

Fixpoint calls {repo : LockRepo} (cs : list Call) (d : DistributeLockManager)
  (s : LockStore) : DistributeLockManager * LockStore :=
  match cs with
  | [] => (d, s)
  | c :: rest => let '(_, d', s') := call c d s in calls rest d' s'
  end.

(** A repository that keeps a record of the calls it receives: which
    resource and owner [Lock] was asked for and what it answered, which
    lease id [Renew] and [UnLock] were asked for. *)
Inductive RepoEvent : Type :=
  | AskedLock (resource owner : string) (answer : error + Lock)
  | AskedRenew (id : ObjectID)
  | AskedUnLock (id : ObjectID).

Definition Recording (repo : LockRepo) : LockRepo :=
  {| LockStore := @LockStore repo * list RepoEvent;
     repoLock := fun resource owner ttl st =>
       let '(answer, s') := @repoLock repo resource owner ttl st.1 in
       (answer, (s', (st.2 ++ [AskedLock resource owner answer])%list));
     repoRenew := fun id ttl st =>
       let '(answer, s') := @repoRenew repo id ttl st.1 in
       (answer, (s', (st.2 ++ [AskedRenew id])%list));
     repoUnLock := fun id st =>
       let '(answer, s') := @repoUnLock repo id st.1 in
       (answer, (s', (st.2 ++ [AskedUnLock id])%list)) |}.

(** The lease ids a record shows the repository to have handed out. *)
Fixpoint issued (log : list RepoEvent) : list ObjectID :=
  match log with
  | [] => []
  | AskedLock _ _ (inr l) :: rest => LockID l :: issued rest
  | _ :: rest => issued rest
  end.

(** Every [Renew] or [UnLock] in the record asks for a lease id that the
    repository handed out earlier in the record, and every [Lock] names the
    cron resource and the given owner. *)
Fixpoint wellBehaved (owner : string) (given : list ObjectID) (log : list RepoEvent) : Prop :=
  match log with
  | [] => True
  | AskedLock resource o (inr l) :: rest =>
      resource = lockResource /\ o = owner /\ wellBehaved owner (LockID l :: given) rest
  | AskedLock resource o (inl _) :: rest =>
      resource = lockResource /\ o = owner /\ wellBehaved owner given rest
  | AskedRenew id :: rest => id ∈ given /\ wellBehaved owner given rest
  | AskedUnLock id :: rest => id ∈ given /\ wellBehaved owner given rest
  end.

(** What holds of a manager and the record between two calls. *)
Definition consistent (o : string) (d : DistributeLockManager) (log : list RepoEvent) : Prop :=
  wellBehaved o [] log /\ owner d = o
  /\ (locked d = true -> lockID d ∈ issued log)
  /\ (locked d = false -> lockID d = NilObjectID).

End DistLock.

(** ** The trigger matcher ([internal/matcher/trigger_matcher.go]) *)

Module Matcher.

(** What [expr.Run] hands back as an [interface{}]. *)
Inductive Value : Type :=
  | VBool (b : bool)
  | VInt (n : Z)
  | VString (s : string)
  | VNil.

(** The context an expression is evaluated in.  [W] is the world the
    message callback reads from (the stores behind the closure);
    [messageCallbackOnce] is the done flag of the [sync.Once].  The embedded
    [Helpers] and the container handle carry no state of their own. *)
Record TriggerContext (W : Type) := mkTriggerContext {
  Group : MessageGroup.t;
  Trigger : Trigger.t;
  MessageCallback : option (W -> list Message.t * W);
  messageCallbackOnce : bool;
  messages : list Message.t
}.
Arguments mkTriggerContext {W}.
Arguments Group {W}.
Arguments Trigger {W}.
Arguments MessageCallback {W}.
Arguments messageCallbackOnce {W}.
Arguments messages {W}.

Definition NewTriggerContext {W : Type} (trigger : Trigger.t) (group : MessageGroup.t)
  (messageCallback : option (W -> list Message.t * W)) : TriggerContext W :=
  {| Group := group; Trigger := trigger; MessageCallback := messageCallback;
     messageCallbackOnce := false; messages := [] |}.

(** [Messages] has a pointer receiver: it returns the messages together with
    the updated context and world. *)
Definition Messages {W : Type} (tc : TriggerContext W) (w : W)
  : list Message.t * TriggerContext W * W :=
  if messageCallbackOnce tc then (messages tc, tc, w)
  else
    match MessageCallback tc with
    | Some callback =>
        let '(fetched, w') := callback w in
        (fetched,
         {| Group := Group tc; Trigger := Trigger tc;
            MessageCallback := MessageCallback tc;
            messageCallbackOnce := true; messages := fetched |},
         w')
    | None =>
        (messages tc,
         {| Group := Group tc; Trigger := Trigger tc;
            MessageCallback := MessageCallback tc;
            messageCallbackOnce := true; messages := messages tc |},
         w)
    end.

(** [n] successive calls of [Messages] on the same context: the results in
    call order, the final context and the final world. *)
Fixpoint MessagesTimes {W : Type} (n : nat) (tc : TriggerContext W) (w : W)
  : list (list Message.t) * TriggerContext W * W :=
  match n with
  | O => ([], tc, w)
  | S n' =>
      let '(ms, tc1, w1) := Messages tc w in
      let '(rest, tc2, w2) := MessagesTimes n' tc1 w1 in
      (ms :: rest, tc2, w2)
  end.

(** The expression engine (github.com/antonmedv/expr): [Compile] with the
    trigger environment and [expr.AsBool()], and [Run] of a compiled program
    against a context, which may read and change the world. *)
Class ExprEngine (W : Type) := {
  Program : Type;
  Compile : string -> error + Program;
  Run : Program -> TriggerContext W -> W -> (error + Value) * W
}.

Record TriggerMatcher {W : Type} {engine : ExprEngine W} := mkTriggerMatcher {
  program : Program;
  trigger : Trigger.t
}.
Arguments TriggerMatcher W {_}.

Section TriggerMatcher.
Context {W : Type} {engine : ExprEngine W}.

Definition NewTriggerMatcher (trigger : Trigger.t) : error + TriggerMatcher W :=
  let condition := Trigger.PreCondition trigger in
  let condition := if String.eqb condition EmptyString then "true" else condition in
  match Compile condition with
  | inl err => inl err
  | inr program => inr {| program := program; trigger := trigger |}
  end.

(** [Match] receives the context by value: what the evaluation does to its
    copy is gone on return; what it does to the world stays. *)
Definition Match (m : TriggerMatcher W) (triggerCtx : TriggerContext W) (w : W)
  : bool * option error * W :=
  match Run (program m) triggerCtx w with
  | (inl err, w') => (false, Some err, w')
  | (inr (VBool boolRes), w') => (boolRes, None, w')
  | (inr _, w') => (false, Some InvalidReturnVal, w')
  end.

End TriggerMatcher.

(** A stand-in engine for examples: it knows the two boolean literals, one
    expression that fails when run and one that yields an integer. *)
Inductive ToyProgram : Type :=
  | ToyConst (v : Value)
  | ToyFail.

Definition toyCompile (condition : string) : error + ToyProgram :=
  if String.eqb condition "true" then inr (ToyConst (VBool true))
  else if String.eqb condition "false" then inr (ToyConst (VBool false))
  else if String.eqb condition "1 + 1" then inr (ToyConst (VInt 2))
  else if String.eqb condition "Meta[0]" then inr ToyFail
  else inl (ErrOther "unexpected token").

Definition toyRun (p : ToyProgram) (tc : TriggerContext nat) (w : nat)
  : (error + Value) * nat :=
  match p with
  | ToyConst v => (inr v, w)
  | ToyFail => (inl (ErrOther "invalid operation"), w)
  end.

Definition ToyEngine : ExprEngine nat :=
  {| Program := ToyProgram; Compile := toyCompile; Run := toyRun |}.

(** Example data: a world that counts fetches and a callback returning two
    messages. *)
Definition sampleMessage (id : ObjectID) : Message.t :=
  {| Message.ID := id; Message.Content := "disk full"; Message.Meta := [];
     Message.Tags := []; Message.Origin := "logstash"; Message.Type_ := "plain";
     Message.GroupID := [5%N]; Message.Status := MessageStatusGrouped;
     Message.CreatedAt := 100 |}.

Definition countingCallback (fetches : nat) : list Message.t * nat :=
  ([sampleMessage 1%N; sampleMessage 2%N], S fetches).

Definition sampleGroup : MessageGroup.t :=
  {| MessageGroup.ID := 5%N; MessageGroup.MessageCount := 2;
     MessageGroup.Rule :=
       {| GroupRule.ID := 3%N; GroupRule.Name := "disk"; GroupRule.AggregateKey := EmptyString;
          GroupRule.Type_ := "plain"; GroupRule.ExpectReadyAt := 160 |};
     MessageGroup.Actions := [];
     MessageGroup.Status := MessageGroupStatusPending |}.

Definition emptyTrigger : Trigger.t :=
  {| Trigger.ID := 9%N; Trigger.PreCondition := EmptyString; Trigger.Channel := "dingding" |}.

Definition sampleContext : TriggerContext nat :=
  NewTriggerContext emptyTrigger sampleGroup (Some countingCallback).

(** A matcher whose program fails when run. *)
Definition failingMatcher : TriggerMatcher nat :=
  @mkTriggerMatcher nat ToyEngine ToyFail emptyTrigger.

End Matcher.

(** ** The connector ([pkg/connector]) *)

Module Connector.

Record EventControl := mkEventControl {
  ID : string;
  InhibitInterval : string;
  RecoveryAfter : string
}.

(** [extension.CommonEvent], the wire shape of an event. *)
Record CommonEvent := mkCommonEvent {
  Content : string;
  Meta : list (string * string);
  Tags : list string;
  Origin : string;
  Control : EventControl
}.

Record Request := mkRequest {
  Method : string;
  URL : string;
  Payload : string;
  Header : list (string * string)
}.

(** A response as the client sees it: the status code and what reading the
    body stream to its end ([ioutil.ReadAll]) yields. *)
Record Response := mkResponse {
  StatusCode : Z;
  Body : error + string
}.

Definition ReadAll (body : error + string) : error + string := body.

(** [net/http] and [encoding/json] as the connector uses them: building a
    request may fail, and performing one acts on the network and yields a
    transport error or a response. *)
Class HTTPClient := {
  Net : Type;
  Marshal : CommonEvent -> string;
  NewRequestWithContext : string -> string -> string -> error + Request;
  Do : Request -> Net -> (error + Response) * Net
}.

(** [strings.TrimRight(s, "/")] for a one-character cutset. *)
Fixpoint TrimRight (s : string) (cut : ascii) : string :=
  match s with
  | EmptyString => EmptyString
  | String c rest =>
      match TrimRight rest cut with
      | EmptyString => if Ascii.eqb c cut then EmptyString else String c EmptyString
      | trimmed => String c trimmed
      end
  end.

(** Whether the last character of [s] is [c]. *)
Fixpoint endsWith (s : string) (c : ascii) : bool :=
  match s with
  | EmptyString => false
  | String a EmptyString => Ascii.eqb a c
  | String _ rest => endsWith rest c
  end.

Definition HeaderSet (req : Request) (key value : string) : Request :=
  {| Method := Method req; URL := URL req; Payload := Payload req;
     Header := (key, value) :: filter (fun kv => kv.1 ≠ key) (Header req) |}.

(** The request as it leaves [sendEventToServer]: the bearer token is set
    only when one is configured. *)
Definition authorize (adanosToken : string) (req : Request) : Request :=
  if String.eqb adanosToken EmptyString then req
  else HeaderSet req "Authorization" ("Bearer " ++ adanosToken).

Section Send.
Context {client : HTTPClient}.

Definition sendEventToServer (evt : CommonEvent) (data : string)
  (adanosServer adanosToken : string) (net : Net) : option error * Net :=
  let reqURL := TrimRight adanosServer "/"%char ++ "/api/events/" in
  match NewRequestWithContext "POST" reqURL data with
  | inl err => (Some (Wrap err "create request failed"), net)
  | inr req =>
      match Do (authorize adanosToken req) net with
      | (inl err, net') => (Some (Wrap err "request failed"), net')
      | (inr resp, net') =>
          match ReadAll (Body resp) with
          | inl err => (Some (Wrap err "read response body failed"), net')
          | inr respBody => (None, net')
          end
      end
  end.

(** The loop of [Send]: [err] is the variable declared before the loop. *)
Fixpoint sendLoop (evt : CommonEvent) (data : string) (token : string)
  (servers : list string) (err : option error) (net : Net) : option error * Net :=
  match servers with
  | [] => (err, net)
  | s :: rest =>
      match sendEventToServer evt data s token net with
      | (None, net') => (None, net')
      | (Some e, net') => sendLoop evt data token rest (Some e) net'
      end
  end.

Definition Send (servers : list string) (token : string)
  (meta : list (string * string)) (tags : list string) (origin : string)
  (ctl : EventControl) (message : string) (net : Net) : option error * Net :=
  let evt := {| Content := message; Meta := meta; Tags := tags;
                Origin := origin; Control := ctl |} in
  let data := Marshal evt in
  sendLoop evt data token servers None net.

(** Every attempt on the servers [tried] failed, leaving the network in
    state [net1]: either none was tried, or [Send] over them alone ends with
    an error. *)
Definition attemptsFailed (tried : list string) (token : string)
  (meta : list (string * string)) (tags : list string) (origin : string)
  (ctl : EventControl) (message : string) (net net1 : Net) : Prop :=
  (tried = [] /\ net1 = net)
  \/ exists e, Send tried token meta tags origin ctl message net = (Some e, net1).

End Send.

(** *** The event builder and the connector object *)

(** [Event]: what the builder methods collect.  [meta] is the Go map:
    [None] is the nil map of a zero-value [Event]; [NewEvent] allocates
    one. *)
Record Event := mkEvent {
  meta : option (gmap string string);
  tags : list string;
  origin : string;
  ctl : EventControl;
  content : string
}.

Definition toExtensionEventControl (ec : EventControl) : EventControl :=
  {| ID := ID ec; InhibitInterval := InhibitInterval ec;
     RecoveryAfter := RecoveryAfter ec |}.

Definition NewEvent (content : string) : Event :=
  {| meta := Some ∅; tags := []; origin := EmptyString;
     ctl := {| ID := EmptyString; InhibitInterval := EmptyString;
               RecoveryAfter := EmptyString |};
     content := content |}.

Definition WithTags (m : Event) (more : list string) : Event :=
  {| meta := meta m; tags := (tags m ++ more)%list; origin := origin m;
     ctl := ctl m; content := content m |}.

Definition WithOrigin (m : Event) (o : string) : Event :=
  {| meta := meta m; tags := tags m; origin := o; ctl := ctl m; content := content m |}.

Definition WithCtl (m : Event) (c : EventControl) : Event :=
  {| meta := meta m; tags := tags m; origin := origin m; ctl := c; content := content m |}.

(** [m.meta[key] = value]: an assignment to an entry of a nil map is a
    run-time panic, [None] here; otherwise the event is returned. *)
Definition WithMeta (m : Event) (key value : string) : option Event :=
  match meta m with
  | None => None
  | Some entries =>
      Some {| meta := Some (<[key := value]> entries); tags := tags m; origin := origin m;
              ctl := ctl m; content := content m |}
  end.

(** [for k, v := range metas { m.meta[k] = v }]: one assignment for each
    entry of [metas], none when it is empty. *)
Definition WithMetas (m : Event) (metas : gmap string string) : option Event :=
  map_fold (fun k v acc => match acc with
                           | Some evt => WithMeta evt k v
                           | None => None
                           end) (Some m) metas.

Record Connector := mkConnector {
  servers : list string;
  token : string
}.

Definition NewConnector (token : string) (servers : list string) : Connector :=
  {| servers := servers; token := token |}.

(** The method [Connector.Send]; the map goes out as its list of entries,
    a nil map having none. *)
Definition Connector_Send {client : HTTPClient} (conn : Connector) (evt : Event)
  (net : Net) : option error * Net :=
  Send (servers conn) (token conn)
    (match meta evt with Some entries => map_to_list entries | None => [] end)
    (tags evt) (origin evt) (toExtensionEventControl (ctl evt)) (content evt) net.

(** A stand-in network for examples: a table from request URL to what the
    transport yields, and a log of the URLs contacted. *)
Definition toyRoutes : list (string * (error + Response)) :=
  [ ("http://down/api/events/", inl (ErrOther "connection refused"));
    ("http://strict/api/events/",
     inr {| StatusCode := 500; Body := inr "storage failure" |});
    ("http://ok/api/events/", inr {| StatusCode := 200; Body := inr "{}" |}) ].

Definition toyDo (req : Request) (log : list string)
  : (error + Response) * list string :=
  match find (fun r => String.eqb r.1 (URL req)) toyRoutes with
  | Some r => (r.2, (log ++ [URL req])%list)
  | None => (inl (ErrOther "no such host"), (log ++ [URL req])%list)
  end.

Definition ToyClient : HTTPClient :=
  {| Net := list string;
     Marshal := fun evt => Content evt;
     NewRequestWithContext := fun method url data =>
       inr {| Method := method; URL := url; Payload := data; Header := [] |};
     Do := toyDo |}.

Definition toyControl : EventControl :=
  {| ID := "X"; InhibitInterval := "1m"; RecoveryAfter := "5m" |}.

Definition toyServers : list string :=
  ["http://down/"; "http://strict//"; "http://ok"].

End Connector.

(** ** The aggregation job ([internal/job], aggregation file) *)

Module Aggregation.

(** [*matcher.MessageMatcher] as the job uses it: [Match] answers
    (matched, ignored, err) and [Rule] gives the rule back. *)
Module MessageMatcher.
Record t := mk {
  Match : Message.t -> bool * bool * option error;
  Rule : Rule.t
}.
End MessageMatcher.

(** What the job calls in the matcher and repository packages besides the
    stores: the fingerprint program of an aggregate expression, and the rule
    snapshot [Rule.ToGroupRule] builds (it fixes expected-ready-at from the
    rule's readiness policy). *)
Class Environment := {
  MessageFinger : Type;
  NewMessageFinger : string -> error + MessageFinger;
  fingerRun : MessageFinger -> Message.t -> error + string;
  ToGroupRule : Rule.t -> string -> string -> GroupRule.t
}.

(** [ObjectID.Hex]: 24 lower-case hexadecimal digits. *)
Definition hexDigit (d : N) : ascii :=
  if (d <? 10)%N then ascii_of_N (48 + d) else ascii_of_N (87 + d).

Fixpoint hexDigits (n : nat) (x : N) : string :=
  match n with
  | O => EmptyString
  | S n' => hexDigits n' (x / 16)%N ++ String (hexDigit (x mod 16)%N) EmptyString
  end.

Definition Hex (id : ObjectID) : string := hexDigits 24 id.

Inductive MessageFilter : Type :=
  | MessageByStatus (status : MessageStatus)
  | MessageByGroupID (group_ids : ObjectID).

Inductive GroupFilter : Type :=
  | GroupByStatus (status : MessageGroupStatus).

(** [repository.MessageRepo] and [repository.MessageGroupRepo], each call
    acting on its store.  Modelled from the spec: [Traverse] is not among
    the sources; it is read as a cursor, the store answering the filter with
    the documents ([messageFind], [groupFind]) and the callback being run on
    each in turn until one returns an error ([traverse] below). *)
Class Repos := {
  MessageStore : Type;
  GroupStore : Type;
  messageFind : MessageFilter -> MessageStore -> error + list Message.t;
  messageUpdateID : ObjectID -> Message.t -> MessageStore -> option error * MessageStore;
  messageCount : MessageFilter -> MessageStore -> Z * option error;
  groupFind : GroupFilter -> GroupStore -> error + list MessageGroup.t;
  groupUpdateID : ObjectID -> MessageGroup.t -> GroupStore -> option error * GroupStore;
  CollectingGroup : GroupRule.t -> GroupStore -> (error + MessageGroup.t) * GroupStore
}.

Fixpoint traverse {A S : Type} (cb : A -> S -> option error * S)
  (docs : list A) (s : S) : option error * S :=
  match docs with
  | [] => (None, s)
  | doc :: rest =>
      match cb doc s with
      | (Some err, s') => (Some err, s')
      | (None, s') => traverse cb rest s'
      end
  end.

(** [pubsub.MessageGroupPendingEvent]. *)
Record MessageGroupPendingEvent := mkPendingEvent {
  Group : MessageGroup.t;
  CreatedAt : Z
}.

(** [MatchedRule], what the match test reports for a rule. *)
Module MatchedRule.
Record t := mk {
  Rule : Rule.t;
  AggregateKey : string
}.
End MatchedRule.

Section Job.
Context {env : Environment} {repos : Repos}.

(** What the job acts on: the two collections and the events published on
    the in-process bus so far. *)
Record World := mkWorld {
  messages : MessageStore;
  groups : GroupStore;
  published : list MessageGroupPendingEvent
}.

Definition BuildMessageFinger (groupRule : string) (msg : Message.t) : string :=
  match NewMessageFinger groupRule with
  | inl err => "[error]invalid_rule"
  | inr finger =>
      match fingerRun finger msg with
      | inl err => "[error]parse_failed"
      | inr groupKey => groupKey
      end
  end.

(** The variables one run of the first callback works on: its copy of the
    message, the ignore flag, the [collectingGroups] map the closure captured
    and the group collection. *)
Record Visit := mkVisit {
  msg : Message.t;
  messageCanIgnore : bool;
  collectingGroups : gmap string MessageGroup.t;
  groupStore : GroupStore
}.

(** [msg.GroupID = append(msg.GroupID, grp.ID); msg.Status = grouped]. *)
Definition assign (v : Visit) (grp : MessageGroup.t)
  (cache : gmap string MessageGroup.t) (gs : GroupStore) : Visit :=
  {| msg := Message.withStatus
              (Message.withGroupID (msg v)
                 (Message.GroupID (msg v) ++ [MessageGroup.ID grp])%list)
              MessageStatusGrouped;
     messageCanIgnore := messageCanIgnore v;
     collectingGroups := cache;
     groupStore := gs |}.

Definition groupKey (m : MessageMatcher.t) (aggregateKey : string) (msg : Message.t) : string :=
  Hex (Rule.ID (MessageMatcher.Rule m)) ++ ":" ++ aggregateKey ++ ":" ++ Message.Type_ msg.

(** The body of [for _, m := range matchers]. An error here is the
    [return err] that leaves the callback. *)
Definition matchStep (m : MessageMatcher.t) (v : Visit) : option error * Visit :=
  let '(matched, ignored, err) := MessageMatcher.Match m (msg v) in
  match err with
  | Some _ => (None, v)
  | None =>
      if matched then
        if ignored then
          (None, {| msg := msg v; messageCanIgnore := true;
                    collectingGroups := collectingGroups v;
                    groupStore := groupStore v |})
        else
          let aggregateKey :=
            BuildMessageFinger (Rule.AggregateRule (MessageMatcher.Rule m)) (msg v) in
          let key := groupKey m aggregateKey (msg v) in
          match collectingGroups v !! key with
          | Some grp => (None, assign v grp (collectingGroups v) (groupStore v))
          | None =>
              match CollectingGroup
                      (ToGroupRule (MessageMatcher.Rule m) aggregateKey
                         (Message.Type_ (msg v)))
                      (groupStore v) with
              | (inl err, gs) =>
                  (Some err, {| msg := msg v; messageCanIgnore := messageCanIgnore v;
                                collectingGroups := collectingGroups v;
                                groupStore := gs |})
              | (inr grp, gs) =>
                  (None, assign v grp (<[key := grp]> (collectingGroups v)) gs)
              end
          end
      else (None, v)
  end.

Definition matchLoop (matchers : list MessageMatcher.t) (v : Visit) : option error * Visit :=
  traverse matchStep matchers v.

(** [if msg.Status == pending { msg.Status = IfElse(messageCanIgnore, ignored, canceled) }]. *)
Definition settle (v : Visit) : Message.t :=
  if decide (Message.Status (msg v) = MessageStatusPending) then
    Message.withStatus (msg v)
      (if messageCanIgnore v then MessageStatusIgnored else MessageStatusCanceled)
  else msg v.

(** The callback of the first traversal, over pending messages. *)
Definition groupingCallback (matchers : list MessageMatcher.t) (m : Message.t)
  (st : gmap string MessageGroup.t * World)
  : option error * (gmap string MessageGroup.t * World) :=
  let w := st.2 in
  match matchLoop matchers
          {| msg := m; messageCanIgnore := false;
             collectingGroups := st.1; groupStore := groups w |} with
  | (Some err, v) =>
      (Some err,
       (collectingGroups v,
        {| messages := messages w; groups := groupStore v; published := published w |}))
  | (None, v) =>
      let '(err, ms) := messageUpdateID (Message.ID (settle v)) (settle v) (messages w) in
      (err,
       (collectingGroups v,
        {| messages := ms; groups := groupStore v; published := published w |}))
  end.

(** The loop of the second callback: the first matcher that matches without
    error turns the message to expired and ends the loop. *)
Fixpoint rematch (matchers : list MessageMatcher.t) (msg : Message.t) : Message.t :=
  match matchers with
  | [] => msg
  | m :: rest =>
      let '(matched, _, err) := MessageMatcher.Match m msg in
      match err with
      | Some _ => rematch rest msg
      | None =>
          if matched then Message.withStatus msg MessageStatusExpired
          else rematch rest msg
      end
  end.

Definition rematchCallback (matchers : list MessageMatcher.t) (m : Message.t) (w : World)
  : option error * World :=
  let '(err, ms) := messageUpdateID (Message.ID (rematch matchers m)) (rematch matchers m)
                      (messages w) in
  (err, {| messages := ms; groups := groups w; published := published w |}).

(** [groupingMessages]; [initialized] is what [initializeMatchers] returned
    for the enabled rules. *)
Definition groupingMessages (initialized : error + list MessageMatcher.t) (w : World)
  : option error * World :=
  match initialized with
  | inl err => (Some err, w)
  | inr matchers =>
      match messageFind (MessageByStatus MessageStatusPending) (messages w) with
      | inl err => (Some err, w)
      | inr pendings =>
          match traverse (groupingCallback matchers) pendings (∅, w) with
          | (Some err, st) => (Some err, st.2)
          | (None, st) =>
              match messageFind (MessageByStatus MessageStatusCanceled) (messages st.2) with
              | inl err => (Some err, st.2)
              | inr canceled => traverse (rematchCallback matchers) canceled st.2
              end
          end
      end
  end.

(** The group a ready collecting group becomes: the count stamped, the
    status pending. *)
Definition advance (msgCount : Z) (grp : MessageGroup.t) : MessageGroup.t :=
  MessageGroup.withStatus (MessageGroup.withMessageCount grp msgCount)
    MessageGroupStatusPending.

(** The callback of [pendingMessageGroup]; [now] is the clock of the tick.
    An error of [Count] is logged only; the event is published whatever
    [UpdateID] answered. *)
Definition pendingCallback (now : Z) (grp : MessageGroup.t) (w : World)
  : option error * World :=
  if negb (MessageGroup.Ready now grp) then (None, w)
  else
    let '(msgCount, _) := messageCount (MessageByGroupID (MessageGroup.ID grp)) (messages w) in
    let grp' := advance msgCount grp in
    let '(err, gs) := groupUpdateID (MessageGroup.ID grp') grp' (groups w) in
    (err,
     {| messages := messages w; groups := gs;
        published := (published w ++ [ {| Group := grp'; CreatedAt := now |} ])%list |}).

Definition pendingMessageGroup (now : Z) (w : World) : option error * World :=
  match groupFind (GroupByStatus MessageGroupStatusCollecting) (groups w) with
  | inl err => (Some err, w)
  | inr collecting => traverse (pendingCallback now) collecting w
  end.

(** [executing] tells whether the one-slot channel is occupied. *)
Record AggregationJob := mkJob { executing : bool }.

Definition NewAggregationJob : AggregationJob := {| executing := false |}.

Inductive Outcome : Type :=
  | Skipped
  | Ran (grouping pending : option error).

(** [Handle]: with the slot free both steps run in turn; the container's
    [MustResolve] is read as calling the step with its repositories and no
    more, so what the first step returns does not keep the second from
    running.  The deferred receive frees the slot again, so the job is as
    before.  With the slot taken the tick is skipped. *)
Definition Handle (a : AggregationJob) (initialized : error + list MessageMatcher.t)
  (now : Z) (w : World) : Outcome * World :=
  if executing a then (Skipped, w)
  else
    let '(e1, w1) := groupingMessages initialized w in
    let '(e2, w2) := pendingMessageGroup now w1 in
    (Ran e1 e2, w2).

(** The loop of the match test: every matcher that matches without error is
    reported, whatever its ignored flag, with the fingerprint of the message
    under its rule. *)
Fixpoint matchTestLoop (matchers : list MessageMatcher.t) (msg : Message.t)
  (matchedRules : list MatchedRule.t) : list MatchedRule.t :=
  match matchers with
  | [] => matchedRules
  | m :: rest =>
      let '(matched, _, err) := MessageMatcher.Match m msg in
      match err with
      | Some _ => matchTestLoop rest msg matchedRules
      | None =>
          if matched then
            matchTestLoop rest msg
              (matchedRules
               ++ [ {| MatchedRule.Rule := MessageMatcher.Rule m;
                       MatchedRule.AggregateKey :=
                         BuildMessageFinger (Rule.AggregateRule (MessageMatcher.Rule m)) msg |} ])%list
          else matchTestLoop rest msg matchedRules
      end
  end.

(** The function [BuildMessageMatchTest] returns; [initialized] is what
    [initializeMatchers] returned for the enabled rules. *)
Definition BuildMessageMatchTest (initialized : error + list MessageMatcher.t)
  (msg : Message.t) : list MatchedRule.t * option error :=
  match initialized with
  | inl err => ([], Some err)
  | inr matchers => (matchTestLoop matchers msg [], None)
  end.

End Job.

Arguments World {_}.
Arguments Visit {_}.

(** *** Vocabulary for the statements *)

(** How a matcher answers for a message: a genuine match (matched, not
    ignored, no error), a soft match (matched and flagged ignored, no
    error), or a match of either kind. *)
Definition genuineMatch (msg : Message.t) (m : MessageMatcher.t) : bool :=
  match MessageMatcher.Match m msg with
  | (true, false, None) => true
  | _ => false
  end.

Definition softMatch (msg : Message.t) (m : MessageMatcher.t) : bool :=
  match MessageMatcher.Match m msg with
  | (true, true, None) => true
  | _ => false
  end.

Definition anyMatch (msg : Message.t) (m : MessageMatcher.t) : bool :=
  match MessageMatcher.Match m msg with
  | (true, _, None) => true
  | _ => false
  end.

(** The group a genuine match of [m] assigns the message [m0] to, given the
    [collectingGroups] map and the group collection at that moment: the one
    cached under the key, or else the one the store's find-or-insert
    answers. *)
Definition assignedBy {env : Environment} {repos : Repos} (m : MessageMatcher.t)
  (m0 : Message.t) (cache : gmap string MessageGroup.t) (gs : GroupStore)
  (grp : MessageGroup.t) : Prop :=
  let aggregateKey := BuildMessageFinger (Rule.AggregateRule (MessageMatcher.Rule m)) m0 in
  cache !! groupKey m aggregateKey m0 = Some grp
  \/ (cache !! groupKey m aggregateKey m0 = None
      /\ exists gs',
          CollectingGroup (ToGroupRule (MessageMatcher.Rule m) aggregateKey (Message.Type_ m0)) gs
          = (inr grp, gs')).

(** The message as the matchers after a genuine match see it: the callback
    works on its own copy, to which every genuine match appends a group id
    and which it marks grouped; [ids] are the ids appended so far. *)
Definition grouping (m0 : Message.t) (ids : list ObjectID) : Message.t :=
  match ids with
  | [] => m0
  | _ =>
      Message.withStatus
        (Message.withGroupID m0 (Message.GroupID m0 ++ ids)%list)
        MessageStatusGrouped
  end.



(** What the match test reports for a matcher that matched. *)
Definition reported {env : Environment} (msg : Message.t) (m : MessageMatcher.t)
  : MatchedRule.t :=
  {| MatchedRule.Rule := MessageMatcher.Rule m;
     MatchedRule.AggregateKey :=
       BuildMessageFinger (Rule.AggregateRule (MessageMatcher.Rule m)) msg |}.

(** Two messages are the same event: all but status and group ids agree. *)
Definition sameEvent (a a' : Message.t) : Prop :=
  Message.ID a' = Message.ID a
  /\ Message.Content a' = Message.Content a
  /\ Message.Meta a' = Message.Meta a
  /\ Message.Tags a' = Message.Tags a
  /\ Message.Origin a' = Message.Origin a
  /\ Message.Type_ a' = Message.Type_ a
  /\ Message.CreatedAt a' = Message.CreatedAt a.

(** The status changes one run of the job can make to a stored message. *)
Definition mayBecome (before after : MessageStatus) : bool :=
  match before, after with
  | MessageStatusPending, MessageStatusPending => false
  | MessageStatusPending, _ => true
  | MessageStatusCanceled, (MessageStatusCanceled | MessageStatusExpired) => true
  | MessageStatusGrouped, MessageStatusGrouped => true
  | MessageStatusIgnored, MessageStatusIgnored => true
  | MessageStatusExpired, MessageStatusExpired => true
  | _, _ => false
  end.

(** How a stored message [a] relates to what one run of the job leaves in
    its place: the same event, a status further along the life cycle, group
    ids that only grew, and grew only for a message that went from pending
    to grouped; a message that was grouped, ignored or expired is left as it
    was. *)
Definition evolves (a a' : Message.t) : Prop :=
  sameEvent a a'
  /\ mayBecome (Message.Status a) (Message.Status a') = true
  /\ (exists more, Message.GroupID a' = (Message.GroupID a ++ more)%list
                   /\ (more <> [] <->
                       Message.Status a = MessageStatusPending
                       /\ Message.Status a' = MessageStatusGrouped))
  /\ (Message.Status a <> MessageStatusPending ->
      Message.Status a <> MessageStatusCanceled -> a' = a).

(** What the first callback makes of a message [x] that is pending: the
    same event, no longer pending, with group ids appended exactly when it
    ends grouped. *)
Definition settled (x final : Message.t) : Prop :=
  Message.Status x = MessageStatusPending ->
  sameEvent x final
  /\ Message.Status final <> MessageStatusPending
  /\ exists more, Message.GroupID final = (Message.GroupID x ++ more)%list
                  /\ (more <> [] <-> Message.Status final = MessageStatusGrouped).

(** The key under which a pending message is first looked up in the map of
    collecting groups: that of the first matcher that genuinely matches it. *)
Definition firstKey {env : Environment} (matchers : list MessageMatcher.t)
  (x : Message.t) : option string :=
  match List.find (genuineMatch x) matchers with
  | Some m =>
      Some (groupKey m (BuildMessageFinger (Rule.AggregateRule (MessageMatcher.Rule m)) x) x)
  | None => None
  end.

(** A pending message [a] was routed by way of the map [cache]: the group
    cached under its first key is the first one appended to its group ids. *)
Definition routed {env : Environment} (matchers : list MessageMatcher.t)
  (cache : gmap string MessageGroup.t) (a a' : Message.t) : Prop :=
  Message.Status a = MessageStatusPending ->
  forall k, firstKey matchers a = Some k ->
  exists grp more,
    cache !! k = Some grp
    /\ Message.GroupID a' = (Message.GroupID a ++ MessageGroup.ID grp :: more)%list.

(** Every cached group is a stored group; every id of a list is the id of a
    stored group. *)
Definition cacheStored (cache : gmap string MessageGroup.t) (gs : list MessageGroup.t) : Prop :=
  forall k g, cache !! k = Some g -> MessageGroup.ID g ∈ map MessageGroup.ID gs.

Definition idsStored (ids : list ObjectID) (gs : list MessageGroup.t) : Prop :=
  forall gid, gid ∈ ids -> gid ∈ map MessageGroup.ID gs.

(** Every group id a stored message carries is the id of a stored group. *)
Definition referencesExist (ms : list Message.t) (gs : list MessageGroup.t) : Prop :=
  forall a gid, a ∈ ms -> gid ∈ Message.GroupID a -> gid ∈ map MessageGroup.ID gs.

(** Computing the fingerprint fails: the aggregate expression does not
    compile, or running it over the message errors. *)
Definition fingerprintFails {env : Environment} (groupRule : string) (msg : Message.t) : bool :=
  match NewMessageFinger groupRule with
  | inl _ => true
  | inr finger =>
      match fingerRun finger msg with
      | inl _ => true
      | inr _ => false
      end
  end.

(** *** An in-memory document store *)

(** Modelled from the spec: the repository implementations are not among
    the sources.  A collection is the list of its documents in the store's
    iteration order; a filter selects documents; [UpdateID] replaces the
    document with that id (the first, ids being unique in a collection);
    [Count] counts the documents a filter selects; [CollectingGroup] finds
    the collecting group of the rule's (rule id, aggregate key, type) or
    inserts one under a fresh id.  No call fails. *)
Fixpoint updateID {A : Type} (key : A -> ObjectID) (id : ObjectID) (doc : A)
  (docs : list A) : list A :=
  match docs with
  | [] => []
  | d :: rest =>
      if N.eqb (key d) id then doc :: rest else d :: updateID key id doc rest
  end.

Definition messageSelected (f : MessageFilter) (m : Message.t) : bool :=
  match f with
  | MessageByStatus status => bool_decide (Message.Status m = status)
  | MessageByGroupID id => bool_decide (id ∈ Message.GroupID m)
  end.

Definition groupSelected (f : GroupFilter) (g : MessageGroup.t) : bool :=
  match f with
  | GroupByStatus status => bool_decide (MessageGroup.Status g = status)
  end.

Definition collectingFor (rule : GroupRule.t) (g : MessageGroup.t) : bool :=
  bool_decide (MessageGroup.Status g = MessageGroupStatusCollecting)
  && N.eqb (GroupRule.ID (MessageGroup.Rule g)) (GroupRule.ID rule)
  && String.eqb (GroupRule.AggregateKey (MessageGroup.Rule g)) (GroupRule.AggregateKey rule)
  && String.eqb (GroupRule.Type_ (MessageGroup.Rule g)) (GroupRule.Type_ rule).

Definition freshID (gs : list MessageGroup.t) : ObjectID :=
  N.succ (foldr N.max 0%N (map MessageGroup.ID gs)).

Definition memCollectingGroup (rule : GroupRule.t) (gs : list MessageGroup.t)
  : (error + MessageGroup.t) * list MessageGroup.t :=
  match List.find (collectingFor rule) gs with
  | Some g => (inr g, gs)
  | None =>
      let g := {| MessageGroup.ID := freshID gs; MessageGroup.MessageCount := 0;
                  MessageGroup.Rule := rule; MessageGroup.Actions := [];
                  MessageGroup.Status := MessageGroupStatusCollecting |} in
      (inr g, (gs ++ [g])%list)
  end.

Definition MemRepos : Repos :=
  {| MessageStore := list Message.t;
     GroupStore := list MessageGroup.t;
     messageFind := fun f ms => inr (List.filter (messageSelected f) ms);
     messageUpdateID := fun id m ms => (None, updateID Message.ID id m ms);
     messageCount := fun f ms =>
       (Z.of_nat (length (List.filter (messageSelected f) ms)), None);
     groupFind := fun f gs => inr (List.filter (groupSelected f) gs);
     groupUpdateID := fun id g gs => (None, updateID MessageGroup.ID id g gs);
     CollectingGroup := memCollectingGroup |}.

(** The number of stored messages whose group ids contain [id]. *)
Definition countInGroup (id : ObjectID) (ms : list Message.t) : Z :=
  Z.of_nat (length (List.filter (fun m => bool_decide (id ∈ Message.GroupID m)) ms)).

(** What [pendingMessageGroup] makes of a stored group on the in-memory
    store, and what the second traversal makes of a stored message. *)
Definition advanced (now : Z) (ms : list Message.t) (g : MessageGroup.t) : MessageGroup.t :=
  if bool_decide (MessageGroup.Status g = MessageGroupStatusCollecting)
     && MessageGroup.Ready now g
  then advance (countInGroup (MessageGroup.ID g) ms) g
  else g.

Definition rematched (matchers : list MessageMatcher.t) (m : Message.t) : Message.t :=
  if bool_decide (Message.Status m = MessageStatusCanceled) then rematch matchers m
  else m.

(** The collecting groups of a collection that are ready at [now]. *)
Definition readyCollecting (now : Z) (gs : list MessageGroup.t) : list MessageGroup.t :=
  List.filter (fun g => bool_decide (MessageGroup.Status g = MessageGroupStatusCollecting)
                        && MessageGroup.Ready now g) gs.

(** Both collections hold each id once. *)
Definition uniqueIDs (w : World (repos := MemRepos)) : Prop :=
  NoDup (map Message.ID (messages w)) /\ NoDup (map MessageGroup.ID (groups w)).

(** *** Example data *)

(** A stand-in for the matcher package: a fingerprint program is the name
    of a message field; an unbalanced expression does not compile and an
    unknown field fails when run. *)
Definition toyNewMessageFinger (groupRule : string) : error + string :=
  if String.eqb groupRule "Meta[" then inl (ErrOther "unexpected token EOF")
  else inr groupRule.

Definition toyFingerRun (finger : string) (msg : Message.t) : error + string :=
  if String.eqb finger EmptyString then inr EmptyString
  else if String.eqb finger "Origin" then inr (Message.Origin msg)
  else if String.eqb finger "Type" then inr (Message.Type_ msg)
  else inl (ErrOther "cannot fetch field").

Definition ToyEnvironment : Environment :=
  {| MessageFinger := string;
     NewMessageFinger := toyNewMessageFinger;
     fingerRun := toyFingerRun;
     ToGroupRule := fun rule aggregateKey type =>
       {| GroupRule.ID := Rule.ID rule; GroupRule.Name := Rule.Name rule;
          GroupRule.AggregateKey := aggregateKey; GroupRule.Type_ := type;
          GroupRule.ExpectReadyAt := 60 |} |}.

Definition toyRule (id : ObjectID) (aggregate : string) : Rule.t :=
  {| Rule.ID := id; Rule.Name := "rule"; Rule.Rule := "expr";
     Rule.AggregateRule := aggregate; Rule.Triggers := [] |}.

(** Matchers: one matching an origin, one soft-matching (ignoring) a tag,
    one whose evaluation always fails. *)
Definition originIs (origin : string) (rule : Rule.t) : MessageMatcher.t :=
  {| MessageMatcher.Match := fun msg =>
       (String.eqb (Message.Origin msg) origin, false, None);
     MessageMatcher.Rule := rule |}.

Definition ignoreTag (tag : string) (rule : Rule.t) : MessageMatcher.t :=
  {| MessageMatcher.Match := fun msg =>
       (bool_decide (tag ∈ Message.Tags msg), true, None);
     MessageMatcher.Rule := rule |}.

Definition failing (rule : Rule.t) : MessageMatcher.t :=
  {| MessageMatcher.Match := fun msg => (true, false, Some (ErrOther "invalid operation"));
     MessageMatcher.Rule := rule |}.

Definition toyMatchers : list MessageMatcher.t :=
  [ failing (toyRule 1%N "Origin");
    ignoreTag "noise" (toyRule 2%N EmptyString);
    originIs "logstash" (toyRule 3%N "Origin") ].

Definition pendingMessage (id : ObjectID) (origin : string) (tags : list string)
  : Message.t :=
  {| Message.ID := id; Message.Content := "payload"; Message.Meta := [];
     Message.Tags := tags; Message.Origin := origin; Message.Type_ := "plain";
     Message.GroupID := []; Message.Status := MessageStatusPending;
     Message.CreatedAt := 10 |}.

Definition toyMessages : list Message.t :=
  [ pendingMessage 11%N "logstash" [];
    pendingMessage 12%N "grafana" ["noise"];
    pendingMessage 13%N "grafana" [];
    pendingMessage 14%N "logstash" ["noise"] ].

Definition memWorld (ms : list Message.t) (gs : list MessageGroup.t)
  (bus : list MessageGroupPendingEvent) : World (repos := MemRepos) :=
  @mkWorld MemRepos ms gs bus.

Definition toyWorld : World (repos := MemRepos) := memWorld toyMessages [] [].

Definition noisyLogstash : Message.t := pendingMessage 14%N "logstash" ["noise"].


(** A collection with one collecting group (expected ready at 60) holding
    two of three stored messages. *)
Definition groupedMessage (id : ObjectID) (gids : list ObjectID) : Message.t :=
  {| Message.ID := id; Message.Content := "payload"; Message.Meta := [];
     Message.Tags := []; Message.Origin := "logstash"; Message.Type_ := "plain";
     Message.GroupID := gids; Message.Status := MessageStatusGrouped;
     Message.CreatedAt := 10 |}.

Definition collectingGroup : MessageGroup.t :=
  {| MessageGroup.ID := 1%N; MessageGroup.MessageCount := 0;
     MessageGroup.Rule :=
       {| GroupRule.ID := 3%N; GroupRule.Name := "rule";
          GroupRule.AggregateKey := "logstash"; GroupRule.Type_ := "plain";
          GroupRule.ExpectReadyAt := 60 |};
     MessageGroup.Actions := [];
     MessageGroup.Status := MessageGroupStatusCollecting |}.

Definition readyWorld : World (repos := MemRepos) :=
  memWorld [groupedMessage 11%N [1%N]; groupedMessage 12%N [2%N]; groupedMessage 14%N [2%N; 1%N]]
    [collectingGroup] [].

End Aggregation.

(** ** HTTP answers ([glacier/web]) *)

Module Web.
(** The message of a JSON error: a literal, the text of a Go error
    ([err.Error()]), or a format applied to an error ([fmt.Sprintf] with
    one [%v]). *)
Inductive Message : Type :=
  | Literal (text : string)
  | ErrorText (err : error)
  | Sprintf (format : string) (err : error).

(** [ctx.JSONError(msg, code)] and [ctx.JSON(v)]. *)
Inductive Response (A : Type) : Type :=
  | JSONError (msg : Message) (code : Z)
  | JSON (v : A).

Arguments JSONError {A} msg code.
Arguments JSON {A} v.

Definition StatusUnprocessableEntity : Z := 422.
Definition StatusInternalServerError : Z := 500.
End Web.

(** ** The user repository ([internal/repository/impl], user file) *)

Module Users.
(** Modelled from the spec: [repository.User] is not among the sources; the
    record has the fields the repository reads or writes. *)
Record UserMeta := mkMeta {
  Key : string;
  Value : string
}.

Record User := mkUser {
  ID : ObjectID;
  Name : string;
  Phone : string;
  Email : string;
  Role : string;
  Status : string;
  Password : string;
  Metas : list UserMeta;
  CreatedAt : Z;
  UpdatedAt : Z
}.

(** A [bson.M] whose values are strings. *)
Definition Filter := gmap string string.

Section Repo.
(** [u.col.Find(ctx, filter)]: an error, or a cursor; the cursor is read as
    the outcomes of [cur.Decode] on its documents, in order. *)
Variable colFind : Filter -> error + list (error + User).

(** The loop of [Find]: a document that fails to decode ends it with the
    users decoded so far and the error. *)
Fixpoint drain (cur : list (error + User)) (users : list User) : list User * option error :=
  match cur with
  | [] => (users, None)
  | inl err :: _ => (users, Some err)
  | inr user :: cur' => drain cur' (users ++ [user])%list
  end.

Definition Find (filter : Filter) : list User * option error :=
  match colFind filter with
  | inl err => ([], Some err)
  | inr cur => drain cur []
  end.

(** [str.In(queryK, []string{...})]. *)
Definition strIn (s : string) (l : list string) : bool := existsb (String.eqb s) l.

Definition userFilter (queryK queryV : string) : Filter :=
  if strIn queryK ["name"; "phone"; "email"; "role"; "status"] then
    <[queryK := queryV]> ∅
  else
    <["metas.value" := queryV]> (<["metas.key" := queryK]> ∅).

(** The [default] case of the switch: the value of the first meta whose key
    is the field, the empty string when there is none. *)
Fixpoint metaValue (field : string) (metas : list UserMeta) : string :=
  match metas with
  | [] => EmptyString
  | m :: rest => if String.eqb (Key m) field then Value m else metaValue field rest
  end.

Definition fieldOf (field : string) (u : User) : string :=
  if String.eqb field "name" then Name u
  else if String.eqb field "phone" then Phone u
  else if String.eqb field "email" then Email u
  else if String.eqb field "role" then Role u
  else if String.eqb field "status" then Status u
  else metaValue field (Metas u).

Definition nonEmpty (v : string) : bool := negb (String.eqb v EmptyString).

Definition GetUserMetas (queryK queryV field : string) : list string * option error :=
  let '(users, err) := Find (userFilter queryK queryV) in
  match err with
  | Some err => ([], Some err)
  | None => (List.filter nonEmpty (map (fieldOf field) users), None)
  end.
End Repo.

(** *** Sample users *)

Definition alice : User :=
  {| ID := 1%N; Name := "alice"; Phone := "100"; Email := "alice@example.com";
     Role := "dev"; Status := "enabled"; Password := "x";
     Metas := [mkMeta "team" "infra"; mkMeta "team" "core"];
     CreatedAt := 10; UpdatedAt := 10 |}.

Definition bob : User :=
  {| ID := 2%N; Name := "bob"; Phone := EmptyString; Email := "bob@example.com";
     Role := "dev"; Status := "enabled"; Password := "y";
     Metas := [mkMeta "name" "robert"];
     CreatedAt := 11; UpdatedAt := 11 |}.

(** A collection whose query by role finds both users and whose query by
    the meta [team] meets a document that does not decode. *)
Definition sampleFind (filter : Filter) : error + list (error + User) :=
  match filter !! "role" with
  | Some _ => inr [inr alice; inr bob]
  | None =>
      match filter !! "metas.key" with
      | Some _ => inr [inr alice; inl (ErrOther "cannot decode"); inr bob]
      | None => inl (ErrOther "no such index")
      end
  end.
End Users.

(** ** The group controller ([api/controller], group file) *)

Module GroupController.
Import Web.

(** [pubsub.EventGroupReduceEvent]. *)
Record EventGroupReduceEvent := mkReduce {
  GroupID : ObjectID;
  KeepCount : Z;
  DeleteCount : Z;
  CreatedAt : Z
}.

(** The part of [web.Context] the handler reads. *)
Record WebContext := mkContext {
  PathVar : string -> string;
  Int64Input : string -> Z -> Z
}.

(** What the handler is given: the group repository (whose documents are
    the event groups, [MessageGroup.t] here), the group service, the event
    manager and the clock, over the state they act on.
    [primitive.ObjectIDFromHex] is the driver's. *)
Class Services := {
  State : Type;
  ObjectIDFromHex : string -> error + ObjectID;
  Get : ObjectID -> State -> error + MessageGroup.t;
  CutGroup : ObjectID -> Z -> State -> (error + Z) * State;
  Publish : EventGroupReduceEvent -> State -> State;
  Now : State -> Z
}.

Section Controller.
Context {services : Services}.

Definition CutGroupEvents (webCtx : WebContext) (s : State) : Response Z * State :=
  match ObjectIDFromHex (PathVar webCtx "id") with
  | inl err => (JSONError (ErrorText err) StatusUnprocessableEntity, s)
  | inr groupID =>
      match Get groupID s with
      | inl err => (JSONError (ErrorText err) StatusInternalServerError, s)
      | inr grp =>
          if bool_decide (MessageGroup.Status grp = MessageGroupStatusCollecting)
             || bool_decide (MessageGroup.Status grp = MessageGroupStatusPending)
          then (JSONError (Literal "当前事件组暂时不支持该操作") StatusUnprocessableEntity, s)
          else
            let keepCount := Int64Input webCtx "keep" 20 in
            if (keepCount <? 0)%Z || (1000 <? keepCount)%Z
            then (JSONError (Literal "keep: 保留事件数必须在 0 - 1000 之间")
                    StatusUnprocessableEntity, s)
            else
              match CutGroup groupID keepCount s with
              | (inl err, s1) => (JSONError (ErrorText err) StatusInternalServerError, s1)
              | (inr deletedCount, s1) =>
                  let s2 :=
                    if (0 <? deletedCount)%Z
                    then Publish {| GroupID := MessageGroup.ID grp; KeepCount := keepCount;
                                    DeleteCount := deletedCount; CreatedAt := Now s1 |} s1
                    else s1 in
                  (JSON deletedCount, s2)
              end
      end
  end.

(** A request the handler lets through to the group service. *)
Definition accepted (webCtx : WebContext) (s : State) (gid : ObjectID)
  (grp : MessageGroup.t) : Prop :=
  ObjectIDFromHex (PathVar webCtx "id") = inr gid
  /\ Get gid s = inr grp
  /\ MessageGroup.Status grp <> MessageGroupStatusCollecting
  /\ MessageGroup.Status grp <> MessageGroupStatusPending
  /\ (0 <= Int64Input webCtx "keep" 20 <= 1000)%Z.
End Controller.
End GroupController.

(** ** The agent's message API ([agent/api/message.go]) *)

Module AgentAPI.
Import Web.

(** [protocol.MessageRequest] (rpc/protocol/message.pb.go). *)
Record MessageRequest := mkRequest {
  Data : string
}.

(** The part of [web.Context] the handlers read; [Unmarshal] of the body is
    [unmarshal] of [Misc] below. *)
Record WebContext := mkContext {
  Body : string;
  Input : string -> string;
  InputWithDefault : string -> string -> string
}.

(** Package [misc] is not among the sources: the common message, its
    serialisation and the converters are what the handlers are given. *)
Class Misc := {
  CommonMessage : Type;
  Serialize : CommonMessage -> string;
  unmarshal : string -> error + CommonMessage;
  LogstashToCommonMessage : string -> string -> error + CommonMessage;
  GrafanaToCommonMessage : string -> error + CommonMessage;
  PrometheusToCommonMessage : string -> error + CommonMessage;
  PrometheusAlertToCommonMessage : string -> error + CommonMessage;
  OpenFalconToCommonMessage : string -> string -> CommonMessage
}.

(** [store.MessageStore]: the local queue. *)
Class MessageStore := {
  Queue : Type;
  Enqueue : MessageRequest -> Queue -> option error * Queue
}.

Section Controller.
Context {misc : Misc} {messageStore : MessageStore}.

Definition Handler := WebContext -> Queue -> Response unit * Queue.

Definition saveMessage (commonMessage : CommonMessage) (ctx : WebContext) (q : Queue)
  : Response unit * Queue :=
  let req := {| Data := Serialize commonMessage |} in
  match Enqueue req q with
  | (Some err, q') =>
      (JSONError (Sprintf "本地存储写入失败：%v" err) StatusInternalServerError, q')
  | (None, q') => (JSON tt, q')
  end.

Definition AddCommonMessage : Handler := fun ctx q =>
  match unmarshal (Body ctx) with
  | inl err => (JSONError (Sprintf "invalid request: %v" err) StatusUnprocessableEntity, q)
  | inr commonMessage => saveMessage commonMessage ctx q
  end.

Definition AddLogstashMessage : Handler := fun ctx q =>
  match LogstashToCommonMessage (Body ctx) (InputWithDefault ctx "content-field" "message") with
  | inl err => (JSONError (ErrorText err) StatusInternalServerError, q)
  | inr commonMessage => saveMessage commonMessage ctx q
  end.

Definition AddGrafanaMessage : Handler := fun ctx q =>
  match GrafanaToCommonMessage (Body ctx) with
  | inl err => (JSONError (ErrorText err) StatusInternalServerError, q)
  | inr commonMessage => saveMessage commonMessage ctx q
  end.

Definition AddPrometheusMessage : Handler := fun ctx q =>
  match PrometheusToCommonMessage (Body ctx) with
  | inl err => (JSONError (ErrorText err) StatusInternalServerError, q)
  | inr commonMessage => saveMessage commonMessage ctx q
  end.

Definition AddPrometheusAlertMessage : Handler := fun ctx q =>
  match PrometheusAlertToCommonMessage (Body ctx) with
  | inl err => (JSONError (ErrorText err) StatusInternalServerError, q)
  | inr commonMessage => saveMessage commonMessage ctx q
  end.

Definition AddOpenFalconMessage : Handler := fun ctx q =>
  let tos := Input ctx "tos" in
  let content := Input ctx "content" in
  if String.eqb content EmptyString then
    (JSONError (Literal "invalid request, content required") StatusUnprocessableEntity, q)
  else saveMessage (OpenFalconToCommonMessage tos content) ctx q.

(** [Register]: the routes of the group [/messages], each with its name. *)
Definition Register : list (string * string * Handler) :=
  [ ("/", "messages:add:common", AddCommonMessage);
    ("/logstash/", "messages:add:logstash", AddLogstashMessage);
    ("/grafana/", "messages:add:grafana", AddGrafanaMessage);
    ("/prometheus/api/v1/alerts", "messages:add:prometheus", AddPrometheusMessage);
    ("/prometheus_alertmanager/", "messages:add:prometheus-alert", AddPrometheusAlertMessage);
    ("/openfalcon/im/", "messages:add:openfalcon", AddOpenFalconMessage) ].

(** What the route [path] makes of a request before the queue is touched:
    the request converts to the common message [cm], or it is refused with
    a message and a status code. *)
Definition converted (path : string) (ctx : WebContext) (cm : CommonMessage) : Prop :=
  (path = "/" /\ unmarshal (Body ctx) = inr cm)
  \/ (path = "/logstash/"
      /\ LogstashToCommonMessage (Body ctx) (InputWithDefault ctx "content-field" "message")
         = inr cm)
  \/ (path = "/grafana/" /\ GrafanaToCommonMessage (Body ctx) = inr cm)
  \/ (path = "/prometheus/api/v1/alerts" /\ PrometheusToCommonMessage (Body ctx) = inr cm)
  \/ (path = "/prometheus_alertmanager/"
      /\ PrometheusAlertToCommonMessage (Body ctx) = inr cm)
  \/ (path = "/openfalcon/im/"
      /\ Input ctx "content" <> EmptyString
      /\ cm = OpenFalconToCommonMessage (Input ctx "tos") (Input ctx "content")).

Definition refused (path : string) (ctx : WebContext) (msg : Message) (code : Z) : Prop :=
  (path = "/"
   /\ exists err, unmarshal (Body ctx) = inl err
                  /\ msg = Sprintf "invalid request: %v" err
                  /\ code = StatusUnprocessableEntity)
  \/ (path = "/logstash/"
      /\ exists err,
           LogstashToCommonMessage (Body ctx) (InputWithDefault ctx "content-field" "message")
           = inl err
           /\ msg = ErrorText err /\ code = StatusInternalServerError)
  \/ (path = "/grafana/"
      /\ exists err, GrafanaToCommonMessage (Body ctx) = inl err
                     /\ msg = ErrorText err /\ code = StatusInternalServerError)
  \/ (path = "/prometheus/api/v1/alerts"
      /\ exists err, PrometheusToCommonMessage (Body ctx) = inl err
                     /\ msg = ErrorText err /\ code = StatusInternalServerError)
  \/ (path = "/prometheus_alertmanager/"
      /\ exists err, PrometheusAlertToCommonMessage (Body ctx) = inl err
                     /\ msg = ErrorText err /\ code = StatusInternalServerError)
  \/ (path = "/openfalcon/im/"
      /\ Input ctx "content" = EmptyString
      /\ msg = Literal "invalid request, content required"
      /\ code = StatusUnprocessableEntity).
End Controller.

(** *** A sample agent *)

(** A common message that is its own text; only bodies starting with an
    opening brace convert. *)
Definition sampleConvert (body : string) : error + string :=
  match body with
  | String "{"%char _ => inr body
  | _ => inl (ErrOther "bad payload")
  end.

Definition SampleMisc : Misc :=
  {| CommonMessage := string;
     Serialize := fun m => m;
     unmarshal := sampleConvert;
     LogstashToCommonMessage := fun body _ => sampleConvert body;
     GrafanaToCommonMessage := sampleConvert;
     PrometheusToCommonMessage := sampleConvert;
     PrometheusAlertToCommonMessage := sampleConvert;
     OpenFalconToCommonMessage := fun tos content => (tos ++ ":" ++ content)%string |}.

(** Modelled from the spec: the agent's local store is not among the
    sources; a queue that holds at most [capacity] requests. *)
Definition capacity : nat := 2.

Definition BoundedQueue : MessageStore :=
  {| Queue := list MessageRequest;
     Enqueue := fun req q =>
       if (length q <? capacity)%nat then (None, (q ++ [req])%list)
       else (Some (ErrOther "queue full"), q) |}.

Definition brokenRequest : WebContext :=
  {| Body := "alert"; Input := fun _ => EmptyString;
     InputWithDefault := fun _ d => d |}.

Definition grafanaRequest : WebContext :=
  {| Body := "{alert}"; Input := fun _ => EmptyString;
     InputWithDefault := fun _ d => d |}.
End AgentAPI.

(** ** Predefined templates ([migrate/template.go]) *)

Module Migrate.

Inductive TemplateType : Type :=
  | TemplateTypeMatchRule
  | TemplateTypeTriggerRule
  | TemplateTypeTemplate.

#[global] Instance TemplateType_eq_dec : EqDecision TemplateType.
Proof. solve_decision. Defined.

(** [repository.Template], with the fields the migration reads or writes. *)
Record Template := mkTemplate {
  ID : ObjectID;
  Name : string;
  Description : string;
  Content : string;
  Type_ : TemplateType;
  Predefined : bool
}.

Definition withPredefined (t : Template) (b : bool) : Template :=
  {| ID := ID t; Name := Name t; Description := Description t; Content := Content t;
     Type_ := Type_ t; Predefined := b |}.

Definition withID (t : Template) (id : ObjectID) : Template :=
  {| ID := id; Name := Name t; Description := Description t; Content := Content t;
     Type_ := Type_ t; Predefined := Predefined t |}.

(** [configs.Config] ([configs/config.go]); durations in nanoseconds. *)
Record Config := mkConfig {
  PreviewURL : string;
  Listen : string;
  MongoURI : string;
  MongoDB : string;
  APIToken : string;
  UseLocalDashboard : bool;
  AggregationPeriod : Z;
  ActionTriggerPeriod : Z;
  QueueJobMaxRetryTimes : Z;
  QueueWorkerNum : Z;
  Migrate : bool
}.

(** The errors of the template repository: the sentinel
    [repository.ErrNotFound] and any other. *)
Inductive RepoError : Type :=
  | ErrNotFound
  | ErrRepo (msg : string).

Definition isErrNotFound (err : option RepoError) : bool :=
  match err with Some ErrNotFound => true | _ => false end.

(** [bson.M{"name": ..., "predefined": ...}]. *)
Record TemplateFilter := mkFilter {
  name : string;
  predefined : bool
}.

(** [repository.TemplateRepo]: [Find] reads, [Add] and [Update] write. *)
Class TemplateRepo := {
  Store : Type;
  Find : TemplateFilter -> Store -> list Template * option RepoError;
  Add : Template -> Store -> (RepoError + ObjectID) * Store;
  Update : ObjectID -> Template -> Store -> option RepoError * Store
}.

(** The double quote and the line feed of the Go literals. *)
Definition dq : string := String (ascii_of_nat 34) EmptyString.
Definition nl : string := String (ascii_of_nat 10) EmptyString.

Definition predefinedTemplates : list Template :=
  [ {| ID := NilObjectID; Predefined := false;
       Name := "判断来源";
       Description := "来源为 logstash";
       Content := "Origin == " ++ dq ++ "logstash" ++ dq;
       Type_ := TemplateTypeMatchRule |};
    {| ID := NilObjectID; Predefined := false;
       Name := "判断Meta是否等于某个值";
       Description := "判断日志类型为 nginx_access";
       Content := "Meta[" ++ dq ++ "log_type" ++ dq ++ "] == " ++ dq ++ "nginx_access" ++ dq;
       Type_ := TemplateTypeMatchRule |};
    {| ID := NilObjectID; Predefined := false;
       Name := "判断Meta在某个范围内";
       Description := "日志级别为 ERROR 或 FATAL";
       Content := "Upper(Meta[" ++ dq ++ "log_level" ++ dq ++ "]) in [" ++ dq ++ "ERROR" ++ dq
                  ++ ", " ++ dq ++ "FATAL" ++ dq ++ "]";
       Type_ := TemplateTypeMatchRule |};
    {| ID := NilObjectID; Predefined := false;
       Name := "判断Meta不在某个范围内";
       Description := "日志级别为非 DEBUG、INFO";
       Content := "Meta[" ++ dq ++ "log_level" ++ dq ++ "] not in [" ++ dq ++ "DEBUG" ++ dq
                  ++ ", " ++ dq ++ "INFO" ++ dq ++ "]";
       Type_ := TemplateTypeMatchRule |};
    {| ID := NilObjectID; Predefined := false;
       Name := "判断是否包含标签";
       Description := "包含名为 java 的标签";
       Content := dq ++ "java" ++ dq ++ " in Tags";
       Type_ := TemplateTypeMatchRule |};
    {| ID := NilObjectID; Predefined := false;
       Name := "判断 message 内容是否匹配正则表达式";
       Description := "message 以 " ++ dq ++ "Error:" ++ dq ++ " 开头";
       Content := "Content matches " ++ dq ++ "^Error:" ++ dq;
       Type_ := TemplateTypeMatchRule |};
    {| ID := NilObjectID; Predefined := false;
       Name := "判断 message 内容是否不包含字符串";
       Description := "判断 message 中不包含 " ++ dq ++ "关键词" ++ dq ++ " 字符串";
       Content := "not (Content contains " ++ dq ++ "关键词" ++ dq ++ ")";
       Type_ := TemplateTypeMatchRule |};
    {| ID := NilObjectID; Predefined := false;
       Name := "单位时间内触发次数判断";
       Description := "30分钟内触发失败次数小于5次";
       Content := "TriggeredTimesInPeriod(30, " ++ dq ++ "failed" ++ dq ++ ") < 5";
       Type_ := TemplateTypeTriggerRule |};
    {| ID := NilObjectID; Predefined := false;
       Name := "判断当前时间是否在 某个时间段";
       Description := "每天晚上 10:00 到 次日早上 9:00";
       Content := "DailyTimeBetween(" ++ dq ++ "22:00" ++ dq ++ ", " ++ dq ++ "9:00" ++ dq ++ ")";
       Type_ := TemplateTypeTriggerRule |};
    {| ID := NilObjectID; Predefined := false;
       Name := "判断分组中 Messages 数量是否大于某个值";
       Description := "当前分组中有超过 10 条 Messages";
       Content := "MessagesCount() > 10";
       Type_ := TemplateTypeTriggerRule |};
    {| ID := NilObjectID; Predefined := false;
       Name := "判断分组聚合条件值是否为某些值";
       Description := "匹配聚合条件值为 BigData 的消息";
       Content := "Group.AggregateKey in [" ++ dq ++ "BigData" ++ dq ++ "]";
       Type_ := TemplateTypeTriggerRule |};
    {| ID := NilObjectID; Predefined := false;
       Name := "报警信息摘要";
       Description := "展示报警信息列表";
       Content := "## {{ .Rule.Name }}" ++ nl
                  ++ nl
                  ++ "{{ range $i, $msg := .Messages 4 }}- 来源：**{{ $msg.Origin }}**，标签：{{ $msg.Tags  }}" ++ nl
                  ++ "{{ cutoff 400 $msg.Content | ident " ++ dq ++ "    > " ++ dq ++ " }}" ++ nl
                  ++ "{{ end }}" ++ nl
                  ++ nl
                  ++ "---" ++ nl
                  ++ nl
                  ++ "[共 {{ .Group.MessageCount }} 条，查看详细]({{ .PreviewURL }})";
       Type_ := TemplateTypeTemplate |};
    {| ID := NilObjectID; Predefined := false;
       Name := "报警信息摘要（Meta 信息）";
       Description := "显示报警摘要，输出匹配前缀的 Meta 信息";
       Content := "{{ range $i, $msg := .Messages 4 }}- 文件：{{ index $msg.Meta " ++ dq
                  ++ "log.file.path" ++ dq ++ " }}" ++ nl
                  ++ "{{ meta_prefix_filter $msg.Meta " ++ dq ++ "message" ++ dq
                  ++ " | serialize | cutoff 400 | ident " ++ dq ++ "    > " ++ dq ++ "}}" ++ nl
                  ++ "{{ end }}";
       Type_ := TemplateTypeTemplate |};
    {| ID := NilObjectID; Predefined := false;
       Name := "报警详情链接";
       Description := "报警详细信息链接地址";
       Content := "[共 {{ .Group.MessageCount }} 条，查看详细]({{ .PreviewURL }})";
       Type_ := TemplateTypeTemplate |};
    {| ID := NilObjectID; Predefined := false;
       Name := "嵌入全局的规则模板";
       Description := "在动作模板中引用规则的展示模板内容";
       Content := "{{ .RuleTemplateParsed }}";
       Type_ := TemplateTypeTemplate |} ].

Section Init.
Context {repo : TemplateRepo}.

(** The stored template after the three comparisons: type, content and
    description are the table's; [changed] tells whether one differed. *)
Definition refreshed (stored t : Template) : Template :=
  {| ID := ID stored; Name := Name stored; Description := Description t;
     Content := Content t; Type_ := Type_ t; Predefined := Predefined stored |}.

Definition changed (stored t : Template) : bool :=
  negb (bool_decide (Type_ stored = Type_ t))
  || negb (String.eqb (Content stored) (Content t))
  || negb (String.eqb (Description stored) (Description t)).

(** The body of the loop of [initPredefinedTemplates] for one entry; the
    errors of [Add] and [Update] are logged only. *)
Definition install (entry : Template) (s : Store) : Store :=
  let t := withPredefined entry true in
  let '(temps, err) := Find {| name := Name t; predefined := true |} s in
  if isErrNotFound err || (length temps =? 0)%nat then
    (Add t s).2
  else
    match err with
    | Some _ => s
    | None =>
        match temps with
        | stored :: _ =>
            if changed stored t then (Update (ID stored) (refreshed stored t) s).2 else s
        | [] => s
        end
    end.

(** The loop, over the table it ranges over. *)
Definition installAll (table : list Template) (s : Store) : Store :=
  fold_left (fun s entry => install entry s) table s.

Definition initPredefinedTemplates (conf : Config) (s : Store) : Store :=
  if negb (Migrate conf) then s
  else installAll predefinedTemplates s.
End Init.

(** *** An in-memory template collection *)

(** Modelled from the spec: the template repository is not among the
    sources.  [Find] returns the matching documents in stored order, [Add]
    stores the template under a fresh id, [Update] replaces the document
    with the id. *)
Record MemTemplates := mkMem {
  docs : list Template;
  nextID : ObjectID
}.

Definition selected (f : TemplateFilter) (d : Template) : bool :=
  String.eqb (Name d) (name f) && Bool.eqb (Predefined d) (predefined f).

Definition MemTemplateRepo : TemplateRepo :=
  {| Store := MemTemplates;
     Find := fun f s => (List.filter (selected f) (docs s), None);
     Add := fun t s =>
       (inr (nextID s),
        {| docs := (docs s ++ [withID t (nextID s)])%list; nextID := (nextID s + 1)%N |});
     Update := fun id t s =>
       (None, {| docs := Aggregation.updateID ID id t (docs s); nextID := nextID s |}) |}.

(** Stored ids are pairwise distinct and below the next id. *)
Definition wellFormed (s : MemTemplates) : Prop :=
  NoDup (map ID (docs s)) /\ Forall (fun d => (ID d < nextID s)%N) (docs s).

(** The first stored predefined template named as [t] has the type, content
    and description of [t]. *)
Definition installed (t : Template) (s : MemTemplates) : Prop :=
  exists stored rest,
    List.filter (selected {| name := Name t; predefined := true |}) (docs s) = stored :: rest
    /\ Type_ stored = Type_ t /\ Content stored = Content t
    /\ Description stored = Description t.

(** What the migration may do to a stored template: nothing, or, when it
    is predefined and carries the name of a table entry, set its type,
    content and description to that entry's. *)
Definition kept (table : list Template) (a b : Template) : Prop :=
  b = a
  \/ (Predefined a = true
      /\ exists t, t ∈ table /\ Name t = Name a /\ b = refreshed a t).

(** A template the migration added: an entry of the table, predefined,
    under an id that was free. *)
Definition addedFrom (table : list Template) (free : ObjectID) (d : Template) : Prop :=
  (free <= ID d)%N /\ exists t, t ∈ table /\ d = withID (withPredefined t true) (ID d).

(** The stored templates after a migration: the old ones in place, each
    [kept]; then the added ones. *)
Definition migrated (table : list Template) (s s' : MemTemplates) : Prop :=
  exists olds added,
    docs s' = (olds ++ added)%list
    /\ Forall2 (kept table) (docs s) olds
    /\ Forall (addedFrom table (nextID s)) added.

Definition migrating : Config :=
  {| PreviewURL := "http://localhost:19999/ui/groups/%s.html"; Listen := ":19999";
     MongoURI := "mongodb://localhost:27017"; MongoDB := "adanos-alert";
     APIToken := EmptyString; UseLocalDashboard := false;
     AggregationPeriod := 5000000000; ActionTriggerPeriod := 5000000000;
     QueueJobMaxRetryTimes := 3; QueueWorkerNum := 3; Migrate := true |}.

(** The entry of the table for the link to the details. *)
Definition detailLink : Template :=
  {| ID := NilObjectID; Predefined := false;
     Name := "报警详情链接";
     Description := "报警详细信息链接地址";
     Content := "[共 {{ .Group.MessageCount }} 条，查看详细]({{ .PreviewURL }})";
     Type_ := TemplateTypeTemplate |}.

(** A store that already holds an outdated predefined template and a user's
    template of the same name. *)
Definition staleStore : MemTemplates :=
  {| docs := [ {| ID := 1%N; Name := "报警详情链接"; Description := "old";
                  Content := "{{ .PreviewURL }}"; Type_ := TemplateTypeTemplate;
                  Predefined := true |};
               {| ID := 2%N; Name := "报警详情链接"; Description := "mine";
                  Content := "my link"; Type_ := TemplateTypeTemplate;
                  Predefined := false |} ];
     nextID := 3%N |}.
End Migrate.

(** * Properties *)

(** ** Lock manager *)

Section LockManagerFacts.
Import DistLock.
Context {repo : LockRepo}.

Lemma lock_already_locked d s s' :
  repoLock lockResource (owner d) 90 s = (inl ErrAlreadyLocked, s') ->
  lock d s = (None, {| lockID := NilObjectID; locked := false; owner := owner d |}, s').
Proof. intros Hrepo. unfold lock. rewrite Hrepo. reflexivity. Qed.

Lemma lock_other_error d s s' err :
  isErrAlreadyLocked err = false ->
  repoLock lockResource (owner d) 90 s = (inl err, s') ->
  lock d s = (Some (Wrap err "acquire lock failed"), d, s').
Proof. intros Hne Hrepo. unfold lock. rewrite Hrepo, Hne. reflexivity. Qed.

(** C7. A node that does not hold the lease calls [TryLock].  When the
    repository answers [ErrAlreadyLocked], [TryLock] returns [nil], and
    afterwards [HasLock] is false and the stored lock id is the nil id.
    When the repository answers any other error, [TryLock] returns an
    error (the repository's, wrapped). *)
Theorem TryLock_follower d s :
  locked d = false ->
  (forall s',
      repoLock lockResource (owner d) 90 s = (inl ErrAlreadyLocked, s') ->
      exists d', TryLock d s = (None, d', s')
                 /\ HasLock d' = false /\ lockID d' = NilObjectID)
  /\ (forall err s',
         isErrAlreadyLocked err = false ->
         repoLock lockResource (owner d) 90 s = (inl err, s') ->
         TryLock d s = (Some (Wrap err "acquire lock failed"), d, s')).
Proof.
  intros Hfree. unfold TryLock. rewrite Hfree. split.
  - intros s' Hrepo. eexists. split; [apply lock_already_locked, Hrepo|].
    split; reflexivity.
  - intros err s' Hne Hrepo. now apply lock_other_error.
Qed.

Lemma TryUnLock_error_demotes d s err s' :
  locked d = true ->
  repoUnLock (lockID d) s = (Some err, s') ->
  TryUnLock d s
  = (Some err, {| lockID := NilObjectID; locked := false; owner := owner d |}, s').
Proof. intros Hheld Hrepo. unfold TryUnLock. now rewrite Hheld, Hrepo. Qed.

Lemma TryUnLock_released_unchanged d s s' :
  locked d = true ->
  repoUnLock (lockID d) s = (None, s') ->
  TryUnLock d s = (None, d, s').
Proof. intros Hheld Hrepo. unfold TryUnLock. now rewrite Hheld, Hrepo. Qed.

End LockManagerFacts.

(** Node B asks for the lease while A holds it. *)
Lemma TryLock_follower_witness :
  exists d', DistLock.TryLock (repo := DistLock.MemLockRepo) DistLock.nodeB DistLock.storeHeldByA
             = (None, d', DistLock.storeHeldByA)
             /\ DistLock.HasLock d' = false /\ DistLock.lockID d' = NilObjectID.
Proof.
  apply (proj1 (TryLock_follower (repo := DistLock.MemLockRepo)
                  DistLock.nodeB DistLock.storeHeldByA eq_refl)).
  reflexivity.
Defined.

(** C8 (the code departs from it). Node A holds lease 7 and the store
    releases it without error: [TryUnLock] returns [nil], the row is gone
    from the store, and the manager still reports [HasLock] = true with
    lock id 7. *)
Theorem TryUnLock_success_keeps_locked :
  DistLock.TryUnLock (repo := DistLock.MemLockRepo) DistLock.nodeA DistLock.storeHeldByA
  = (None, DistLock.nodeA,
     {| DistLock.rows := []; DistLock.clock := 120; DistLock.nextID := 8%N |})
  /\ DistLock.HasLock DistLock.nodeA = true
  /\ DistLock.lockID DistLock.nodeA = 7%N.
Proof. repeat split. Qed.

(** ** Trigger matcher *)

Section TriggerMatcherFacts.
Import Matcher.
Context {W : Type} {engine : ExprEngine W}.

(** C4. For a trigger whose condition is the empty string, building the
    matcher succeeds and matching returns true without error in every
    context, given that the engine compiles the literal [true] to a program
    that evaluates to the boolean true. *)
Theorem NewTriggerMatcher_empty_condition (trigger : Trigger.t) (always : Program) :
  Trigger.PreCondition trigger = EmptyString ->
  Compile "true" = inr always ->
  (forall tc w, (Run always tc w).1 = inr (VBool true)) ->
  exists m, NewTriggerMatcher trigger = inr m
            /\ forall tc w, (Match m tc w).1 = (true, None).
Proof.
  intros Hempty Hcompile Hrun.
  unfold NewTriggerMatcher. rewrite Hempty. cbn [String.eqb]. rewrite Hcompile.
  eexists. split; [reflexivity|].
  intros tc w. unfold Match. cbn [program].
  specialize (Hrun tc w). destruct (Run always tc w) as [r w']. cbn in Hrun. subst r.
  reflexivity.
Qed.

Lemma Match_run_error (m : TriggerMatcher W) tc w err w' :
  Run (program m) tc w = (inl err, w') -> Match m tc w = (false, Some err, w').
Proof. intros Hrun. unfold Match. now rewrite Hrun. Qed.

Lemma Match_not_bool (m : TriggerMatcher W) tc w v w' :
  Run (program m) tc w = (inr v, w') -> (forall b, v <> VBool b) ->
  Match m tc w = (false, Some InvalidReturnVal, w').
Proof.
  intros Hrun Hnb. unfold Match. rewrite Hrun.
  destruct v; try reflexivity. now destruct (Hnb b).
Qed.

Lemma Messages_first (tc : TriggerContext W) callback w :
  messageCallbackOnce tc = false -> MessageCallback tc = Some callback ->
  exists tc1,
    Messages tc w = ((callback w).1, tc1, (callback w).2)
    /\ messageCallbackOnce tc1 = true /\ messages tc1 = (callback w).1.
Proof.
  intros Hfresh Hcb. unfold Messages. rewrite Hfresh, Hcb.
  destruct (callback w) as [fetched w1]. eexists. split; [reflexivity|]. split; reflexivity.
Qed.

Lemma Messages_later (tc : TriggerContext W) w :
  messageCallbackOnce tc = true -> Messages tc w = (messages tc, tc, w).
Proof. intros Hdone. unfold Messages. now rewrite Hdone. Qed.

Lemma MessagesTimes_later n (tc : TriggerContext W) w :
  messageCallbackOnce tc = true ->
  MessagesTimes n tc w = (replicate n (messages tc), tc, w).
Proof.
  intros Hdone. induction n as [|n IH]; [reflexivity|].
  cbn [MessagesTimes]. rewrite Messages_later by assumption. rewrite IH. reflexivity.
Qed.

(** C9, as amended. [Messages] takes no count argument.  On a fresh context
    with a callback, the first call invokes the callback on the world,
    returns the whole sequence it fetched and memoizes it; every later call,
    in whatever world, returns that same sequence and leaves context and
    world as they are; so in any number of successive calls the callback
    runs once. *)
Theorem Messages_fetches_once (tc : TriggerContext W) callback w :
  messageCallbackOnce tc = false ->
  MessageCallback tc = Some callback ->
  exists tc1,
    Messages tc w = ((callback w).1, tc1, (callback w).2)
    /\ messages tc1 = (callback w).1
    /\ (forall w2, Messages tc1 w2 = ((callback w).1, tc1, w2))
    /\ (forall n, MessagesTimes (S n) tc w
                  = (replicate (S n) (callback w).1, tc1, (callback w).2)).
Proof.
  intros Hfresh Hcb.
  destruct (Messages_first tc callback w Hfresh Hcb) as (tc1 & Hcall & Hdone & Hmemo).
  exists tc1. split; [exact Hcall|]. split; [exact Hmemo|]. split.
  - intros w2. rewrite Messages_later by exact Hdone. now rewrite Hmemo.
  - intros n. cbn [MessagesTimes]. rewrite Hcall.
    rewrite MessagesTimes_later by exact Hdone. now rewrite Hmemo.
Qed.

End TriggerMatcherFacts.

(** The empty condition on the stand-in engine. *)
Lemma NewTriggerMatcher_empty_condition_witness :
  exists m, Matcher.NewTriggerMatcher (engine := Matcher.ToyEngine) Matcher.emptyTrigger = inr m
            /\ forall tc w, (Matcher.Match m tc w).1 = (true, None).
Proof.
  apply (NewTriggerMatcher_empty_condition (engine := Matcher.ToyEngine)
           Matcher.emptyTrigger (Matcher.ToyConst (Matcher.VBool true))).
  - reflexivity.
  - reflexivity.
  - intros tc w. reflexivity.
Defined.

(** C9 as the specification words it fails: a call that is to return up to
    one event returns both events of the group, the count being no argument
    of [Messages]. *)
Lemma Messages_count_counterexample :
  ~ (forall n : nat, length (Matcher.Messages Matcher.sampleContext 0%nat).1.1 <= n).
Proof. intros Hbound. specialize (Hbound 1%nat). vm_compute in Hbound. lia. Qed.

(** Three calls on the counting callback: one fetch. *)
Lemma Messages_fetches_once_witness :
  exists tc1,
    Matcher.Messages Matcher.sampleContext 0%nat
    = ((Matcher.countingCallback 0).1, tc1, (Matcher.countingCallback 0).2)
    /\ Matcher.messages tc1 = (Matcher.countingCallback 0).1
    /\ (forall w2, Matcher.Messages tc1 w2 = ((Matcher.countingCallback 0).1, tc1, w2))
    /\ (forall n, Matcher.MessagesTimes (S n) Matcher.sampleContext 0%nat
                  = (replicate (S n) (Matcher.countingCallback 0).1, tc1,
                     (Matcher.countingCallback 0).2)).
Proof.
  apply (Messages_fetches_once Matcher.sampleContext Matcher.countingCallback 0%nat);
    reflexivity.
Defined.

(** ** Connector *)

Section ConnectorFacts.
Import Connector.
Context {client : HTTPClient}.

Lemma sendEventToServer_response evt data server token net req resp net' body :
  NewRequestWithContext "POST" (TrimRight server "/"%char ++ "/api/events/") data = inr req ->
  Do (authorize token req) net = (inr resp, net') ->
  ReadAll (Body resp) = inr body ->
  sendEventToServer evt data server token net = (None, net').
Proof.
  intros Hreq Hdo Hread. unfold sendEventToServer.
  rewrite Hreq, Hdo, Hread. reflexivity.
Qed.

Lemma sendEventToServer_error evt data server token net e net' :
  sendEventToServer evt data server token net = (Some e, net') ->
  (exists err,
      NewRequestWithContext "POST" (TrimRight server "/"%char ++ "/api/events/") data = inl err
      /\ e = Wrap err "create request failed")
  \/ (exists req err,
         NewRequestWithContext "POST" (TrimRight server "/"%char ++ "/api/events/") data = inr req
         /\ Do (authorize token req) net = (inl err, net')
         /\ e = Wrap err "request failed")
  \/ (exists req resp err,
         NewRequestWithContext "POST" (TrimRight server "/"%char ++ "/api/events/") data = inr req
         /\ Do (authorize token req) net = (inr resp, net')
         /\ ReadAll (Body resp) = inl err
         /\ e = Wrap err "read response body failed").
Proof.
  unfold sendEventToServer.
  destruct (NewRequestWithContext _ _ _) as [err|req] eqn:Hreq.
  - intros [= <- <-]. left. eauto.
  - destruct (Do (authorize token req) net) as [[err|resp] net1] eqn:Hdo.
    + intros [= <- <-]. right. left. eauto.
    + destruct (ReadAll (Body resp)) as [err|body] eqn:Hread.
      * intros [= <- <-]. right. right. exists req, resp, err. repeat split; auto.
      * intros [=].
Qed.

Lemma sendLoop_after_failures evt data token pre rest err0 net e net1 :
  sendLoop evt data token pre err0 net = (Some e, net1) ->
  sendLoop evt data token (pre ++ rest) err0 net = sendLoop evt data token rest (Some e) net1.
Proof.
  revert err0 net. induction pre as [|s pre IH]; intros err0 net; cbn [sendLoop app].
  - intros [= -> ->]. reflexivity.
  - destruct (sendEventToServer evt data s token net) as [[e1|] net2]; [|discriminate].
    apply IH.
Qed.

Lemma sendLoop_stops evt data token s post err0 net net' :
  sendEventToServer evt data s token net = (None, net') ->
  sendLoop evt data token (s :: post) err0 net = (None, net').
Proof. intros Hsend. cbn [sendLoop]. now rewrite Hsend. Qed.

(** C10. Whatever response a server gives, whatever its status code,
    [sendEventToServer] returns [nil] once the body has been read; it
    returns an error only when building the request, performing it or
    reading the body failed.  So [Send] ends with [nil] at the first server
    that gives a response, the servers after it not being contacted. *)
Theorem Send_any_response_is_success :
  (forall evt data server token net req resp net' body,
      NewRequestWithContext "POST" (TrimRight server "/"%char ++ "/api/events/") data = inr req ->
      Do (authorize token req) net = (inr resp, net') ->
      ReadAll (Body resp) = inr body ->
      sendEventToServer evt data server token net = (None, net'))
  /\ (forall evt data server token net e net',
         sendEventToServer evt data server token net = (Some e, net') ->
         (exists err,
             NewRequestWithContext "POST" (TrimRight server "/"%char ++ "/api/events/") data = inl err)
         \/ (exists req err,
                NewRequestWithContext "POST" (TrimRight server "/"%char ++ "/api/events/") data = inr req
                /\ Do (authorize token req) net = (inl err, net'))
         \/ (exists req resp err,
                NewRequestWithContext "POST" (TrimRight server "/"%char ++ "/api/events/") data = inr req
                /\ Do (authorize token req) net = (inr resp, net')
                /\ ReadAll (Body resp) = inl err))
  /\ (forall tried s later token meta tags origin ctl message net net1 req resp net2 body,
         attemptsFailed tried token meta tags origin ctl message net net1 ->
         NewRequestWithContext "POST" (TrimRight s "/"%char ++ "/api/events/")
           (Marshal {| Content := message; Meta := meta; Tags := tags;
                       Origin := origin; Control := ctl |}) = inr req ->
         Do (authorize token req) net1 = (inr resp, net2) ->
         ReadAll (Body resp) = inr body ->
         Send (tried ++ s :: later) token meta tags origin ctl message net = (None, net2)).
Proof.
  split; [|split].
  - intros. eapply sendEventToServer_response; eassumption.
  - intros evt data server token net e net' Hsend.
    destruct (sendEventToServer_error _ _ _ _ _ _ _ Hsend)
      as [(err & Hreq & _)|[(req & err & Hreq & Hdo & _)|(req & resp & err & Hreq & Hdo & Hread & _)]].
    + left. eauto.
    + right. left. eauto.
    + right. right. exists req, resp, err. repeat split; auto.
  - intros tried s later token meta tags origin ctl message net net1 req resp net2 body
      Hfailed Hreq Hdo Hread.
    unfold Send.
    assert (Hs : sendEventToServer
                   {| Content := message; Meta := meta; Tags := tags;
                      Origin := origin; Control := ctl |}
                   (Marshal {| Content := message; Meta := meta; Tags := tags;
                               Origin := origin; Control := ctl |}) s token net1
                 = (None, net2))
      by (eapply sendEventToServer_response; eassumption).
    destruct Hfailed as [[-> ->]|[e Hpre]].
    + cbn [app]. now apply sendLoop_stops.
    + unfold Send in Hpre. rewrite (sendLoop_after_failures _ _ _ _ _ _ _ _ _ Hpre).
      now apply sendLoop_stops.
Qed.

End ConnectorFacts.

(** The first server refuses the connection, the second answers 500, the
    third is never asked. *)
Lemma Send_any_response_is_success_witness :
  Connector.Send (client := Connector.ToyClient)
    (["http://down/"] ++ "http://strict//" :: ["http://ok"])
    "secret" [] [] "app" Connector.toyControl "hello" []
  = (None, ["http://down/api/events/"; "http://strict/api/events/"]).
Proof.
  eapply (proj2 (proj2 (Send_any_response_is_success (client := Connector.ToyClient)))
            ["http://down/"] "http://strict//" ["http://ok"] "secret" [] [] "app"
            Connector.toyControl "hello" [] ["http://down/api/events/"]).
  - right. eexists. reflexivity.
  - reflexivity.
  - reflexivity.
  - reflexivity.
Defined.

(** ** Aggregation job: one message *)

Section AggregationFacts.
Import Aggregation.
Context {env : Environment} {repos : Repos}.

(** C6. When computing the fingerprint fails, the aggregate key is a
    sentinel beginning with [[error]]: [[error]invalid_rule] when the
    aggregate expression does not compile, [[error]parse_failed] when
    running it over the message errors; so all messages for which one rule's
    fingerprint fails get the same key. *)
Theorem BuildMessageFinger_error_sentinel (groupRule : string) (msg : Message.t) :
  (forall err, NewMessageFinger groupRule = inl err ->
               BuildMessageFinger groupRule msg = "[error]invalid_rule")
  /\ (forall finger err,
         NewMessageFinger groupRule = inr finger -> fingerRun finger msg = inl err ->
         BuildMessageFinger groupRule msg = "[error]parse_failed")
  /\ (fingerprintFails groupRule msg = true ->
      String.prefix "[error]" (BuildMessageFinger groupRule msg) = true)
  /\ (forall msg', fingerprintFails groupRule msg = true ->
                   fingerprintFails groupRule msg' = true ->
                   BuildMessageFinger groupRule msg = BuildMessageFinger groupRule msg').
Proof.
  unfold BuildMessageFinger, fingerprintFails. repeat split.
  - intros err ->. reflexivity.
  - intros finger err -> ->. reflexivity.
  - destruct (NewMessageFinger groupRule) as [e|finger]; [reflexivity|].
    destruct (fingerRun finger msg); [reflexivity|discriminate].
  - intros msg'. destruct (NewMessageFinger groupRule) as [e|finger]; [reflexivity|].
    destruct (fingerRun finger msg); [|discriminate].
    destruct (fingerRun finger msg'); [reflexivity|discriminate].
Qed.

Lemma matchStep_error_skips (m : MessageMatcher.t) (v : Visit) :
  (MessageMatcher.Match m (msg v)).2 <> None -> matchStep m v = (None, v).
Proof.
  unfold matchStep. destruct (MessageMatcher.Match m (msg v)) as [[matched ignored] [e|]]; cbn.
  - reflexivity.
  - intros Hne. now destruct Hne.
Qed.

Lemma traverse_app {A S : Type} (cb : A -> S -> option error * S) l1 l2 s :
  traverse cb (l1 ++ l2) s =
  match traverse cb l1 s with
  | (Some err, s') => (Some err, s')
  | (None, s') => traverse cb l2 s'
  end.
Proof.
  revert s. induction l1 as [|x l1 IH]; intros s; cbn [traverse app]; [reflexivity|].
  destruct (cb x s) as [[e|] s']; [reflexivity|apply IH].
Qed.

Lemma matchLoop_skip_failing pre m post (v : Visit) :
  (forall x, (MessageMatcher.Match m x).2 <> None) ->
  matchLoop (pre ++ m :: post) v = matchLoop (pre ++ post) v.
Proof.
  intros Hfail. unfold matchLoop. rewrite !traverse_app.
  destruct (traverse matchStep pre v) as [[e|] v1]; [reflexivity|].
  cbn [traverse]. rewrite matchStep_error_skips by apply Hfail. reflexivity.
Qed.


(** Once grouped, a message stays grouped through the rest of the loop:
    the id is kept, group ids are only appended, cached groups stay. *)
Lemma matchStep_grouped (m : MessageMatcher.t) (v v' : Visit) :
  Message.Status (msg v) = MessageStatusGrouped ->
  matchStep m v = (None, v') ->
  Message.Status (msg v') = MessageStatusGrouped
  /\ Message.ID (msg v') = Message.ID (msg v)
  /\ (exists more, Message.GroupID (msg v') = (Message.GroupID (msg v) ++ more)%list)
  /\ (forall k g, collectingGroups v !! k = Some g -> collectingGroups v' !! k = Some g).
Proof.
  intros Hgrouped. unfold matchStep.
  destruct (MessageMatcher.Match m (msg v)) as [[matched ignored] [e|]].
  { intros [= <-]. repeat split; auto. exists []. now rewrite app_nil_r. }
  destruct matched.
  2:{ intros [= <-]. repeat split; auto. exists []. now rewrite app_nil_r. }
  destruct ignored.
  { intros [= <-]. cbn. repeat split; auto. exists []. now rewrite app_nil_r. }
  set (aggregateKey := BuildMessageFinger _ _). set (key := groupKey _ _ _).
  destruct (collectingGroups v !! key) as [grp|] eqn:Hcache.
  - intros [= <-]. cbn. repeat split; eauto.
  - destruct (CollectingGroup _ _) as [[err|grp] gs]; [discriminate|].
    intros [= <-]. cbn. repeat split; eauto.
    intros k g Hk. rewrite lookup_insert_ne; [exact Hk|]. congruence.
Qed.

Lemma matchLoop_grouped (matchers : list MessageMatcher.t) (v v' : Visit) :
  Message.Status (msg v) = MessageStatusGrouped ->
  matchLoop matchers v = (None, v') ->
  Message.Status (msg v') = MessageStatusGrouped
  /\ Message.ID (msg v') = Message.ID (msg v)
  /\ (exists more, Message.GroupID (msg v') = (Message.GroupID (msg v) ++ more)%list)
  /\ (forall k g, collectingGroups v !! k = Some g -> collectingGroups v' !! k = Some g).
Proof.
  unfold matchLoop. revert v. induction matchers as [|m rest IH]; intros v Hgrouped; cbn [traverse].
  - intros [= <-]. repeat split; auto. exists []. now rewrite app_nil_r.
  - destruct (matchStep m v) as [[e|] v1] eqn:Hstep; [discriminate|].
    intros Hrest.
    destruct (matchStep_grouped m v v1 Hgrouped Hstep) as (Hs1 & Hid1 & [more1 Hg1] & Hc1).
    destruct (IH v1 Hs1 Hrest) as (Hs & Hid & [more Hg] & Hc).
    repeat split; auto.
    + congruence.
    + exists (more1 ++ more)%list. rewrite Hg, Hg1. now rewrite app_assoc.
Qed.

Lemma matchLoop_from_start (m0 : Message.t) (matchers : list MessageMatcher.t)
  (flag : bool) (cache : gmap string MessageGroup.t) (gs : GroupStore) :
  match matchLoop matchers
          {| msg := m0; messageCanIgnore := flag; collectingGroups := cache; groupStore := gs |}
  with
  | (Some err, v) => existsb (genuineMatch m0) matchers = true
  | (None, v) =>
      Message.ID (msg v) = Message.ID m0
      /\ match List.find (genuineMatch m0) matchers with
         | Some m =>
             Message.Status (msg v) = MessageStatusGrouped
             /\ exists grp more,
                 assignedBy m m0 cache gs grp
                 /\ Message.GroupID (msg v)
                    = (Message.GroupID m0 ++ MessageGroup.ID grp :: more)%list
         | None =>
             msg v = m0
             /\ messageCanIgnore v = flag || existsb (softMatch m0) matchers
             /\ collectingGroups v = cache /\ groupStore v = gs
         end
  end.
Proof.
  unfold matchLoop. revert flag.
  induction matchers as [|m rest IH]; intros flag; cbn [traverse List.find existsb].
  { repeat split; auto. now rewrite orb_false_r. }
  unfold matchStep at 1. unfold genuineMatch at 1 3. unfold softMatch at 1.
  cbn [msg messageCanIgnore collectingGroups groupStore].
  destruct (MessageMatcher.Match m m0) as [[matched ignored] [e|]].
  { specialize (IH flag). destruct matched, ignored; exact IH. }
  destruct matched.
  2:{ specialize (IH flag). destruct ignored; exact IH. }
  destruct ignored.
  { specialize (IH true). cbn [orb].
    destruct (traverse matchStep rest _) as [[e|] v]; [exact IH|].
    destruct IH as [Hid IH]. split; [exact Hid|].
    destruct (List.find (genuineMatch m0) rest); [exact IH|].
    destruct IH as (? & Hflag & ? & ?). repeat split; auto.
    rewrite Hflag. cbn. now rewrite orb_true_r. }
  cbn [orb].
  set (aggregateKey := BuildMessageFinger _ _). set (key := groupKey _ _ _).
  destruct (cache !! key) as [grp|] eqn:Hcache.
  - match goal with |- context [traverse matchStep rest ?v1] => set (start := v1) end.
    destruct (traverse matchStep rest start) as [[e|] v] eqn:Hrest; [reflexivity|].
    destruct (matchLoop_grouped rest start v eq_refl Hrest) as (Hs & Hid & [more Hg] & _).
    split; [exact Hid|]. split; [exact Hs|].
    exists grp, more. split; [left; exact Hcache|].
    rewrite Hg. cbn. now rewrite <- app_assoc.
  - destruct (CollectingGroup _ gs) as [[err|grp] gs'] eqn:Hstore; [reflexivity|].
    match goal with |- context [traverse matchStep rest ?v1] => set (start := v1) end.
    destruct (traverse matchStep rest start) as [[e|] v] eqn:Hrest; [reflexivity|].
    destruct (matchLoop_grouped rest start v eq_refl Hrest) as (Hs & Hid & [more Hg] & _).
    split; [exact Hid|]. split; [exact Hs|].
    exists grp, more. split; [right; split; [exact Hcache|eauto]|].
    rewrite Hg. cbn. now rewrite <- app_assoc.
Qed.


Lemma existsb_find {A : Type} (f : A -> bool) (l : list A) :
  existsb f l = match List.find f l with Some _ => true | None => false end.
Proof. induction l as [|x l IH]; cbn; [reflexivity|]. destruct (f x); [reflexivity|exact IH]. Qed.

Lemma anyMatch_split (m0 : Message.t) (m : MessageMatcher.t) :
  anyMatch m0 m = genuineMatch m0 m || softMatch m0 m.
Proof.
  unfold anyMatch, genuineMatch, softMatch.
  destruct (MessageMatcher.Match m m0) as [[[] []] []]; reflexivity.
Qed.

Lemma existsb_anyMatch_false (m0 : Message.t) (matchers : list MessageMatcher.t) :
  existsb (anyMatch m0) matchers = false ->
  existsb (genuineMatch m0) matchers = false /\ existsb (softMatch m0) matchers = false.
Proof.
  induction matchers as [|m rest IH]; cbn; [auto|].
  rewrite anyMatch_split. intros Hnone.
  apply orb_false_elim in Hnone as [Hm Hrest]. apply orb_false_elim in Hm as [-> ->].
  destruct (IH Hrest) as [-> ->]. auto.
Qed.







(** C5. A failing evaluation counts as no match.  [TriggerMatcher.Match]
    answers false together with the error when running the program fails,
    and false together with [InvalidReturnVal] when the result is no
    boolean.  In the aggregator a matcher whose [Match] returns an error
    leaves the variables of the callback untouched and the loop goes on with
    the matchers after it; a rule that fails on every message is as good as
    absent from the list. *)
Theorem evaluation_failure_is_no_match {W : Type} {engine : Matcher.ExprEngine W} :
  (forall (m : Matcher.TriggerMatcher W) tc w err w',
      Matcher.Run (Matcher.program m) tc w = (inl err, w') ->
      Matcher.Match m tc w = (false, Some err, w'))
  /\ (forall (m : Matcher.TriggerMatcher W) tc w v w',
         Matcher.Run (Matcher.program m) tc w = (inr v, w') ->
         (forall b, v <> Matcher.VBool b) ->
         Matcher.Match m tc w = (false, Some InvalidReturnVal, w'))
  /\ (forall (m : MessageMatcher.t) (v : Visit) (rest : list MessageMatcher.t),
         (MessageMatcher.Match m (msg v)).2 <> None ->
         matchStep m v = (None, v) /\ matchLoop (m :: rest) v = matchLoop rest v)
  /\ (forall (pre post : list MessageMatcher.t) (m : MessageMatcher.t) m0 st,
         (forall x, (MessageMatcher.Match m x).2 <> None) ->
         groupingCallback (pre ++ m :: post) m0 st = groupingCallback (pre ++ post) m0 st).
Proof.
  split; [|split; [|split]].
  - intros m tc w err w'. apply Match_run_error.
  - intros m tc w v w'. apply Match_not_bool.
  - intros m v rest Herr. split; [now apply matchStep_error_skips|].
    unfold matchLoop. cbn [traverse]. now rewrite matchStep_error_skips.
  - intros pre post m m0 st Hfail. unfold groupingCallback.
    now rewrite matchLoop_skip_failing.
Qed.

End AggregationFacts.

Import Aggregation.

(** An expression that does not compile, and a field no message has. *)
Lemma BuildMessageFinger_error_sentinel_witness :
  BuildMessageFinger (env := ToyEnvironment) "Meta[" (pendingMessage 11%N "logstash" [])
  = "[error]invalid_rule"
  /\ BuildMessageFinger (env := ToyEnvironment) "Level" (pendingMessage 11%N "logstash" [])
     = "[error]parse_failed"
  /\ BuildMessageFinger (env := ToyEnvironment) "Level" (pendingMessage 11%N "logstash" [])
     = BuildMessageFinger (env := ToyEnvironment) "Level" (pendingMessage 12%N "grafana" ["noise"]).
Proof.
  split; [|split].
  - apply (proj1 (BuildMessageFinger_error_sentinel (env := ToyEnvironment) "Meta["
             (pendingMessage 11%N "logstash" [])) (ErrOther "unexpected token EOF")).
    reflexivity.
  - apply (proj1 (proj2 (BuildMessageFinger_error_sentinel (env := ToyEnvironment) "Level"
             (pendingMessage 11%N "logstash" []))) "Level" (ErrOther "cannot fetch field"));
      reflexivity.
  - apply (proj2 (proj2 (proj2 (BuildMessageFinger_error_sentinel (env := ToyEnvironment) "Level"
             (pendingMessage 11%N "logstash" []))))); reflexivity.
Defined.

(** A trigger program that fails when run, and a rule whose match always
    errors in front of two working ones. *)
Lemma evaluation_failure_is_no_match_witness :
  Matcher.Match (engine := Matcher.ToyEngine)
    Matcher.failingMatcher
    Matcher.sampleContext 0%nat
  = (false, Some (ErrOther "invalid operation"), 0%nat)
  /\ groupingCallback (env := ToyEnvironment) (repos := MemRepos)
       ([] ++ failing (toyRule 1%N "Origin")
           :: [ignoreTag "noise" (toyRule 2%N EmptyString);
               originIs "logstash" (toyRule 3%N "Origin")])
       (pendingMessage 14%N "logstash" ["noise"]) (∅, toyWorld)
     = groupingCallback (env := ToyEnvironment) (repos := MemRepos)
         ([] ++ [ignoreTag "noise" (toyRule 2%N EmptyString);
                 originIs "logstash" (toyRule 3%N "Origin")])
         (pendingMessage 14%N "logstash" ["noise"]) (∅, toyWorld).
Proof.
  split.
  - apply (proj1 (evaluation_failure_is_no_match (env := ToyEnvironment) (repos := MemRepos)
                    (engine := Matcher.ToyEngine))).
    reflexivity.
  - apply (proj2 (proj2 (proj2 (evaluation_failure_is_no_match (env := ToyEnvironment)
                    (repos := MemRepos) (engine := Matcher.ToyEngine))))).
    intros x. discriminate.
Defined.


(** ** Traversals that update a collection *)

Open Scope list_scope.

Section StoreTraversal.
Context {A S : Type} (key : A -> ObjectID) (store : S -> list A)
  (cb : A -> S -> option error * S) (Inv : S -> Prop) (R : A -> A -> Prop).

Lemma updateID_middle (pre post : list A) (d d' : A) :
  key d ∉ map key pre ->
  updateID key (key d) d' (pre ++ d :: post) = pre ++ d' :: post.
Proof.
  induction pre as [|p pre IH]; intros Hfree; cbn [updateID app].
  - now rewrite N.eqb_refl.
  - cbn [map] in Hfree. apply not_elem_of_cons in Hfree as [Hne Hfree].
    destruct (N.eqb_spec (key p) (key d)) as [Heq|_]; [congruence|].
    now rewrite IH.
Qed.

Hypothesis cb_spec : forall x s, Inv s ->
  exists s', cb x s = (None, s') /\ Inv s'
    /\ ((store s' = store s /\ R x x)
        \/ exists x', key x' = key x /\ R x x'
                      /\ store s' = updateID key (key x) x' (store s)).

Lemma traverse_store (P : A -> bool) (docs pre : list A) (s : S) :
  Inv s -> store s = pre ++ docs -> NoDup (map key (pre ++ docs)) ->
  exists s' docs',
    traverse cb (List.filter P docs) s = (None, s') /\ Inv s'
    /\ store s' = pre ++ docs'
    /\ Forall2 (fun a a' => key a' = key a /\ if P a then R a a' else a' = a) docs docs'.
Proof.
  revert pre s. induction docs as [|d docs IH]; intros pre s Hinv Hstore Hnodup.
  { exists s, []. cbn. repeat split; auto. }
  assert (Hfree : key d ∉ map key pre).
  { rewrite map_app in Hnodup. apply NoDup_app in Hnodup as (_ & Hdisj & _).
    intros Hin. apply (Hdisj _ Hin). cbn. left. }
  assert (Hnext : forall d', key d' = key d ->
                             NoDup (map key ((pre ++ [d']) ++ docs))).
  { intros d' Hkey. rewrite <- app_assoc. cbn [app].
    rewrite map_app in *. cbn [map] in *. now rewrite Hkey. }
  cbn [List.filter]. destruct (P d) eqn:HP.
  - cbn [traverse].
    destruct (cb_spec d s Hinv) as (s1 & Hcb & Hinv1 & Heffect). rewrite Hcb.
    assert (exists d', key d' = key d /\ R d d' /\ store s1 = (pre ++ [d']) ++ docs)
      as (d' & Hkey & HR & Hstore1).
    { destruct Heffect as [[Hsame HR]|(d' & Hkey & HR & Hupd)].
      - exists d. repeat split; auto. rewrite Hsame, Hstore, <- app_assoc. reflexivity.
      - exists d'. repeat split; auto.
        rewrite Hupd, Hstore, updateID_middle by exact Hfree.
        now rewrite <- app_assoc. }
    destruct (IH (pre ++ [d']) s1 Hinv1 Hstore1 (Hnext d' Hkey))
      as (s' & docs' & Htrav & Hinv' & Hstore' & Hrel).
    exists s', (d' :: docs'). repeat split; auto.
    + rewrite Hstore', <- app_assoc. reflexivity.
    + constructor; [|exact Hrel]. rewrite HP. auto.
  - assert (Hstore1 : store s = (pre ++ [d]) ++ docs)
      by (rewrite Hstore, <- app_assoc; reflexivity).
    destruct (IH (pre ++ [d]) s Hinv Hstore1 (Hnext d eq_refl))
      as (s' & docs' & Htrav & Hinv' & Hstore' & Hrel).
    exists s', (d :: docs'). repeat split; auto.
    + rewrite Hstore', <- app_assoc. reflexivity.
    + constructor; [|exact Hrel]. rewrite HP. auto.
Qed.

End StoreTraversal.

Lemma Forall2_function {A : Type} (f : A -> A) (l l' : list A) :
  Forall2 (fun a a' => a' = f a) l l' -> l' = map f l.
Proof. induction 1 as [|a a' l l' Hhead _ IH]; cbn; [reflexivity|now rewrite IH, Hhead]. Qed.

Lemma Forall2_same_keys {A : Type} (key : A -> ObjectID) (Q : A -> A -> Prop) (l l' : list A) :
  Forall2 (fun a a' => key a' = key a /\ Q a a') l l' -> map key l' = map key l.
Proof.
  induction 1 as [|a a' l l' [Hkey _] _ IH]; cbn; [reflexivity|now rewrite IH, Hkey].
Qed.

(** ** The job on the in-memory store *)

Section MemoryStore.
Context {env : Environment}.

Lemma rematch_spec (matchers : list MessageMatcher.t) (m : Message.t) :
  rematch matchers m
  = if existsb (anyMatch m) matchers then Message.withStatus m MessageStatusExpired else m.
Proof.
  induction matchers as [|x rest IH]; cbn [rematch existsb]; [reflexivity|].
  unfold anyMatch at 1.
  destruct (MessageMatcher.Match x m) as [[[] ignored] [e|]]; cbn [orb]; auto.
Qed.

Lemma rematch_ID (matchers : list MessageMatcher.t) (m : Message.t) :
  Message.ID (rematch matchers m) = Message.ID m.
Proof. rewrite rematch_spec. now destruct (existsb _ _). Qed.

Lemma rematched_ID (matchers : list MessageMatcher.t) (m : Message.t) :
  Message.ID (rematched matchers m) = Message.ID m.
Proof. unfold rematched. destruct (bool_decide _); [apply rematch_ID|reflexivity]. Qed.

Lemma rematched_not_pending (matchers : list MessageMatcher.t) (m : Message.t) :
  Message.Status m <> MessageStatusPending ->
  Message.Status (rematched matchers m) <> MessageStatusPending.
Proof.
  unfold rematched. rewrite rematch_spec.
  destruct (bool_decide _); [|auto]. destruct (existsb _ _); [discriminate|auto].
Qed.

Lemma rematched_idempotent (matchers : list MessageMatcher.t) (m : Message.t) :
  rematched matchers (rematched matchers m) = rematched matchers m.
Proof.
  unfold rematched.
  destruct (bool_decide (Message.Status m = MessageStatusCanceled)) eqn:Hcanceled.
  - rewrite (rematch_spec matchers m).
    destruct (existsb (anyMatch m) matchers) eqn:Hmatch.
    + reflexivity.
    + now rewrite Hcanceled, rematch_spec, Hmatch.
  - now rewrite Hcanceled.
Qed.

(** The second traversal, as a whole: every canceled message is rematched. *)
Lemma rematch_pass (matchers : list MessageMatcher.t) (w : World (repos := MemRepos)) :
  NoDup (map Message.ID (messages w)) ->
  traverse (rematchCallback (repos := MemRepos) matchers)
    (List.filter (messageSelected (MessageByStatus MessageStatusCanceled)) (messages w)) w
  = (None, memWorld (map (rematched matchers) (messages w)) (groups w) (published w)).
Proof.
  intros Hnodup.
  destruct (traverse_store Message.ID (fun s : World (repos := MemRepos) => messages s)
              (rematchCallback (repos := MemRepos) matchers)
              (fun s => groups s = groups w /\ published s = published w)
              (fun a a' => a' = rematch matchers a)) with
    (P := messageSelected (MessageByStatus MessageStatusCanceled))
    (docs := messages w) (pre := @nil Message.t) (s := w)
    as (w' & docs' & Htrav & [Hgroups Hbus] & Hstore & Hrel); auto.
  { intros x s [Hg Hp]. eexists. split; [reflexivity|]. cbn. split; [auto|].
    right. exists (rematch matchers x). rewrite rematch_ID. auto. }
  rewrite Htrav. f_equal. cbn [app] in Hstore.
  assert (Hdocs : docs' = map (rematched matchers) (messages w)).
  { apply Forall2_function. eapply Forall2_impl; [exact Hrel|].
    intros a a' [_ Ha]. unfold rematched. cbn in Ha. now destruct (bool_decide _). }
  destruct w' as [ms gs bus]. cbn in *. unfold memWorld. congruence.
Qed.

Lemma advanced_ID now ms (g : MessageGroup.t) :
  MessageGroup.ID (advanced now ms g) = MessageGroup.ID g.
Proof. unfold advanced. now destruct (_ && _). Qed.

Lemma advanced_idempotent now ms (g : MessageGroup.t) :
  advanced now ms (advanced now ms g) = advanced now ms g.
Proof.
  unfold advanced.
  destruct (bool_decide (MessageGroup.Status g = MessageGroupStatusCollecting)
            && MessageGroup.Ready now g) eqn:Hready.
  - reflexivity.
  - now rewrite Hready.
Qed.

Lemma readyCollecting_advanced now ms (gs : list MessageGroup.t) :
  readyCollecting now (map (advanced now ms) gs) = [].
Proof.
  unfold readyCollecting. induction gs as [|g gs IH]; cbn [map List.filter]; [reflexivity|].
  rewrite IH. unfold advanced.
  destruct (bool_decide (MessageGroup.Status g = MessageGroupStatusCollecting)
            && MessageGroup.Ready now g) eqn:Hready.
  - reflexivity.
  - now rewrite Hready.
Qed.

(** What the third traversal publishes, and that it leaves the messages. *)
Lemma pending_published now (l : list MessageGroup.t) (w : World (repos := MemRepos)) :
  exists gs',
    traverse (pendingCallback (repos := MemRepos) now) l w
    = (None,
       memWorld (messages w) gs'
         (published w
          ++ map (fun g => {| Group := advance (countInGroup (MessageGroup.ID g) (messages w)) g;
                              CreatedAt := now |})
               (List.filter (MessageGroup.Ready now) l))).
Proof.
  revert w. induction l as [|g l IH]; intros w; cbn [traverse List.filter map].
  { exists (groups w). rewrite app_nil_r. now destruct w. }
  unfold pendingCallback at 1. destruct (MessageGroup.Ready now g); cbn [negb].
  - cbn. match goal with |- context [traverse _ l ?w1] => destruct (IH w1) as [gs' ->] end.
    exists gs'. cbn. now rewrite <- app_assoc.
  - apply IH.
Qed.

Lemma filter_ready_collecting now (gs : list MessageGroup.t) :
  List.filter (MessageGroup.Ready now)
    (List.filter (groupSelected (GroupByStatus MessageGroupStatusCollecting)) gs)
  = readyCollecting now gs.
Proof.
  unfold readyCollecting. induction gs as [|g gs IH]; cbn [List.filter]; [reflexivity|].
  cbn [groupSelected]. destruct (bool_decide _); cbn [andb List.filter]; [|exact IH].
  destruct (MessageGroup.Ready now g); now rewrite IH.
Qed.

Lemma map_advanced_ready now ms (gs : list MessageGroup.t) :
  map (fun g => {| Group := advance (countInGroup (MessageGroup.ID g) ms) g; CreatedAt := now |})
    (readyCollecting now gs)
  = map (fun g => {| Group := advanced now ms g; CreatedAt := now |}) (readyCollecting now gs).
Proof.
  unfold readyCollecting. induction gs as [|g gs IH]; cbn [List.filter]; [reflexivity|].
  destruct (_ && _) eqn:Hready; [|exact IH].
  cbn [map]. rewrite IH. unfold advanced. now rewrite Hready.
Qed.

(** The third traversal, as a whole. *)
Lemma pending_pass now (w : World (repos := MemRepos)) :
  NoDup (map MessageGroup.ID (groups w)) ->
  pendingMessageGroup (repos := MemRepos) now w
  = (None,
     memWorld (messages w) (map (advanced now (messages w)) (groups w))
       (published w
        ++ map (fun g => {| Group := advanced now (messages w) g; CreatedAt := now |})
             (readyCollecting now (groups w)))).
Proof.
  intros Hnodup. unfold pendingMessageGroup. cbn [groupFind MemRepos].
  destruct (pending_published now
              (List.filter (groupSelected (GroupByStatus MessageGroupStatusCollecting)) (groups w)) w)
    as [gs' Hpub].
  destruct (traverse_store MessageGroup.ID (fun s : World (repos := MemRepos) => groups s)
              (pendingCallback (repos := MemRepos) now)
              (fun s => messages s = messages w)
              (fun a a' => a' = if MessageGroup.Ready now a
                                then advance (countInGroup (MessageGroup.ID a) (messages w)) a
                                else a)) with
    (P := groupSelected (GroupByStatus MessageGroupStatusCollecting))
    (docs := groups w) (pre := @nil MessageGroup.t) (s := w)
    as (w' & docs' & Htrav & Hmsgs & Hstore & Hrel); auto.
  { intros x s Hm. unfold pendingCallback. destruct (MessageGroup.Ready now x); cbn [negb].
    - eexists. split; [reflexivity|]. cbn. split; [exact Hm|].
      right. eexists. split; [|split; [reflexivity|]]; [reflexivity|].
      unfold countInGroup. rewrite Hm. reflexivity.
    - exists s. auto. }
  rewrite Hpub in Htrav. injection Htrav as <-. rewrite Hpub. f_equal.
  cbn [app] in Hstore. cbn in Hstore. subst gs'.
  rewrite filter_ready_collecting, map_advanced_ready. f_equal.
  apply Forall2_function. eapply Forall2_impl; [exact Hrel|].
  intros a a' [_ Ha]. unfold advanced. cbn in Ha.
  destruct (bool_decide _); cbn [andb]; exact Ha.
Qed.

End MemoryStore.

Section MemoryStoreGrouping.
Context {env : Environment}.

Lemma freshID_above (gs : list MessageGroup.t) (id : ObjectID) :
  id ∈ map MessageGroup.ID gs -> (id < freshID gs)%N.
Proof.
  unfold freshID. induction gs as [|g gs IH]; cbn [map foldr].
  - intros Hin. now apply elem_of_nil in Hin.
  - intros Hin. apply elem_of_cons in Hin as [->|Hin]; [lia|].
    specialize (IH Hin). lia.
Qed.

Lemma memCollectingGroup_spec (rule : GroupRule.t) (gs : list MessageGroup.t) :
  exists grp gs',
    memCollectingGroup rule gs = (inr grp, gs')
    /\ (NoDup (map MessageGroup.ID gs) -> NoDup (map MessageGroup.ID gs')).
Proof.
  unfold memCollectingGroup. destruct (List.find _ gs) as [g|].
  - exists g, gs. auto.
  - eexists _, _. split; [reflexivity|]. intros Hnodup.
    rewrite map_app. cbn [map MessageGroup.ID]. apply NoDup_app. repeat split; auto.
    + intros id Hin Hfresh. apply list_elem_of_singleton in Hfresh. subst id.
      apply freshID_above in Hin. lia.
    + apply NoDup_singleton.
Qed.

Lemma matchStep_mem (m : MessageMatcher.t) (v : Visit (repos := MemRepos)) :
  exists v',
    matchStep (repos := MemRepos) m v = (None, v')
    /\ Message.ID (msg v') = Message.ID (msg v)
    /\ (NoDup (map MessageGroup.ID (groupStore v)) ->
        NoDup (map MessageGroup.ID (groupStore v'))).
Proof.
  unfold matchStep.
  destruct (MessageMatcher.Match m (msg v)) as [[matched ignored] [e|]]; [eauto|].
  destruct matched; [|eauto]. destruct ignored; [eexists; split; [reflexivity|]; auto|].
  set (aggregateKey := BuildMessageFinger _ _). set (key := groupKey _ _ _).
  destruct (collectingGroups v !! key) as [grp|].
  - eexists. split; [reflexivity|]. auto.
  - cbn [CollectingGroup MemRepos].
    destruct (memCollectingGroup_spec
                (ToGroupRule (MessageMatcher.Rule m) aggregateKey (Message.Type_ (msg v)))
                (groupStore v)) as (grp & gs' & -> & Hnodup).
    eexists. split; [reflexivity|]. auto.
Qed.

Lemma matchLoop_mem (matchers : list MessageMatcher.t) (v : Visit (repos := MemRepos)) :
  exists v',
    matchLoop (repos := MemRepos) matchers v = (None, v')
    /\ Message.ID (msg v') = Message.ID (msg v)
    /\ (NoDup (map MessageGroup.ID (groupStore v)) ->
        NoDup (map MessageGroup.ID (groupStore v'))).
Proof.
  unfold matchLoop. revert v. induction matchers as [|m rest IH]; intros v; cbn [traverse].
  - eauto.
  - destruct (matchStep_mem m v) as (v1 & -> & Hid1 & Hnd1).
    destruct (IH v1) as (v' & -> & Hid & Hnd).
    exists v'. split; [reflexivity|]. split; [congruence|auto].
Qed.

Lemma settle_spec (v : Visit (repos := MemRepos)) :
  Message.ID (settle v) = Message.ID (msg v)
  /\ Message.Status (settle v) <> MessageStatusPending.
Proof.
  unfold settle. destruct (decide _) as [Hp|Hp]; [|auto].
  split; [reflexivity|]. cbn. now destruct (messageCanIgnore v).
Qed.

Lemma groupingCallback_mem (matchers : list MessageMatcher.t) (x : Message.t)
  (st : gmap string MessageGroup.t * World (repos := MemRepos)) :
  exists cache' final gs',
    groupingCallback (repos := MemRepos) matchers x st
    = (None, (cache',
              memWorld (updateID Message.ID (Message.ID x) final (messages st.2)) gs'
                (published st.2)))
    /\ Message.ID final = Message.ID x
    /\ Message.Status final <> MessageStatusPending
    /\ (NoDup (map MessageGroup.ID (groups st.2)) -> NoDup (map MessageGroup.ID gs')).
Proof.
  unfold groupingCallback.
  match goal with |- context [matchLoop matchers ?v0] =>
    destruct (matchLoop_mem matchers v0) as (v & -> & Hid & Hnd) end.
  cbn in Hid, Hnd. destruct (settle_spec v) as [Hsid Hstatus].
  exists (collectingGroups v), (settle v), (groupStore v).
  cbn. rewrite Hsid, Hid. repeat split; auto.
Qed.

(** The first traversal, as a whole: no message is left pending, the ids of
    both collections stay as they are or fresh, nothing is published. *)
Lemma grouping_pass (matchers : list MessageMatcher.t) (w : World (repos := MemRepos)) :
  uniqueIDs w ->
  exists cache ms1 gs1,
    traverse (groupingCallback (repos := MemRepos) matchers)
      (List.filter (messageSelected (MessageByStatus MessageStatusPending)) (messages w))
      (∅, w)
    = (None, (cache, memWorld ms1 gs1 (published w)))
    /\ map Message.ID ms1 = map Message.ID (messages w)
    /\ Forall (fun m => Message.Status m <> MessageStatusPending) ms1
    /\ NoDup (map MessageGroup.ID gs1).
Proof.
  intros [Hmsgs Hgrps].
  destruct (traverse_store Message.ID
              (fun s : gmap string MessageGroup.t * World (repos := MemRepos) => messages s.2)
              (groupingCallback (repos := MemRepos) matchers)
              (fun s => NoDup (map MessageGroup.ID (groups s.2))
                        /\ published s.2 = published w)
              (fun a a' => Message.Status a' <> MessageStatusPending)) with
    (P := messageSelected (MessageByStatus MessageStatusPending))
    (docs := messages w) (pre := @nil Message.t)
    (s := ((∅ : gmap string MessageGroup.t), w))
    as (s' & docs' & Htrav & [Hnd Hbus] & Hstore & Hrel); auto.
  { intros x s [Hnd Hbus].
    destruct (groupingCallback_mem matchers x s) as (c' & final & gs' & Hcb & Hid & Hst & Hnd').
    eexists. split; [exact Hcb|]. cbn. split; [auto|].
    right. exists final. auto. }
  destruct s' as [cache [ms1 gs1 bus1]]. cbn in *. subst.
  exists cache, docs', gs1. split; [exact Htrav|]. split; [|split; [|exact Hnd]].
  - eapply Forall2_same_keys, Hrel.
  - clear -Hrel. induction Hrel as [|a a' l l' [_ Ha] _ IH]; constructor; [|exact IH].
    cbn in Ha. destruct (bool_decide_reflect (Message.Status a = MessageStatusPending)); congruence.
Qed.

Lemma filter_none {A : Type} (P : A -> bool) (l : list A) :
  Forall (fun a => P a = false) l -> List.filter P l = [].
Proof. induction 1 as [|a l Ha _ IH]; cbn; [reflexivity|now rewrite Ha]. Qed.

(** [groupingMessages] on the in-memory store. *)
Lemma groupingMessages_mem (matchers : list MessageMatcher.t) (w : World (repos := MemRepos)) :
  uniqueIDs w ->
  exists ms1 gs1,
    groupingMessages (repos := MemRepos) (inr matchers) w
    = (None, memWorld (map (rematched matchers) ms1) gs1 (published w))
    /\ map Message.ID ms1 = map Message.ID (messages w)
    /\ Forall (fun m => Message.Status m <> MessageStatusPending) ms1
    /\ NoDup (map MessageGroup.ID gs1)
    /\ (Forall (fun m => Message.Status m <> MessageStatusPending) (messages w) ->
        ms1 = messages w /\ gs1 = groups w).
Proof.
  intros Hunique.
  destruct (grouping_pass matchers w Hunique) as (cache & ms1 & gs1 & Hpass & Hids & Hnp & Hnd).
  exists ms1, gs1. unfold groupingMessages. cbn [messageFind MemRepos].
  rewrite Hpass. cbn [snd].
  split; [|split; [exact Hids|split; [exact Hnp|split; [exact Hnd|]]]].
  - rewrite (rematch_pass matchers (memWorld ms1 gs1 (published w))); [reflexivity|].
    cbn. rewrite Hids. apply Hunique.
  - intros Hnone. rewrite filter_none in Hpass.
    + cbn in Hpass. injection Hpass as _ Hw. destruct w. cbn in *. unfold memWorld in Hw.
      injection Hw as -> ->. auto.
    + eapply Forall_impl; [exact Hnone|]. intros a Ha. cbn.
      now apply bool_decide_eq_false.
Qed.

End MemoryStoreGrouping.

Section JobFacts.
Context {env : Environment}.

(** On any store: the callback of [pendingMessageGroup] on a ready group
    stamps what [Count] answered, sets the status to pending, hands that
    group to [UpdateID] and publishes it. *)
Lemma pendingCallback_ready {repos : Repos} now (grp : MessageGroup.t) (w : World) :
  MessageGroup.Ready now grp = true ->
  pendingCallback now grp w
  = (let grp' := advance (messageCount (MessageByGroupID (MessageGroup.ID grp)) (messages w)).1 grp in
     let '(err, gs) := groupUpdateID (MessageGroup.ID grp) grp' (groups w) in
     (err, {| messages := messages w; groups := gs;
              published := published w ++ [ {| Group := grp'; CreatedAt := now |} ] |})).
Proof.
  intros Hready. unfold pendingCallback. rewrite Hready. cbn [negb].
  destruct (messageCount _ _) as [n e]. reflexivity.
Qed.

(** C2. On the in-memory store, with each group id held once,
    [pendingMessageGroup] succeeds and leaves the messages alone; every
    collecting group whose readiness time has passed is stored with status
    pending and with the number of stored messages whose group ids contain
    its id as its message count, and an event carrying that group is on the
    bus; every other group is stored as it was, and the bus got one event
    for each group that was advanced. *)
Theorem pendingMessageGroup_transitions (now : Z) (w : World (repos := MemRepos)) :
  NoDup (map MessageGroup.ID (groups w)) ->
  exists w',
    pendingMessageGroup (repos := MemRepos) now w = (None, w')
    /\ messages w' = messages w
    /\ groups w' = map (advanced now (messages w)) (groups w)
    /\ published w'
       = published w
         ++ map (fun g => {| Group := advanced now (messages w) g; CreatedAt := now |})
              (readyCollecting now (groups w))
    /\ forall g,
        g ∈ groups w ->
        MessageGroup.Status g = MessageGroupStatusCollecting ->
        MessageGroup.Ready now g = true ->
        exists g',
          g' ∈ groups w'
          /\ {| Group := g'; CreatedAt := now |} ∈ published w'
          /\ MessageGroup.ID g' = MessageGroup.ID g
          /\ MessageGroup.Rule g' = MessageGroup.Rule g
          /\ MessageGroup.Status g' = MessageGroupStatusPending
          /\ MessageGroup.MessageCount g' = countInGroup (MessageGroup.ID g) (messages w).
Proof.
  intros Hnodup. eexists. split; [apply pending_pass, Hnodup|].
  cbn [messages groups published memWorld]. repeat split.
  intros g Hin Hcollecting Hready.
  assert (Hadv : advanced now (messages w) g
                 = advance (countInGroup (MessageGroup.ID g) (messages w)) g).
  { unfold advanced. rewrite Hready, bool_decide_eq_true_2 by exact Hcollecting. reflexivity. }
  exists (advanced now (messages w) g).
  split; [|split; [|rewrite Hadv; auto]].
  - apply list_elem_of_In, in_map, list_elem_of_In, Hin.
  - apply elem_of_app. right.
    apply list_elem_of_In.
    apply (in_map (fun g => {| Group := advanced now (messages w) g; CreatedAt := now |})).
    unfold readyCollecting. apply filter_In. split; [apply list_elem_of_In, Hin|].
    now rewrite Hready, bool_decide_eq_true_2.
Qed.

Lemma Handle_mem (matchers : list MessageMatcher.t) (now : Z) (w : World (repos := MemRepos)) :
  uniqueIDs w ->
  exists ms1 gs1,
    Handle (repos := MemRepos) NewAggregationJob (inr matchers) now w
    = (Ran None None,
       memWorld (map (rematched matchers) ms1)
         (map (advanced now (map (rematched matchers) ms1)) gs1)
         (published w
          ++ map (fun g => {| Group := advanced now (map (rematched matchers) ms1) g;
                              CreatedAt := now |})
               (readyCollecting now gs1)))
    /\ map Message.ID ms1 = map Message.ID (messages w)
    /\ Forall (fun m => Message.Status m <> MessageStatusPending) ms1
    /\ NoDup (map MessageGroup.ID gs1)
    /\ (Forall (fun m => Message.Status m <> MessageStatusPending) (messages w) ->
        ms1 = messages w /\ gs1 = groups w).
Proof.
  intros Hunique.
  destruct (groupingMessages_mem matchers w Hunique)
    as (ms1 & gs1 & Hgrouping & Hids & Hnp & Hnd & Hnoop).
  exists ms1, gs1. split; [|auto].
  unfold Handle. cbn [executing NewAggregationJob]. rewrite Hgrouping.
  rewrite pending_pass by exact Hnd. reflexivity.
Qed.

(** C3. On the in-memory store, with each id held once in either
    collection, a run of the job ends without error, and a second run right
    after it, with the same matchers and the same clock, ends without error
    in the very same state (messages, groups and bus); the second run finds
    no pending message and no collecting group that is ready. *)
Theorem Handle_idempotent (matchers : list MessageMatcher.t) (now : Z)
  (w0 : World (repos := MemRepos)) :
  uniqueIDs w0 ->
  exists w1,
    Handle (repos := MemRepos) NewAggregationJob (inr matchers) now w0 = (Ran None None, w1)
    /\ Handle (repos := MemRepos) NewAggregationJob (inr matchers) now w1 = (Ran None None, w1)
    /\ messageFind (MessageByStatus MessageStatusPending) (messages w1) = inr []
    /\ readyCollecting now (groups w1) = [].
Proof.
  intros Hunique.
  destruct (Handle_mem matchers now w0 Hunique) as (ms1 & gs1 & Hrun & Hids & Hnp & Hnd & _).
  eexists. split; [exact Hrun|].
  set (ms2 := map (rematched matchers) ms1) in *.
  set (gs2 := map (advanced now ms2) gs1) in *.
  assert (Hnp2 : Forall (fun m => Message.Status m <> MessageStatusPending) ms2).
  { subst ms2. apply Forall_forall. intros m Hin.
    apply list_elem_of_In, in_map_iff in Hin as (a & <- & Hin).
    apply rematched_not_pending. rewrite Forall_forall in Hnp.
    apply Hnp, list_elem_of_In, Hin. }
  assert (Hready2 : readyCollecting now gs2 = []) by apply readyCollecting_advanced.
  assert (Hunique2 : uniqueIDs (memWorld ms2 gs2
                        (published w0
                         ++ map (fun g => {| Group := advanced now ms2 g; CreatedAt := now |})
                              (readyCollecting now gs1)))).
  { split; cbn [messages groups memWorld].
    - subst ms2. rewrite map_map.
      rewrite (map_ext _ Message.ID (fun m => rematched_ID matchers m)).
      rewrite Hids. apply Hunique.
    - subst gs2. rewrite map_map.
      rewrite (map_ext _ MessageGroup.ID (fun g => advanced_ID now ms2 g)). exact Hnd. }
  split; [|split].
  - destruct (Handle_mem matchers now _ Hunique2) as (ms1' & gs1' & Hrun2 & _ & _ & _ & Hnoop).
    destruct (Hnoop Hnp2) as [-> ->]. rewrite Hrun2.
    cbn [messages groups published memWorld]. f_equal.
    assert (Hms : map (rematched matchers) ms2 = ms2).
    { subst ms2. rewrite map_map. apply map_ext. intros m. apply rematched_idempotent. }
    rewrite Hms.
    assert (Hgs : map (advanced now ms2) gs2 = gs2).
    { subst gs2. rewrite map_map. apply map_ext. intros g. apply advanced_idempotent. }
    rewrite Hgs, Hready2. cbn [map]. now rewrite app_nil_r.
  - cbn [messages memWorld messageFind MemRepos]. f_equal. apply filter_none.
    eapply Forall_impl; [exact Hnp2|]. intros m Hm. cbn. now apply bool_decide_eq_false.
  - exact Hready2.
Qed.

End JobFacts.

(** Four pending messages, three matchers, no group yet. *)
Lemma Handle_idempotent_witness :
  exists w1,
    Handle (env := ToyEnvironment) (repos := MemRepos) NewAggregationJob (inr toyMatchers) 100 toyWorld
    = (Ran None None, w1)
    /\ Handle (env := ToyEnvironment) (repos := MemRepos) NewAggregationJob (inr toyMatchers) 100 w1
       = (Ran None None, w1)
    /\ messageFind (MessageByStatus MessageStatusPending) (messages w1) = inr []
    /\ readyCollecting 100 (groups w1) = [].
Proof.
  apply (Handle_idempotent (env := ToyEnvironment) toyMatchers 100 toyWorld).
  split; cbn; compute_done.
Defined.

(** One collecting group, ready at 60, seen at 100. *)
Lemma pendingMessageGroup_transitions_witness :
  exists w',
    pendingMessageGroup (repos := MemRepos) 100 readyWorld = (None, w')
    /\ messages w' = messages readyWorld
    /\ groups w' = map (advanced 100 (messages readyWorld)) (groups readyWorld)
    /\ published w'
       = published readyWorld
         ++ map (fun g => {| Group := advanced 100 (messages readyWorld) g; CreatedAt := 100 |})
              (readyCollecting 100 (groups readyWorld))
    /\ forall g,
        g ∈ groups readyWorld ->
        MessageGroup.Status g = MessageGroupStatusCollecting ->
        MessageGroup.Ready 100 g = true ->
        exists g',
          g' ∈ groups w'
          /\ {| Group := g'; CreatedAt := 100 |} ∈ published w'
          /\ MessageGroup.ID g' = MessageGroup.ID g
          /\ MessageGroup.Rule g' = MessageGroup.Rule g
          /\ MessageGroup.Status g' = MessageGroupStatusPending
          /\ MessageGroup.MessageCount g' = countInGroup (MessageGroup.ID g) (messages readyWorld).
Proof.
  apply (pendingMessageGroup_transitions 100 readyWorld).
  cbn. compute_done.
Defined.

(** * Further properties of the code *)

Section LockSequences.
Import DistLock.
Context {repo : LockRepo}.

Lemma wellBehaved_app o given l1 l2 :
  wellBehaved o given (l1 ++ l2)
  <-> wellBehaved o given l1 /\ wellBehaved o (rev (issued l1) ++ given) l2.
Proof.
  revert given. induction l1 as [|ev l1 IH]; intros given; cbn [app wellBehaved issued rev].
  - tauto.
  - destruct ev as [resource o' [e|l]|id|id]; cbn [rev]; rewrite ?IH, <- ?app_assoc; cbn [app];
      tauto.
Qed.

Lemma issued_app l1 l2 : issued (l1 ++ l2) = issued l1 ++ issued l2.
Proof.
  induction l1 as [|ev l1 IH]; cbn [app issued]; [reflexivity|].
  destruct ev as [resource o' [e|l]|id|id]; cbn [app]; now rewrite IH.
Qed.

Lemma wellBehaved_snoc o log ev :
  wellBehaved o [] log ->
  wellBehaved o (rev (issued log) ++ []) [ev] ->
  wellBehaved o [] (log ++ [ev]).
Proof. intros Hlog Hev. apply wellBehaved_app. auto. Qed.

Lemma lock_consistent o d s log :
  consistent o d log ->
  let '(_, d', st) := lock (repo := Recording repo) d (s, log) in
  consistent o d' st.2.
Proof.
  intros (Hlog & Howner & Hheld & Hfree). unfold lock. cbn [repoLock Recording fst snd].
  destruct (@repoLock repo lockResource (owner d) 90 s) as [[err|l] s'] eqn:Hrepo.
  - assert (Hlog' : wellBehaved o [] (log ++ [AskedLock lockResource (owner d) (inl err)])).
    { apply wellBehaved_snoc; [exact Hlog|]. cbn. auto. }
    destruct (isErrAlreadyLocked err); cbn [snd].
    + repeat split; auto. cbn. discriminate.
    + repeat split; auto. intros Hl. rewrite issued_app. apply elem_of_app. auto.
  - cbn [snd]. repeat split; cbn; auto.
    + apply wellBehaved_snoc; [exact Hlog|]. cbn. auto.
    + intros _. rewrite issued_app. cbn. apply elem_of_app. right. left.
    + discriminate.
Qed.

Lemma call_consistent o c d s log :
  consistent o d log ->
  let '(_, d', st) := call (repo := Recording repo) c d (s, log) in
  consistent o d' st.2.
Proof.
  intros Hcons. destruct c; cbn [call].
  - unfold TryLock. destruct (locked d) eqn:Hlocked; [|now apply lock_consistent].
    destruct Hcons as (Hlog & Howner & Hheld & Hfree).
    cbn [repoRenew Recording fst snd].
    assert (Hlog' : wellBehaved o [] (log ++ [AskedRenew (lockID d)])).
    { apply wellBehaved_snoc; [exact Hlog|]. cbn. split; [|exact I].
      rewrite app_nil_r. apply list_elem_of_In, in_rev.
      rewrite rev_involutive. apply list_elem_of_In. auto. }
    assert (Hcons' : consistent o d (log ++ [AskedRenew (lockID d)])).
    { repeat split; auto. intros Hl. rewrite issued_app. apply elem_of_app. auto. }
    destruct (@repoRenew repo (lockID d) 90 s) as [[err|l] s'].
    + destruct (isErrLockNotFound err); [now apply lock_consistent|exact Hcons'].
    + exact Hcons'.
  - unfold TryUnLock. destruct (locked d) eqn:Hlocked; [|exact Hcons].
    destruct Hcons as (Hlog & Howner & Hheld & Hfree).
    cbn [repoUnLock Recording fst snd].
    assert (Hlog' : wellBehaved o [] (log ++ [AskedUnLock (lockID d)])).
    { apply wellBehaved_snoc; [exact Hlog|]. cbn. split; [|exact I].
      rewrite app_nil_r. apply list_elem_of_In, in_rev.
      rewrite rev_involutive. apply list_elem_of_In. auto. }
    destruct (@repoUnLock repo (lockID d) s) as [[err|] s']; cbn [snd].
    + repeat split; auto. cbn. discriminate.
    + repeat split; auto. intros Hl. rewrite issued_app. apply elem_of_app. auto.
Qed.

(** X1. Whatever sequence of [TryLock] and [TryUnLock] calls a manager
    created by [NewDistributeLockManager] goes through, and whatever the
    lock repository answers, the manager asks the repository to renew or
    release only lease ids that same repository handed out to it before,
    always locks the cron resource under its own owner name, holds an
    issued lease id whenever it reports the lock and the nil id whenever it
    does not. *)
Theorem manager_uses_only_issued_leases (cs : list Call) (o : string) (s : @LockStore repo) :
  let '(d, st) := calls (repo := Recording repo) cs (NewDistributeLockManager o) (s, []) in
  wellBehaved o [] st.2
  /\ owner d = o
  /\ (locked d = true -> lockID d ∈ issued st.2)
  /\ (locked d = false -> lockID d = NilObjectID).
Proof.
  assert (Hgen : forall cs d st, consistent o d st.2 ->
                 let '(d', st') := calls (repo := Recording repo) cs d st in
                 consistent o d' st'.2).
  { clear. induction cs as [|c cs IH]; intros d [s log] Hcons; cbn [calls]; [exact Hcons|].
    pose proof (call_consistent o c d s log Hcons) as Hstep.
    destruct (call (repo := Recording repo) c d (s, log)) as [[e d'] st']. now apply IH. }
  apply (Hgen cs (NewDistributeLockManager o) (s, [])).
  repeat split; cbn; auto. discriminate.
Qed.

End LockSequences.

Section LeaseHandover.
Import DistLock.

Lemma find_filtered_none {A : Type} (f : A -> bool) (P : A -> Prop) `{forall x, Decision (P x)}
  (l : list A) :
  (forall x, x ∈ l -> f x = true -> ~ P x) -> List.find f (filter P l) = None.
Proof.
  induction l as [|x l IH]; intros Hout; [reflexivity|].
  rewrite filter_cons. destruct (decide (P x)) as [HP|HP].
  - cbn [List.find]. destruct (f x) eqn:Hf.
    + exfalso. apply (Hout x); [left|exact Hf|exact HP].
    + apply IH. intros y Hy. apply Hout. now right.
  - apply IH. intros y Hy. apply Hout. now right.
Qed.

(** X2. On the in-memory lock store, once the lease a node holds has run
    out, another node's [TryLock] acquires the resource under a fresh lease;
    the former holder's next [TryLock] then finds its lease gone, fails to
    re-acquire, and returns [nil] demoted to follower. *)
Theorem lease_handover_after_expiry (s : MemLocks) (a b : DistributeLockManager) :
  existsb (live (clock s) lockResource) (rows s) = false ->
  (forall r, r ∈ rows s -> LockID r = lockID a -> Resource r = lockResource) ->
  lockID a <> nextID s ->
  locked a = true ->
  locked b = false ->
  exists b' a' s1,
    TryLock (repo := MemLockRepo) b s = (None, b', s1)
    /\ HasLock b' = true /\ lockID b' = nextID s
    /\ TryLock (repo := MemLockRepo) a s1 = (None, a', s1)
    /\ HasLock a' = false /\ lockID a' = NilObjectID.
Proof.
  intros Hexpired Hrow Hfresh Hheld Hfree.
  unfold TryLock, lock. rewrite Hfree, Hheld.
  cbn [repoLock repoRenew MemLockRepo]. unfold memLock at 1. rewrite Hexpired.
  eexists _, _, _. split; [reflexivity|]. split; [reflexivity|]. split; [reflexivity|].
  unfold memRenew. cbn [rows clock nextID List.find LockID].
  destruct (bool_decide_reflect (nextID s = lockID a)) as [Heq|_]; [now destruct Hfresh|].
  rewrite find_filtered_none.
  2:{ intros r Hin Hid. apply bool_decide_eq_true in Hid. intros Hne. apply Hne. auto. }
  cbn [isErrLockNotFound].
  assert (Hlive : live (clock s) lockResource
                    {| LockID := nextID s; Resource := lockResource; Owner := owner b;
                       ExpiredAt := (clock s + 90)%Z |} = true).
  { unfold live. cbn [Resource ExpiredAt]. apply andb_true_iff. split.
    - now apply bool_decide_eq_true.
    - apply Z.ltb_lt. lia. }
  unfold memLock. cbn [rows clock existsb]. rewrite Hlive. cbn. auto.
Qed.

End LeaseHandover.

Import DistLock.

Lemma lease_handover_after_expiry_witness :
  exists b' a' s1,
    TryLock (repo := MemLockRepo) nodeB expiredStore = (None, b', s1)
    /\ HasLock b' = true /\ lockID b' = nextID expiredStore
    /\ TryLock (repo := MemLockRepo) nodeA s1 = (None, a', s1)
    /\ HasLock a' = false /\ lockID a' = NilObjectID.
Proof.
  apply (lease_handover_after_expiry expiredStore nodeA nodeB).
  - reflexivity.
  - intros r Hin _. apply list_elem_of_singleton in Hin. subst r. reflexivity.
  - discriminate.
  - reflexivity.
  - reflexivity.
Defined.

Section ConnectorMore.
Import Connector.
Context {client : HTTPClient}.

Lemma append_cons (c : ascii) (s t : string) :
  (String c s ++ t)%string = String c (s ++ t)%string.
Proof. reflexivity. Qed.

Lemma append_nil (t : string) : (EmptyString ++ t)%string = t.
Proof. reflexivity. Qed.

Lemma TrimRight_snoc (s : string) (cut : ascii) :
  TrimRight (s ++ String cut EmptyString)%string cut = TrimRight s cut.
Proof.
  induction s as [|c s IH]; rewrite ?append_nil, ?append_cons; cbn [TrimRight].
  - now rewrite Ascii.eqb_refl.
  - now rewrite IH.
Qed.

Lemma TrimRight_no_trailing (s : string) (cut : ascii) :
  endsWith (TrimRight s cut) cut = false.
Proof.
  induction s as [|c s IH]; cbn [TrimRight]; [reflexivity|].
  destruct (TrimRight s cut) as [|c' rest] eqn:Htrim.
  - destruct (Ascii.eqb c cut) eqn:Hc; [reflexivity|]. cbn. exact Hc.
  - exact IH.
Qed.

Lemma TrimRight_fixed (s : string) (cut : ascii) :
  endsWith s cut = false -> TrimRight s cut = s.
Proof.
  induction s as [|c s IH]; intros Hend; cbn [TrimRight]; [reflexivity|].
  destruct s as [|c' s'].
  - cbn in *. now rewrite Hend.
  - rewrite IH by exact Hend. reflexivity.
Qed.

(** X3. A trailing slash on the server address makes no difference to what
    [sendEventToServer] does; the address is cut back to one without a
    trailing slash before the path is appended, and an address without one
    is used as it is. *)
Theorem sendEventToServer_trailing_slashes evt data (server : string) token net :
  sendEventToServer evt data (server ++ "/")%string token net
  = sendEventToServer evt data server token net
  /\ endsWith (TrimRight server "/"%char) "/"%char = false
  /\ (endsWith server "/"%char = false -> TrimRight server "/"%char = server).
Proof.
  split; [|split].
  - unfold sendEventToServer. now rewrite (TrimRight_snoc server "/"%char).
  - apply TrimRight_no_trailing.
  - apply TrimRight_fixed.
Qed.

Lemma sendLoop_failed_nonempty evt data token servers err0 net e net1 :
  servers <> [] ->
  sendLoop evt data token servers err0 net = (Some e, net1) ->
  sendLoop evt data token servers None net = (Some e, net1).
Proof.
  destruct servers as [|s rest]; [contradiction|]. intros _. cbn [sendLoop]. auto.
Qed.

(** X4. With no server configured [Send] answers [nil] and contacts nobody.
    With servers, it ends with an error exactly when every attempt failed,
    and the error it returns is the one of the last server. *)
Theorem Send_error_is_last_failure tried (last : string) token meta tags origin ctl message
  net e net2 :
  Send [] token meta tags origin ctl message net = (None, net)
  /\ (Send (tried ++ [last]) token meta tags origin ctl message net = (Some e, net2)
  <-> exists net1,
      attemptsFailed tried token meta tags origin ctl message net net1
      /\ sendEventToServer
           {| Content := message; Meta := meta; Tags := tags; Origin := origin; Control := ctl |}
           (Marshal {| Content := message; Meta := meta; Tags := tags;
                       Origin := origin; Control := ctl |})
           last token net1 = (Some e, net2)).
Proof.
  split; [reflexivity|].
  unfold attemptsFailed, Send.
  set (evt := {| Content := message; Meta := meta; Tags := tags; Origin := origin; Control := ctl |}).
  set (data := Marshal evt).
  assert (Hgen : forall tried err0 net,
             sendLoop evt data token (tried ++ [last]) err0 net = (Some e, net2)
             <-> exists net1,
                 ((tried = [] /\ net1 = net)
                  \/ exists e1, sendLoop evt data token tried None net = (Some e1, net1))
                 /\ sendEventToServer evt data last token net1 = (Some e, net2)).
  { clear tried net. induction tried as [|s tried IH]; intros err0 net; cbn [app sendLoop].
    - split.
      + intros Hlast. exists net. split; [left; auto|].
        destruct (sendEventToServer evt data last token net) as [[e1|] n1]; [exact Hlast|discriminate].
      + intros (net1 & [[_ ->]|[e1 [=]]] & Hlast). now rewrite Hlast.
    - destruct (sendEventToServer evt data s token net) as [[e1|] n1] eqn:Hs.
      + rewrite IH. split.
        * intros (net1 & Hpre & Hlast). exists net1. split; [|exact Hlast]. right.
          destruct Hpre as [[-> ->]|[e2 Hpre]]; [exists e1; reflexivity|].
          exists e2. destruct tried as [|s2 tried]; [discriminate Hpre|]. exact Hpre.
        * intros (net1 & [[[=] _]|[e2 Hpre]] & Hlast). exists net1. split; [|exact Hlast].
          destruct tried as [|s2 tried]; [left; now injection Hpre as _ <-|right].
          exists e2. exact Hpre.
      + split; [discriminate|]. intros (net1 & [[[=] _]|[e2 [=]]] & _). }
  apply Hgen.
Qed.

Lemma WithMetas_allocated (m : Event) (old metas : gmap string string) :
  meta m = Some old ->
  exists new,
    WithMetas m metas
    = Some {| meta := Some new; tags := tags m; origin := origin m; ctl := ctl m;
              content := content m |}
    /\ forall k, new !! k = match metas !! k with Some v => Some v | None => old !! k end.
Proof.
  intros Hold. unfold WithMetas.
  apply (map_fold_weak_ind
           (fun (r : option Event) (ms : gmap string string) =>
              exists new,
                r = Some {| meta := Some new; tags := tags m; origin := origin m;
                            ctl := ctl m; content := content m |}
                /\ forall k, new !! k
                             = match ms !! k with Some v => Some v | None => old !! k end)).
  - exists old. split.
    + destruct m as [mm tg og ct cn]. cbn in *. now subst mm.
    + intros k. now rewrite lookup_empty.
  - intros i x ms r Hfresh (new & -> & Hnew). exists (<[i := x]> new). split; [reflexivity|].
    intros k. destruct (decide (i = k)) as [->|Hne].
    + now rewrite !lookup_insert_eq.
    + rewrite !lookup_insert_ne by exact Hne. apply Hnew.
Qed.

Lemma WithMetas_nil (m : Event) (metas : gmap string string) :
  meta m = None ->
  WithMetas m metas = if decide (metas = ∅) then Some m else None.
Proof.
  intros Hnil.
  assert (Hfold : (metas = ∅ /\ WithMetas m metas = Some m)
                  \/ (metas <> ∅ /\ WithMetas m metas = None)).
  { unfold WithMetas.
    apply (map_fold_weak_ind
             (fun (r : option Event) (ms : gmap string string) =>
                (ms = ∅ /\ r = Some m) \/ (ms <> ∅ /\ r = None))).
    - left. auto.
    - intros i x ms r Hfresh Hr. right. split; [apply insert_non_empty|].
      destruct Hr as [[_ ->]|[_ ->]]; [|reflexivity].
      unfold WithMeta. now rewrite Hnil. }
  destruct (decide (metas = ∅)) as [Hempty|Hfull];
    destruct Hfold as [[Hm ->]|[Hm ->]]; auto; contradiction.
Qed.

(** X5. [WithMetas] and [WithMeta] write into the event's map.  On an event
    whose map is allocated (as [NewEvent] makes it) [WithMetas] returns the
    event with the maps merged: a key of the given map reads the given
    value, every other key reads what the event had, and tags, origin,
    control and content are not touched.  On the nil map of a zero-value
    event every write panics: [WithMeta] always, [WithMetas] unless the
    given map is empty, in which case it returns the event as it is.
    [WithMeta] is [WithMetas] of a one-entry map. *)
Theorem WithMetas_merges (m : Event) (metas : gmap string string) :
  match meta m with
  | Some old =>
      exists new,
        WithMetas m metas
        = Some {| meta := Some new; tags := tags m; origin := origin m; ctl := ctl m;
                  content := content m |}
        /\ forall k, new !! k = match metas !! k with Some v => Some v | None => old !! k end
  | None =>
      WithMetas m metas = (if decide (metas = ∅) then Some m else None)
      /\ forall key value, WithMeta m key value = None
  end
  /\ (forall key value, WithMetas m {[key := value]} = WithMeta m key value)
  /\ (forall content, meta (NewEvent content) = Some ∅).
Proof.
  split; [|split; [|reflexivity]].
  - destruct (meta m) as [old|] eqn:Hmeta.
    + now apply WithMetas_allocated.
    + split; [now apply WithMetas_nil|]. intros key value. unfold WithMeta. now rewrite Hmeta.
  - intros key value. unfold WithMetas. now rewrite map_fold_singleton.
Qed.

End ConnectorMore.

Import Connector.

Lemma sendEventToServer_trailing_slashes_witness :
  TrimRight "http://ok" "/"%char = "http://ok".
Proof.
  apply (proj2 (proj2 (sendEventToServer_trailing_slashes (client := ToyClient)
                         {| Content := "hello"; Meta := []; Tags := []; Origin := "app";
                            Control := toyControl |} "hello" "http://ok" "secret" []))).
  reflexivity.
Defined.


Lemma Send_error_is_last_failure_witness :
  Send (client := ToyClient) (["http://down/"] ++ ["http://gone"]) "secret" [] [] "app"
    toyControl "hello" []
  = (Some (Wrap (ErrOther "no such host") "request failed"),
     ["http://down/api/events/"; "http://gone/api/events/"]).
Proof.
  apply (proj2 (Send_error_is_last_failure (client := ToyClient) ["http://down/"] "http://gone"
                  "secret" [] [] "app" toyControl "hello" []
                  (Wrap (ErrOther "no such host") "request failed")
                  ["http://down/api/events/"; "http://gone/api/events/"])).
  exists ["http://down/api/events/"]. split; [|reflexivity].
  right. eexists. reflexivity.
Defined.

Import Aggregation.

Section MatchTest.
Context {env : Environment} {repos : Repos}.

Lemma matchTestLoop_spec (matchers : list MessageMatcher.t) (x : Message.t)
  (acc : list MatchedRule.t) :
  matchTestLoop matchers x acc
  = acc ++ map (reported x) (List.filter (anyMatch x) matchers).
Proof.
  revert acc. induction matchers as [|m rest IH]; intros acc; cbn [matchTestLoop List.filter map].
  - now rewrite app_nil_r.
  - unfold anyMatch at 1.
    destruct (MessageMatcher.Match m x) as [[[] ignored] [e|]]; rewrite IH; cbn [map];
      try reflexivity.
    now rewrite <- app_assoc.
Qed.

Lemma filter_nil_existsb {A : Type} (f : A -> bool) (l : list A) :
  List.filter f l = [] <-> existsb f l = false.
Proof.
  induction l as [|a l IH]; cbn; [tauto|].
  destruct (f a); cbn; [split; discriminate|exact IH].
Qed.

(** X6. The match test lists, in matcher order, the rules whose matcher
    matches the message without error (soft matches included), each with the
    message's fingerprint under that rule; a matcher whose evaluation errors
    is skipped, and a failure to set up the matchers is returned with an
    empty list. *)
Theorem BuildMessageMatchTest_reports (matchers : list MessageMatcher.t) (x : Message.t) :
  BuildMessageMatchTest (inr matchers) x
  = (map (reported x) (List.filter (anyMatch x) matchers), None)
  /\ (forall err, BuildMessageMatchTest (inl err) x = ([], Some err))
  /\ (forall m, reported x m ∈ (BuildMessageMatchTest (inr matchers) x).1 <->
                exists m', m' ∈ matchers /\ anyMatch x m' = true /\ reported x m' = reported x m).
Proof.
  unfold BuildMessageMatchTest. rewrite matchTestLoop_spec. cbn [app fst].
  split; [reflexivity|]. split; [reflexivity|].
  intros m. rewrite list_elem_of_In, in_map_iff. split.
  - intros (m' & Heq & Hin). apply filter_In in Hin as [Hin Hany].
    exists m'. rewrite list_elem_of_In. auto.
  - intros (m' & Hin & Hany & Heq). exists m'. split; [exact Heq|].
    apply filter_In. rewrite <- list_elem_of_In. auto.
Qed.

(** X7. The match test predicts the job: a pending message ends canceled
    in the first traversal exactly when the match test reports no rule for
    it, and a canceled message is expired by the second traversal exactly
    when the match test reports some rule (and is left untouched
    otherwise). *)
Theorem match_test_predicts_job (matchers : list MessageMatcher.t) (x : Message.t) :
  (forall cache gs v,
      Message.Status x = MessageStatusPending ->
      matchLoop matchers
        {| msg := x; messageCanIgnore := false; collectingGroups := cache; groupStore := gs |}
      = (None, v) ->
      (Message.Status (settle v) = MessageStatusCanceled
       <-> (BuildMessageMatchTest (inr matchers) x).1 = []))
  /\ (Message.Status x = MessageStatusCanceled ->
      (rematch matchers x = x <-> (BuildMessageMatchTest (inr matchers) x).1 = [])
      /\ (Message.Status (rematch matchers x) = MessageStatusExpired
          <-> (BuildMessageMatchTest (inr matchers) x).1 <> [])).
Proof.
  assert (Htest : (BuildMessageMatchTest (inr matchers) x).1 = []
                  <-> existsb (anyMatch x) matchers = false).
  { unfold BuildMessageMatchTest. rewrite matchTestLoop_spec. cbn [app fst].
    rewrite <- filter_nil_existsb. split; [|now intros ->].
    destruct (List.filter (anyMatch x) matchers); [reflexivity|discriminate]. }
  split.
  - intros cache gs v Hpending Hloop.
    pose proof (matchLoop_from_start x matchers false cache gs) as Hspec.
    rewrite Hloop in Hspec. destruct Hspec as [_ Hspec]. rewrite Htest.
    destruct (List.find (genuineMatch x) matchers) as [m|] eqn:Hfind.
    + destruct Hspec as [Hgrouped _].
      assert (Hsettle : settle v = msg v).
      { unfold settle. destruct (decide _) as [Hp|]; [congruence|reflexivity]. }
      rewrite Hsettle, Hgrouped. split; [discriminate|]. intros Hnone.
      apply existsb_anyMatch_false in Hnone as [Hgen _].
      rewrite (existsb_find (genuineMatch x)), Hfind in Hgen. discriminate.
    + destruct Hspec as (Hmsg & Hflag & _ & _). unfold settle. rewrite Hmsg, Hflag.
      destruct (decide (Message.Status x = MessageStatusPending)); [|contradiction].
      cbn [orb Message.Status Message.withStatus].
      assert (Hany : existsb (anyMatch x) matchers = existsb (softMatch x) matchers).
      { clear -Hfind. induction matchers as [|m rest IH]; cbn; [reflexivity|].
        cbn in Hfind. rewrite anyMatch_split.
        destruct (genuineMatch x m); [discriminate|]. cbn. now rewrite IH. }
      rewrite Hany. destruct (existsb (softMatch x) matchers); split; congruence.
  - intros Hcanceled. rewrite Htest, rematch_spec.
    destruct (existsb (anyMatch x) matchers); split.
    + split; [|discriminate].
      intros Heq. apply (f_equal Message.Status) in Heq. cbn in Heq. congruence.
    + split; [intros _; discriminate|reflexivity].
    + split; reflexivity.
    + split; [congruence|]. intros Hne. now destruct Hne.
Qed.

(** X8. A message no matcher genuinely matches never reaches the group
    collection: the callback hands the settled message (the same event,
    with the group ids it had) to [UpdateID] and leaves the groups and the
    map of collecting groups as they were. *)
Theorem no_genuine_match_leaves_groups (matchers : list MessageMatcher.t) (x : Message.t)
  (cache : gmap string MessageGroup.t) (w : World) :
  existsb (genuineMatch x) matchers = false ->
  exists final,
    groupingCallback matchers x (cache, w)
    = (let '(err, ms) := messageUpdateID (Message.ID x) final (messages w) in
       (err, (cache, {| messages := ms; groups := groups w; published := published w |})))
    /\ sameEvent x final
    /\ Message.GroupID final = Message.GroupID x.
Proof.
  intros Hnone. rewrite (existsb_find (genuineMatch x)) in Hnone.
  unfold groupingCallback. cbn [fst snd].
  pose proof (matchLoop_from_start x matchers false cache (groups w)) as Hspec.
  destruct (List.find (genuineMatch x) matchers) as [m|] eqn:Hfind; [discriminate|].
  destruct (matchLoop matchers _) as [[err|] v].
  { rewrite (existsb_find (genuineMatch x)), Hfind in Hspec. discriminate. }
  destruct Hspec as (_ & Hmsg & _ & Hcache & Hgs).
  exists (settle v). rewrite Hcache, Hgs.
  assert (Hsame : sameEvent x (settle v) /\ Message.GroupID (settle v) = Message.GroupID x).
  { unfold settle. rewrite Hmsg. destruct (decide _); cbn; unfold sameEvent; cbn; auto 10. }
  destruct Hsame as [Hsame Hids]. destruct Hsame as [Hid Hrest]. rewrite Hid.
  split; [reflexivity|]. unfold sameEvent. auto.
Qed.

End MatchTest.

Section LifeCycle.
Context {env : Environment}.

Lemma sameEvent_refl (a : Message.t) : sameEvent a a.
Proof. unfold sameEvent. auto 10. Qed.

Lemma sameEvent_trans (a b c : Message.t) : sameEvent a b -> sameEvent b c -> sameEvent a c.
Proof. unfold sameEvent. intuition congruence. Qed.

Lemma matchStep_sameEvent {repos : Repos} (m : MessageMatcher.t) (v : Visit) :
  sameEvent (msg v) (msg (matchStep m v).2).
Proof.
  unfold matchStep.
  destruct (MessageMatcher.Match m (msg v)) as [[matched ignored] [e|]];
    [apply sameEvent_refl|].
  destruct matched; [|apply sameEvent_refl]. destruct ignored; [apply sameEvent_refl|].
  destruct (collectingGroups v !! _); [unfold sameEvent; cbn; auto 10|].
  destruct (CollectingGroup _ _) as [[err|grp] gs]; [apply sameEvent_refl|].
  unfold sameEvent; cbn; auto 10.
Qed.

Lemma matchLoop_sameEvent {repos : Repos} (matchers : list MessageMatcher.t) (v : Visit) :
  sameEvent (msg v) (msg (matchLoop matchers v).2).
Proof.
  unfold matchLoop. revert v. induction matchers as [|m rest IH]; intros v; cbn [traverse].
  - apply sameEvent_refl.
  - pose proof (matchStep_sameEvent m v) as Hstep.
    destruct (matchStep m v) as [[e|] v1]; [exact Hstep|].
    eapply sameEvent_trans; [exact Hstep|apply IH].
Qed.

Lemma memCollectingGroup_appends (rule : GroupRule.t) (gs : list MessageGroup.t) :
  exists added, (memCollectingGroup rule gs).2 = gs ++ added.
Proof.
  unfold memCollectingGroup. destruct (List.find _ gs).
  - exists []. now rewrite app_nil_r.
  - eexists. reflexivity.
Qed.

Lemma matchStep_mem_appends (m : MessageMatcher.t) (v : Visit (repos := MemRepos)) :
  exists added, groupStore (matchStep (repos := MemRepos) m v).2 = groupStore v ++ added.
Proof.
  unfold matchStep.
  destruct (MessageMatcher.Match m (msg v)) as [[matched ignored] [e|]];
    [exists []; now rewrite app_nil_r|].
  destruct matched; [|exists []; now rewrite app_nil_r].
  destruct ignored; [exists []; now rewrite app_nil_r|].
  destruct (collectingGroups v !! _); [exists []; cbn; now rewrite app_nil_r|].
  cbn [CollectingGroup MemRepos].
  match goal with |- context [memCollectingGroup ?r ?g] =>
    destruct (memCollectingGroup_appends r g) as [added Hadd];
    destruct (memCollectingGroup r g) as [[err|grp] gs'] end;
    cbn in *; eauto.
Qed.

Lemma matchLoop_mem_appends (matchers : list MessageMatcher.t) (v : Visit (repos := MemRepos)) :
  exists added, groupStore (matchLoop (repos := MemRepos) matchers v).2 = groupStore v ++ added.
Proof.
  unfold matchLoop. revert v. induction matchers as [|m rest IH]; intros v; cbn [traverse].
  - exists []. now rewrite app_nil_r.
  - destruct (matchStep_mem_appends m v) as [added1 H1].
    destruct (matchStep m v) as [[e|] v1]; [eauto|].
    destruct (IH v1) as [added2 H2]. cbn in H1. rewrite H2, H1, <- app_assoc. eauto.
Qed.

Lemma groupingCallback_mem_settled (matchers : list MessageMatcher.t) (x : Message.t)
  (st : gmap string MessageGroup.t * World (repos := MemRepos)) :
  exists cache' final added,
    groupingCallback (repos := MemRepos) matchers x st
    = (None, (cache',
              memWorld (updateID Message.ID (Message.ID x) final (messages st.2))
                (groups st.2 ++ added) (published st.2)))
    /\ Message.ID final = Message.ID x
    /\ settled x final
    /\ (NoDup (map MessageGroup.ID (groups st.2)) ->
        NoDup (map MessageGroup.ID (groups st.2 ++ added))).
Proof.
  destruct (groupingCallback_mem matchers x st) as (c' & final & gs' & Hcb & Hid & Hst & Hnd).
  unfold groupingCallback in Hcb.
  pose proof (matchLoop_from_start (repos := MemRepos) x matchers false st.1 (groups st.2)) as Hspec.
  pose proof (matchLoop_sameEvent (repos := MemRepos) matchers
                {| msg := x; messageCanIgnore := false; collectingGroups := st.1;
                   groupStore := groups st.2 |}) as Hsame.
  destruct (matchLoop_mem_appends matchers
                {| msg := x; messageCanIgnore := false; collectingGroups := st.1;
                   groupStore := groups st.2 |}) as [added Hadd].
  unfold groupingCallback.
  destruct (matchLoop matchers _) as [[err|] v]; [discriminate Hcb|].
  cbn [snd msg groupStore] in Hsame, Hadd. cbn in Hcb.
  injection Hcb as Hc Hfinal Hgs.
  exists (collectingGroups v), (settle v), added. cbn.
  destruct (settle_spec v) as [Hsid Hstatus].
  assert (Hv : Message.ID (msg v) = Message.ID x) by apply Hsame.
  rewrite Hsid, Hv, Hadd. split; [reflexivity|]. split; [reflexivity|].
  split; [|rewrite <- Hadd, Hgs; exact Hnd].
  intros Hpending. destruct Hspec as [_ Hspec].
  destruct (List.find (genuineMatch x) matchers) as [m|].
  - destruct Hspec as (Hgrouped & grp & more & _ & Hids).
    assert (Hsettle : settle v = msg v).
    { unfold settle. destruct (decide _) as [Hp|]; [congruence|reflexivity]. }
    rewrite Hsettle. split; [exact Hsame|]. split; [congruence|].
    exists (MessageGroup.ID grp :: more). split; [exact Hids|]. split; [auto|discriminate].
  - destruct Hspec as (Hmsg & _ & _ & _). unfold settle. rewrite Hmsg.
    destruct (decide (Message.Status x = MessageStatusPending)); [|contradiction].
    split; [unfold sameEvent; cbn; auto 10|].
    split; [cbn; destruct (messageCanIgnore v); discriminate|].
    exists []. cbn. rewrite app_nil_r. split; [reflexivity|].
    split; [intros Hne; now destruct Hne|].
    destruct (messageCanIgnore v); discriminate.
Qed.


Lemma grouping_pass_settled (matchers : list MessageMatcher.t) (w : World (repos := MemRepos)) :
  uniqueIDs w ->
  exists cache ms1 added,
    traverse (groupingCallback (repos := MemRepos) matchers)
      (List.filter (messageSelected (MessageByStatus MessageStatusPending)) (messages w))
      (∅, w)
    = (None, (cache, memWorld ms1 (groups w ++ added) (published w)))
    /\ Forall2 (fun a a' => Message.ID a' = Message.ID a
                            /\ if messageSelected (MessageByStatus MessageStatusPending) a
                               then settled a a' else a' = a)
         (messages w) ms1
    /\ NoDup (map MessageGroup.ID (groups w ++ added)).
Proof.
  intros [Hmsgs Hgrps].
  destruct (traverse_store Message.ID
              (fun s : gmap string MessageGroup.t * World (repos := MemRepos) => messages s.2)
              (groupingCallback (repos := MemRepos) matchers)
              (fun s => (exists added, groups s.2 = groups w ++ added)
                        /\ NoDup (map MessageGroup.ID (groups s.2))
                        /\ published s.2 = published w)
              settled) with
    (P := messageSelected (MessageByStatus MessageStatusPending))
    (docs := messages w) (pre := @nil Message.t)
    (s := ((∅ : gmap string MessageGroup.t), w))
    as (s' & docs' & Htrav & ([added Hadd] & Hnd & Hbus) & Hstore & Hrel); auto.
  { intros x s ([added0 Hadd0] & Hnd & Hbus).
    destruct (groupingCallback_mem_settled matchers x s)
      as (c' & final & added & Hcb & Hid & Hsettled & Hnd').
    eexists. split; [exact Hcb|]. cbn. split.
    - split; [|auto]. exists (added0 ++ added). now rewrite Hadd0, <- app_assoc.
    - right. exists final. auto. }
  { split; [exists []; now rewrite app_nil_r|auto]. }
  destruct s' as [cache [ms1 gs1 bus1]]. cbn in *. subst.
  exists cache, docs', added. split; [exact Htrav|]. split; [exact Hrel|exact Hnd].
Qed.

Lemma rematched_evolves (matchers : list MessageMatcher.t) (a a1 : Message.t) :
  (if messageSelected (MessageByStatus MessageStatusPending) a then settled a a1 else a1 = a) ->
  evolves a (rematched matchers a1).
Proof.
  cbn [messageSelected]. unfold rematched. rewrite rematch_spec.
  destruct (bool_decide_reflect (Message.Status a = MessageStatusPending)) as [Hp|Hp].
  - intros Hsettled. destruct (Hsettled Hp) as (Hsame & Hnp & more & Hids & Hmore).
    destruct (bool_decide_reflect (Message.Status a1 = MessageStatusCanceled)) as [Hc|Hc].
    + assert (Hnil : more = []).
      { destruct more as [|g more]; [reflexivity|].
        assert (Hg : Message.Status a1 = MessageStatusGrouped) by (apply Hmore; discriminate).
        congruence. }
      subst more. rewrite app_nil_r in Hids.
      destruct (existsb (anyMatch a1) matchers); unfold evolves; rewrite Hp; cbn.
      * split; [exact Hsame|]. split; [reflexivity|]. split; [|contradiction].
        exists []. rewrite app_nil_r. split; [exact Hids|].
        split; [intros Hne; now destruct Hne|]. intros [_ Hg]. discriminate.
      * split; [exact Hsame|]. rewrite Hc. split; [reflexivity|]. split; [|contradiction].
        exists []. rewrite app_nil_r. split; [exact Hids|].
        split; [intros Hne; now destruct Hne|]. intros [_ Hg]. congruence.
    + unfold evolves. split; [exact Hsame|]. rewrite Hp. split.
      { destruct (Message.Status a1); try reflexivity; contradiction. }
      split; [|contradiction]. exists more. split; [exact Hids|].
      rewrite Hmore. tauto.
  - intros ->.
    destruct (bool_decide_reflect (Message.Status a = MessageStatusCanceled)) as [Hc|Hc].
    + destruct (existsb (anyMatch a) matchers); unfold evolves; rewrite Hc; cbn.
      * split; [unfold sameEvent; cbn; auto 10|]. split; [reflexivity|].
        split; [|intros _ Hne; now destruct Hne].
        exists []. rewrite app_nil_r. split; [reflexivity|].
        split; [intros Hne; now destruct Hne|]. intros [Hpend _]. discriminate.
      * split; [apply sameEvent_refl|]. split; [reflexivity|].
        split; [|reflexivity].
        exists []. rewrite app_nil_r. split; [reflexivity|].
        split; [intros Hne; now destruct Hne|]. intros [Hpend _]. congruence.
    + unfold evolves. split; [apply sameEvent_refl|]. split.
      { destruct (Message.Status a); try reflexivity; contradiction. }
      split; [|reflexivity]. exists []. rewrite app_nil_r. split; [reflexivity|].
      split; [intros Hne; now destruct Hne|]. intros [Hpend _]. contradiction.
Qed.

(** X9. One run of the job on the in-memory store only moves documents
    forward: every stored message stays in place as the same event, with a
    status further along its life cycle and group ids that grew only if it
    went from pending to grouped (grouped, ignored and expired messages are
    left as they were); no group is removed, new groups are appended, and
    every group is what [pendingMessageGroup] makes of it. *)
Theorem Handle_evolves (matchers : list MessageMatcher.t) (now : Z)
  (w0 : World (repos := MemRepos)) :
  uniqueIDs w0 ->
  exists w1 added,
    Handle (repos := MemRepos) NewAggregationJob (inr matchers) now w0 = (Ran None None, w1)
    /\ Forall2 evolves (messages w0) (messages w1)
    /\ groups w1 = map (advanced now (messages w1)) (groups w0 ++ added).
Proof.
  intros Hunique.
  destruct (grouping_pass_settled matchers w0 Hunique)
    as (cache & ms1 & added & Hpass & Hrel & Hnd).
  assert (Hids : map Message.ID ms1 = map Message.ID (messages w0)).
  { eapply Forall2_same_keys, Hrel. }
  eexists _, added. split.
  - unfold Handle. cbn [executing NewAggregationJob].
    unfold groupingMessages. cbn [messageFind MemRepos]. rewrite Hpass. cbn [snd].
    rewrite (rematch_pass matchers (memWorld ms1 (groups w0 ++ added) (published w0))).
    2:{ cbn. rewrite Hids. apply Hunique. }
    rewrite pending_pass by exact Hnd. reflexivity.
  - cbn [messages groups memWorld]. split; [|reflexivity].
    clear -Hrel. induction Hrel as [|a a1 l l1 [_ Ha] _ IH]; cbn [map]; constructor.
    + now apply rematched_evolves.
    + exact IH.
Qed.

End LifeCycle.

Lemma Handle_evolves_witness :
  exists w1 added,
    Handle (env := ToyEnvironment) (repos := MemRepos) NewAggregationJob (inr toyMatchers) 100 toyWorld
    = (Ran None None, w1)
    /\ Forall2 evolves (messages toyWorld) (messages w1)
    /\ groups w1 = map (advanced 100 (messages w1)) (groups toyWorld ++ added).
Proof.
  apply (Handle_evolves (env := ToyEnvironment) toyMatchers 100 toyWorld).
  split; cbn; compute_done.
Defined.


Section StoreTraversalExt.
Context {A S : Type} (key : A -> ObjectID) (store : S -> list A)
  (cb : A -> S -> option error * S) (Inv : S -> Prop) (Ext : S -> S -> Prop)
  (R : S -> A -> A -> Prop).

Hypothesis Ext_refl : forall s, Ext s s.
Hypothesis Ext_trans : forall s1 s2 s3, Ext s1 s2 -> Ext s2 s3 -> Ext s1 s3.
Hypothesis R_mono : forall s s' a a', Ext s s' -> R s a a' -> R s' a a'.
Hypothesis cb_spec : forall x s, Inv s ->
  exists s' x', cb x s = (None, s') /\ Inv s' /\ Ext s s'
    /\ key x' = key x /\ R s' x x'
    /\ store s' = updateID key (key x) x' (store s).

Lemma traverse_store_ext (P : A -> bool) (docs pre : list A) (s : S) :
  Inv s -> store s = pre ++ docs -> NoDup (map key (pre ++ docs)) ->
  exists s' docs',
    traverse cb (List.filter P docs) s = (None, s') /\ Inv s' /\ Ext s s'
    /\ store s' = pre ++ docs'
    /\ Forall2 (fun a a' => key a' = key a /\ if P a then R s' a a' else a' = a) docs docs'.
Proof.
  revert pre s. induction docs as [|d docs IH]; intros pre s Hinv Hstore Hnodup.
  { exists s, []. cbn. repeat split; auto. }
  assert (Hfree : key d ∉ map key pre).
  { rewrite map_app in Hnodup. apply NoDup_app in Hnodup as (_ & Hdisj & _).
    intros Hin. apply (Hdisj _ Hin). cbn. left. }
  assert (Hnext : forall d', key d' = key d ->
                             NoDup (map key ((pre ++ [d']) ++ docs))).
  { intros d' Hkey. rewrite <- app_assoc. cbn [app].
    rewrite map_app in *. cbn [map] in *. now rewrite Hkey. }
  cbn [List.filter]. destruct (P d) eqn:HP.
  - cbn [traverse].
    destruct (cb_spec d s Hinv) as (s1 & d' & Hcb & Hinv1 & Hext1 & Hkey & HR & Hupd).
    rewrite Hcb.
    assert (Hstore1 : store s1 = (pre ++ [d']) ++ docs).
    { rewrite Hupd, Hstore, (updateID_middle key) by exact Hfree. now rewrite <- app_assoc. }
    destruct (IH (pre ++ [d']) s1 Hinv1 Hstore1 (Hnext d' Hkey))
      as (s' & docs' & Htrav & Hinv' & Hext' & Hstore' & Hrel).
    exists s', (d' :: docs'). repeat split; eauto.
    + rewrite Hstore', <- app_assoc. reflexivity.
    + constructor; [|exact Hrel]. rewrite HP. eauto.
  - assert (Hstore1 : store s = (pre ++ [d]) ++ docs)
      by (rewrite Hstore, <- app_assoc; reflexivity).
    destruct (IH (pre ++ [d]) s Hinv Hstore1 (Hnext d eq_refl))
      as (s' & docs' & Htrav & Hinv' & Hext' & Hstore' & Hrel).
    exists s', (d :: docs'). repeat split; auto.
    + rewrite Hstore', <- app_assoc. reflexivity.
    + constructor; [|exact Hrel]. rewrite HP. auto.
Qed.

End StoreTraversalExt.

Section Routing.
Context {env : Environment}.

(** The loop never drops or replaces an entry of the map. *)
Lemma matchStep_cache_mono {repos : Repos} (m : MessageMatcher.t) (v : Visit) k g :
  collectingGroups v !! k = Some g -> collectingGroups (matchStep m v).2 !! k = Some g.
Proof.
  intros Hk. unfold matchStep.
  destruct (MessageMatcher.Match m (msg v)) as [[matched ignored] [e|]]; [exact Hk|].
  destruct matched; [|exact Hk]. destruct ignored; [exact Hk|].
  destruct (collectingGroups v !! groupKey _ _ _) eqn:Hcache; [exact Hk|].
  destruct (CollectingGroup _ _) as [[err|grp] gs]; [exact Hk|].
  cbn. rewrite lookup_insert_ne; [exact Hk|]. congruence.
Qed.

Lemma matchLoop_cache_mono {repos : Repos} (matchers : list MessageMatcher.t) (v : Visit) k g :
  collectingGroups v !! k = Some g -> collectingGroups (matchLoop matchers v).2 !! k = Some g.
Proof.
  unfold matchLoop. revert v. induction matchers as [|m rest IH]; intros v Hk; cbn [traverse].
  - exact Hk.
  - pose proof (matchStep_cache_mono m v k g Hk) as Hstep.
    destruct (matchStep m v) as [[e|] v1]; [exact Hstep|]. now apply IH.
Qed.

Lemma matchLoop_routes {repos : Repos} (x : Message.t) (matchers : list MessageMatcher.t)
  (flag : bool) (cache : gmap string MessageGroup.t) (gs : GroupStore) (v : Visit) :
  matchLoop matchers
    {| msg := x; messageCanIgnore := flag; collectingGroups := cache; groupStore := gs |}
  = (None, v) ->
  forall k, firstKey matchers x = Some k ->
  exists grp more,
    collectingGroups v !! k = Some grp
    /\ Message.GroupID (msg v) = Message.GroupID x ++ MessageGroup.ID grp :: more.
Proof.
  unfold matchLoop, firstKey. revert flag.
  induction matchers as [|m rest IH]; intros flag; cbn [traverse List.find].
  { intros _ k [=]. }
  unfold matchStep at 1. unfold genuineMatch at 1.
  cbn [msg messageCanIgnore collectingGroups groupStore].
  destruct (MessageMatcher.Match m x) as [[matched ignored] [e|]].
  { destruct matched, ignored; apply IH. }
  destruct matched; [|destruct ignored; apply IH].
  destruct ignored; [apply IH|].
  set (aggregateKey := BuildMessageFinger _ _). set (key := groupKey _ _ _).
  destruct (cache !! key) as [grp|] eqn:Hcache.
  - match goal with |- context [traverse matchStep rest ?v1] => set (start := v1) end.
    intros Hrest k [= <-].
    destruct (matchLoop_grouped rest start v eq_refl Hrest) as (_ & _ & [more Hg] & Hmono).
    exists grp, more. split; [apply Hmono; exact Hcache|].
    rewrite Hg. cbn. now rewrite <- app_assoc.
  - destruct (CollectingGroup _ gs) as [[err|grp] gs'] eqn:Hstore; [discriminate|].
    match goal with |- context [traverse matchStep rest ?v1] => set (start := v1) end.
    intros Hrest k [= <-].
    destruct (matchLoop_grouped rest start v eq_refl Hrest) as (_ & _ & [more Hg] & Hmono).
    exists grp, more. split; [apply Hmono; cbn; apply lookup_insert_eq|].
    rewrite Hg. cbn. now rewrite <- app_assoc.
Qed.


Lemma memCollectingGroup_member (rule : GroupRule.t) (gs gs' : list MessageGroup.t)
  (grp : MessageGroup.t) :
  memCollectingGroup rule gs = (inr grp, gs') ->
  grp ∈ gs' /\ exists added, gs' = gs ++ added.
Proof.
  unfold memCollectingGroup. destruct (List.find _ gs) as [g|] eqn:Hfind.
  - intros [= <- <-]. apply find_some in Hfind as [Hin _].
    split; [now apply list_elem_of_In|]. exists []. now rewrite app_nil_r.
  - intros [= <- <-]. split; [|eauto]. apply elem_of_app. right. left.
Qed.

Lemma ids_grow (gs added : list MessageGroup.t) (id : ObjectID) :
  id ∈ map MessageGroup.ID gs -> id ∈ map MessageGroup.ID (gs ++ added).
Proof. intros Hin. rewrite map_app. apply elem_of_app. now left. Qed.

Lemma matchStep_mem_refs (m : MessageMatcher.t) (v : Visit (repos := MemRepos)) :
  cacheStored (collectingGroups v) (groupStore v) ->
  cacheStored (collectingGroups (matchStep (repos := MemRepos) m v).2)
    (groupStore (matchStep (repos := MemRepos) m v).2)
  /\ (idsStored (Message.GroupID (msg v)) (groupStore v) ->
      idsStored (Message.GroupID (msg (matchStep (repos := MemRepos) m v).2))
        (groupStore (matchStep (repos := MemRepos) m v).2)).
Proof.
  intros Hcache. unfold matchStep.
  destruct (MessageMatcher.Match m (msg v)) as [[matched ignored] [e|]]; [auto|].
  destruct matched; [|auto]. destruct ignored; [auto|].
  set (aggregateKey := BuildMessageFinger _ _). set (key := groupKey _ _ _).
  destruct (collectingGroups v !! key) as [grp|] eqn:Hhit.
  - cbn. split; [exact Hcache|]. intros Hids gid Hin.
    apply elem_of_app in Hin as [Hin|Hin]; [now apply Hids|].
    apply list_elem_of_singleton in Hin. subst gid. eapply Hcache, Hhit.
  - cbn [CollectingGroup MemRepos].
    destruct (memCollectingGroup _ (groupStore v)) as [[err|grp] gs'] eqn:Hstore.
    { cbn. destruct (memCollectingGroup_spec
               (ToGroupRule (MessageMatcher.Rule m) aggregateKey (Message.Type_ (msg v)))
               (groupStore v)) as (g0 & gs0 & Heq & _). congruence. }
    destruct (memCollectingGroup_member _ _ _ _ Hstore) as [Hmember [added ->]].
    cbn. split.
    + intros k g Hk. destruct (decide (key = k)) as [<-|Hne].
      * rewrite lookup_insert_eq in Hk. injection Hk as <-.
        apply list_elem_of_In, in_map, list_elem_of_In, Hmember.
      * rewrite lookup_insert_ne in Hk by exact Hne. apply ids_grow. eapply Hcache, Hk.
    + intros Hids gid Hin. apply elem_of_app in Hin as [Hin|Hin].
      * apply ids_grow. now apply Hids.
      * apply list_elem_of_singleton in Hin. subst gid.
        apply list_elem_of_In, in_map, list_elem_of_In, Hmember.
Qed.

Lemma matchLoop_mem_refs (matchers : list MessageMatcher.t) (v : Visit (repos := MemRepos)) :
  cacheStored (collectingGroups v) (groupStore v) ->
  cacheStored (collectingGroups (matchLoop (repos := MemRepos) matchers v).2)
    (groupStore (matchLoop (repos := MemRepos) matchers v).2)
  /\ (idsStored (Message.GroupID (msg v)) (groupStore v) ->
      idsStored (Message.GroupID (msg (matchLoop (repos := MemRepos) matchers v).2))
        (groupStore (matchLoop (repos := MemRepos) matchers v).2)).
Proof.
  unfold matchLoop. revert v. induction matchers as [|m rest IH]; intros v Hcache; cbn [traverse].
  - auto.
  - destruct (matchStep_mem_refs m v Hcache) as [Hc1 Hi1].
    destruct (matchStep_mem m v) as (v1 & Hstep & _). rewrite Hstep in *. cbn [snd] in *.
    destruct (IH v1 Hc1) as [Hc Hi]. auto.
Qed.

Lemma settle_GroupID {repos : Repos} (v : Visit) :
  Message.GroupID (settle v) = Message.GroupID (msg v).
Proof. unfold settle. now destruct (decide _). Qed.

Lemma groupingCallback_mem_routes (matchers : list MessageMatcher.t) (x : Message.t)
  (st : gmap string MessageGroup.t * World (repos := MemRepos)) :
  cacheStored st.1 (groups st.2) ->
  exists cache' final added,
    groupingCallback (repos := MemRepos) matchers x st
    = (None, (cache',
              memWorld (updateID Message.ID (Message.ID x) final (messages st.2))
                (groups st.2 ++ added) (published st.2)))
    /\ Message.ID final = Message.ID x
    /\ (forall k g, st.1 !! k = Some g -> cache' !! k = Some g)
    /\ routed matchers cache' x final
    /\ cacheStored cache' (groups st.2 ++ added)
    /\ (idsStored (Message.GroupID x) (groups st.2) ->
        idsStored (Message.GroupID final) (groups st.2 ++ added))
    /\ (NoDup (map MessageGroup.ID (groups st.2)) ->
        NoDup (map MessageGroup.ID (groups st.2 ++ added))).
Proof.
  intros Hcache.
  set (start := {| msg := x; messageCanIgnore := false; collectingGroups := st.1;
                   groupStore := groups st.2 |} : Visit (repos := MemRepos)).
  destruct (matchLoop_mem matchers start) as (v & Hloop & Hid & Hnd).
  destruct (matchLoop_mem_appends matchers start) as [added Hadd].
  destruct (matchLoop_mem_refs matchers start Hcache) as [Hc Hi].
  pose proof (fun k g => matchLoop_cache_mono (repos := MemRepos) matchers start k g) as Hmono.
  pose proof (matchLoop_routes (repos := MemRepos) x matchers false st.1 (groups st.2) v Hloop)
    as Hroutes.
  rewrite Hloop in Hadd, Hc, Hi, Hmono. cbn [snd start msg groupStore collectingGroups] in *.
  unfold groupingCallback. fold start. rewrite Hloop.
  destruct (settle_spec v) as [Hsid _].
  exists (collectingGroups v), (settle v), added. cbn.
  rewrite Hsid, Hid, <- Hadd. repeat split; auto.
  - intros _ k Hk. rewrite settle_GroupID. now apply Hroutes.
  - rewrite settle_GroupID. exact Hi.
Qed.

Lemma grouping_pass_routes (matchers : list MessageMatcher.t) (w : World (repos := MemRepos)) :
  uniqueIDs w ->
  exists cache ms1 added,
    traverse (groupingCallback (repos := MemRepos) matchers)
      (List.filter (messageSelected (MessageByStatus MessageStatusPending)) (messages w))
      (∅, w)
    = (None, (cache, memWorld ms1 (groups w ++ added) (published w)))
    /\ Forall2 (fun a a' =>
                  Message.ID a' = Message.ID a
                  /\ if messageSelected (MessageByStatus MessageStatusPending) a
                     then routed matchers cache a a'
                          /\ (idsStored (Message.GroupID a) (groups w) ->
                              idsStored (Message.GroupID a') (groups w ++ added))
                     else a' = a)
         (messages w) ms1
    /\ NoDup (map MessageGroup.ID (groups w ++ added)).
Proof.
  intros [Hmsgs Hgrps].
  destruct (traverse_store_ext Message.ID
              (fun s : gmap string MessageGroup.t * World (repos := MemRepos) => messages s.2)
              (groupingCallback (repos := MemRepos) matchers)
              (fun s => cacheStored s.1 (groups s.2)
                        /\ (exists added, groups s.2 = groups w ++ added)
                        /\ NoDup (map MessageGroup.ID (groups s.2))
                        /\ published s.2 = published w)
              (fun s s' => (forall k g, s.1 !! k = Some g -> s'.1 !! k = Some g)
                           /\ exists added, groups s'.2 = groups s.2 ++ added)
              (fun s a a' => routed matchers s.1 a a'
                             /\ (idsStored (Message.GroupID a) (groups w) ->
                                 idsStored (Message.GroupID a') (groups s.2)))) with
    (P := messageSelected (MessageByStatus MessageStatusPending))
    (docs := messages w) (pre := @nil Message.t)
    (s := ((∅ : gmap string MessageGroup.t), w))
    as (s' & docs' & Htrav & (Hc & [added Hadd] & Hnd & Hbus) & _ & Hstore & Hrel); auto.
  - intros s. split; [auto|]. exists []. now rewrite app_nil_r.
  - intros s1 s2 s3 [Hm1 [a1 Ha1]] [Hm2 [a2 Ha2]]. split; [auto|].
    exists (a1 ++ a2). now rewrite Ha2, Ha1, <- app_assoc.
  - intros s s2 a a' [Hm [added Hadd]] [Hrouted Hids]. split.
    + intros Hp k Hk. destruct (Hrouted Hp k Hk) as (grp & more & Hg & Heq). eauto.
    + intros Ha gid Hin. rewrite Hadd. apply ids_grow. now apply Hids.
  - intros x s (Hc & [added0 Hadd0] & Hnd & Hbus).
    destruct (groupingCallback_mem_routes matchers x s Hc)
      as (c' & final & added & Hcb & Hid & Hmono & Hrouted & Hc' & Hids & Hnd').
    eexists _, final. split; [exact Hcb|]. cbn. repeat split; eauto.
    + exists (added0 ++ added). now rewrite Hadd0, <- app_assoc.
    + intros Ha. apply Hids. intros gid Hin. rewrite Hadd0. apply ids_grow. now apply Ha.
  - repeat split; auto.
    + intros k g Hk. cbn in Hk. now rewrite lookup_empty in Hk.
    + exists []. now rewrite app_nil_r.
  - destruct s' as [cache [ms1 gs1 bus1]]. cbn in *. subst.
    exists cache, docs', added. split; [exact Htrav|]. split; [exact Hrel|exact Hnd].
Qed.

End Routing.

Section RoutingFacts.
Context {env : Environment}.

Lemma rematched_GroupID (matchers : list MessageMatcher.t) (m : Message.t) :
  Message.GroupID (rematched matchers m) = Message.GroupID m.
Proof.
  unfold rematched. rewrite rematch_spec.
  destruct (bool_decide _); [|reflexivity]. now destruct (existsb _ _).
Qed.

Lemma Handle_after_grouping (matchers : list MessageMatcher.t) (now : Z)
  (w : World (repos := MemRepos)) cache ms1 gs1 :
  traverse (groupingCallback (repos := MemRepos) matchers)
    (List.filter (messageSelected (MessageByStatus MessageStatusPending)) (messages w))
    (∅, w)
  = (None, (cache, memWorld ms1 gs1 (published w))) ->
  NoDup (map Message.ID ms1) ->
  NoDup (map MessageGroup.ID gs1) ->
  groupingMessages (repos := MemRepos) (inr matchers) w
  = (None, memWorld (map (rematched matchers) ms1) gs1 (published w))
  /\ Handle (repos := MemRepos) NewAggregationJob (inr matchers) now w
     = (Ran None None,
        memWorld (map (rematched matchers) ms1)
          (map (advanced now (map (rematched matchers) ms1)) gs1)
          (published w
           ++ map (fun g => {| Group := advanced now (map (rematched matchers) ms1) g;
                               CreatedAt := now |})
                (readyCollecting now gs1))).
Proof.
  intros Hpass Hms Hgs.
  assert (Hgrouping : groupingMessages (repos := MemRepos) (inr matchers) w
                      = (None, memWorld (map (rematched matchers) ms1) gs1 (published w))).
  { unfold groupingMessages. cbn [messageFind MemRepos]. rewrite Hpass. cbn [snd].
    now rewrite (rematch_pass matchers (memWorld ms1 gs1 (published w))). }
  split; [exact Hgrouping|].
  unfold Handle. cbn [executing NewAggregationJob]. rewrite Hgrouping.
  now rewrite pending_pass.
Qed.

(** X10. Within one run, two pending messages whose first genuinely
    matching rule gives the same group key are put into the same group: the
    first group id appended to each is the same. *)
Theorem same_key_same_group (matchers : list MessageMatcher.t)
  (w : World (repos := MemRepos)) :
  uniqueIDs w ->
  exists w1,
    groupingMessages (repos := MemRepos) (inr matchers) w = (None, w1)
    /\ forall i j a b a' b' k,
        (messages w : list Message.t) !! i = Some a ->
        (messages w : list Message.t) !! j = Some b ->
        (messages w1 : list Message.t) !! i = Some a' ->
        (messages w1 : list Message.t) !! j = Some b' ->
        Message.Status a = MessageStatusPending ->
        Message.Status b = MessageStatusPending ->
        firstKey matchers a = Some k ->
        firstKey matchers b = Some k ->
        exists gid moreA moreB,
          Message.GroupID a' = Message.GroupID a ++ gid :: moreA
          /\ Message.GroupID b' = Message.GroupID b ++ gid :: moreB.
Proof.
  intros Hunique.
  destruct (grouping_pass_routes matchers w Hunique) as (cache & ms1 & added & Hpass & Hrel & Hnd).
  assert (Hids : map Message.ID ms1 = map Message.ID (messages w)).
  { eapply Forall2_same_keys, Hrel. }
  destruct (Handle_after_grouping matchers 0 w cache ms1 (groups w ++ added) Hpass)
    as [Hgrouping _]; [rewrite Hids; apply Hunique|exact Hnd|].
  eexists. split; [exact Hgrouping|].
  cbn [messages memWorld].
  assert (Hrouted : forall i a a1 k,
             (messages w : list Message.t) !! i = Some a ->
             map (rematched matchers) ms1 !! i = Some a1 ->
             Message.Status a = MessageStatusPending ->
             firstKey matchers a = Some k ->
             exists grp more, cache !! k = Some grp
                              /\ Message.GroupID a1 = Message.GroupID a ++ MessageGroup.ID grp :: more).
  { intros i a a1 k Ha Ha1 Hp Hk.
    change (map (rematched matchers) ms1) with (rematched matchers <$> ms1) in Ha1.
    rewrite list_lookup_fmap in Ha1.
    destruct (ms1 !! i) as [a0|] eqn:Ha0; [|discriminate]. injection Ha1 as <-.
    destruct (Forall2_lookup_lr _ _ _ _ _ _ Hrel Ha Ha0) as [_ Hrouted].
    cbn [messageSelected] in Hrouted.
    rewrite bool_decide_eq_true_2 in Hrouted by exact Hp.
    destruct Hrouted as [Hrouted _]. rewrite rematched_GroupID. now apply Hrouted. }
  intros i j a b a' b' k Ha Hb Ha' Hb' Hpa Hpb Hka Hkb.
  destruct (Hrouted i a a' k Ha Ha' Hpa Hka) as (grp & moreA & Hg & HA).
  destruct (Hrouted j b b' k Hb Hb' Hpb Hkb) as (grp' & moreB & Hg' & HB).
  assert (grp' = grp) by congruence. subst grp'.
  exists (MessageGroup.ID grp), moreA, moreB. auto.
Qed.

Lemma Forall2_ids_stored (matchers : list MessageMatcher.t)
  (cache : gmap string MessageGroup.t) (gs added : list MessageGroup.t)
  (l l1 : list Message.t) :
  Forall2 (fun a a' =>
             Message.ID a' = Message.ID a
             /\ if messageSelected (MessageByStatus MessageStatusPending) a
                then routed matchers cache a a'
                     /\ (idsStored (Message.GroupID a) gs ->
                         idsStored (Message.GroupID a') (gs ++ added))
                else a' = a) l l1 ->
  Forall (fun a => idsStored (Message.GroupID a) gs) l ->
  Forall (fun a1 => idsStored (Message.GroupID a1) (gs ++ added)) l1.
Proof.
  induction 1 as [|a a1 l l1 [_ Ha] _ IH]; intros Hpre; [constructor|].
  inversion Hpre as [|? ? Hhead Htail]; subst. constructor; [|apply IH, Htail].
  destruct (messageSelected _ a).
  - apply Ha, Hhead.
  - subst a1. intros gid Hin. apply ids_grow, Hhead, Hin.
Qed.

(** X11. Referential integrity is kept by a run of the job: if every
    group id carried by a stored message is the id of a stored group before
    the run, the same holds after it. *)
Theorem references_stay_valid (matchers : list MessageMatcher.t) (now : Z)
  (w0 : World (repos := MemRepos)) :
  uniqueIDs w0 ->
  referencesExist (messages w0) (groups w0) ->
  exists w1,
    Handle (repos := MemRepos) NewAggregationJob (inr matchers) now w0 = (Ran None None, w1)
    /\ referencesExist (messages w1) (groups w1).
Proof.
  intros Hunique Hrefs.
  destruct (grouping_pass_routes matchers w0 Hunique) as (cache & ms1 & added & Hpass & Hrel & Hnd).
  assert (Hids : map Message.ID ms1 = map Message.ID (messages w0)).
  { eapply Forall2_same_keys, Hrel. }
  destruct (Handle_after_grouping matchers now w0 cache ms1 (groups w0 ++ added) Hpass)
    as [_ Hrun]; [rewrite Hids; apply Hunique|exact Hnd|].
  eexists. split; [exact Hrun|]. cbn [messages groups memWorld].
  assert (Hpre : Forall (fun a => idsStored (Message.GroupID a) (groups w0)) (messages w0)).
  { apply Forall_forall. intros a Hin gid Hg. eapply Hrefs; eauto. }
  pose proof (Forall2_ids_stored matchers cache (groups w0) added _ _ Hrel Hpre) as Hall.
  intros a' gid Hin Hg.
  apply list_elem_of_In, in_map_iff in Hin as (a1 & <- & Hin1).
  rewrite rematched_GroupID in Hg.
  rewrite Forall_forall in Hall. apply list_elem_of_In in Hin1.
  specialize (Hall a1 Hin1 gid Hg).
  rewrite map_map.
  now rewrite (map_ext _ MessageGroup.ID
                 (fun g => advanced_ID now (map (rematched matchers) ms1) g)).
Qed.

End RoutingFacts.

Lemma match_test_predicts_job_witness :
  (rematch toyMatchers (Message.withStatus noisyLogstash MessageStatusCanceled)
   = Message.withStatus noisyLogstash MessageStatusCanceled
   <-> (BuildMessageMatchTest (env := ToyEnvironment) (inr toyMatchers)
          (Message.withStatus noisyLogstash MessageStatusCanceled)).1 = [])
  /\ (Message.Status (rematch toyMatchers (Message.withStatus noisyLogstash MessageStatusCanceled))
      = MessageStatusExpired
      <-> (BuildMessageMatchTest (env := ToyEnvironment) (inr toyMatchers)
             (Message.withStatus noisyLogstash MessageStatusCanceled)).1 <> []).
Proof.
  apply (proj2 (match_test_predicts_job (env := ToyEnvironment) (repos := MemRepos) toyMatchers
                  (Message.withStatus noisyLogstash MessageStatusCanceled))).
  reflexivity.
Defined.

Lemma no_genuine_match_leaves_groups_witness :
  exists final,
    groupingCallback (env := ToyEnvironment) (repos := MemRepos) toyMatchers
      (pendingMessage 12%N "grafana" ["noise"]) (∅, toyWorld)
    = (let '(err, ms) := messageUpdateID (Repos := MemRepos)
                           (Message.ID (pendingMessage 12%N "grafana" ["noise"])) final
                           (messages toyWorld) in
       (err, (∅, {| messages := ms; groups := groups toyWorld;
                     published := published toyWorld |})))
    /\ sameEvent (pendingMessage 12%N "grafana" ["noise"]) final
    /\ Message.GroupID final = Message.GroupID (pendingMessage 12%N "grafana" ["noise"]).
Proof.
  apply (no_genuine_match_leaves_groups (env := ToyEnvironment) (repos := MemRepos) toyMatchers
           (pendingMessage 12%N "grafana" ["noise"]) ∅ toyWorld).
  reflexivity.
Defined.

Lemma same_key_same_group_witness :
  exists w1,
    groupingMessages (env := ToyEnvironment) (repos := MemRepos) (inr toyMatchers) toyWorld
    = (None, w1)
    /\ forall i j a b a' b' k,
        (messages toyWorld : list Message.t) !! i = Some a ->
        (messages toyWorld : list Message.t) !! j = Some b ->
        (messages w1 : list Message.t) !! i = Some a' ->
        (messages w1 : list Message.t) !! j = Some b' ->
        Message.Status a = MessageStatusPending ->
        Message.Status b = MessageStatusPending ->
        firstKey (env := ToyEnvironment) toyMatchers a = Some k ->
        firstKey (env := ToyEnvironment) toyMatchers b = Some k ->
        exists gid moreA moreB,
          Message.GroupID a' = Message.GroupID a ++ gid :: moreA
          /\ Message.GroupID b' = Message.GroupID b ++ gid :: moreB.
Proof.
  apply (same_key_same_group (env := ToyEnvironment) toyMatchers toyWorld).
  split; cbn; compute_done.
Defined.

Lemma references_stay_valid_witness :
  exists w1,
    Handle (env := ToyEnvironment) (repos := MemRepos) NewAggregationJob (inr toyMatchers) 100
      toyWorld = (Ran None None, w1)
    /\ referencesExist (messages w1) (groups w1).
Proof.
  apply (references_stay_valid (env := ToyEnvironment) toyMatchers 100 toyWorld).
  - split; cbn; compute_done.
  - intros a gid Hin Hg. cbn in Hin.
    repeat (apply elem_of_cons in Hin as [->|Hin]; [cbn in Hg; now apply elem_of_nil in Hg|]).
    now apply elem_of_nil in Hin.
Defined.

Section UserFacts.
Import Users.
Variable colFind : Filter -> error + list (error + User).

Lemma drain_decoded (users acc : list User) :
  drain (map inr users) acc = (acc ++ users, None).
Proof.
  revert acc. induction users as [|u users IH]; intros acc; cbn.
  - now rewrite app_nil_r.
  - rewrite IH. now rewrite <- app_assoc.
Qed.

Lemma drain_failed (before : list User) (err : error) (after : list (error + User))
  (acc : list User) :
  drain (map inr before ++ inl err :: after) acc = (acc ++ before, Some err).
Proof.
  revert acc. induction before as [|u before IH]; intros acc; cbn.
  - now rewrite app_nil_r.
  - rewrite IH. now rewrite <- app_assoc.
Qed.

Lemma nonEmpty_spec (v : string) : nonEmpty v = true <-> v <> EmptyString.
Proof.
  unfold nonEmpty. destruct (String.eqb_spec v EmptyString); cbn; split; congruence.
Qed.

(** X12. [GetUserMetas] is all or nothing: when a document of the cursor
    fails to decode, the values of the users decoded before it are dropped
    and only the error is returned; when every document decodes, the result
    holds exactly the non-empty values of the field among the users found,
    at most one per user. *)
Theorem GetUserMetas_all_or_nothing (queryK queryV field : string)
  (cur : list (error + User)) :
  colFind (userFilter queryK queryV) = inr cur ->
  (forall before err after, cur = map inr before ++ inl err :: after ->
     Find colFind (userFilter queryK queryV) = (before, Some err)
     /\ GetUserMetas colFind queryK queryV field = ([], Some err))
  /\ (forall users, cur = map inr users ->
        exists res, GetUserMetas colFind queryK queryV field = (res, None)
          /\ (forall v, v ∈ res <->
                v <> EmptyString /\ exists u, u ∈ users /\ fieldOf field u = v)
          /\ length res <= length users).
Proof.
  intros Hcur. split.
  - intros before err after ->.
    assert (HF : Find colFind (userFilter queryK queryV) = (before, Some err)).
    { unfold Find. rewrite Hcur. now rewrite drain_failed. }
    split; [exact HF|]. unfold GetUserMetas. now rewrite HF.
  - intros users ->.
    assert (HF : Find colFind (userFilter queryK queryV) = (users, None)).
    { unfold Find. rewrite Hcur. now rewrite drain_decoded. }
    eexists. unfold GetUserMetas. rewrite HF. split; [reflexivity|]. split.
    + intros v. rewrite list_elem_of_In, filter_In, <- list_elem_of_In, nonEmpty_spec.
      rewrite list_elem_of_fmap. split.
      * intros ((u & -> & Hu) & Hv). split; [exact Hv|]. now exists u.
      * intros (Hv & u & Hu & <-). split; [|exact Hv]. now exists u.
    + etransitivity; [apply List.filter_length_le|]. now rewrite length_map.
Qed.
End UserFacts.

Lemma GetUserMetas_all_or_nothing_witness :
  Users.Find Users.sampleFind (Users.userFilter "team" "infra")
  = ([Users.alice], Some (ErrOther "cannot decode"))
  /\ Users.GetUserMetas Users.sampleFind "team" "infra" "name"
     = ([], Some (ErrOther "cannot decode")).
Proof.
  apply (proj1 (GetUserMetas_all_or_nothing Users.sampleFind "team" "infra" "name"
                  [inr Users.alice; inl (ErrOther "cannot decode"); inr Users.bob]
                  ltac:(vm_compute; reflexivity))
           [Users.alice] (ErrOther "cannot decode") [inr Users.bob]).
  reflexivity.
Defined.

Section GroupControllerFacts.
Import Web GroupController.
Context {services : Services}.

(** X13. [CutGroupEvents] reaches the group service only for an accepted
    request: an id that parses, a group that exists and is neither
    collecting nor pending, and a keep count within 0..1000.  It answers
    with the deleted count exactly when the service returned one, and then
    publishes a reduce event if and only if something was deleted.  Every
    other request is answered with an error and, unless the service itself
    failed, leaves the state as it was. *)
Theorem CutGroupEvents_guards (webCtx : WebContext) (s : State) :
  let keep := Int64Input webCtx "keep" 20 in
  let '(resp, s') := CutGroupEvents webCtx s in
  (forall n, resp = JSON n <->
     exists gid grp s1,
       accepted webCtx s gid grp
       /\ CutGroup gid keep s = (inr n, s1)
       /\ s' = if (0 <? n)%Z
               then Publish {| GroupID := MessageGroup.ID grp; KeepCount := keep;
                               DeleteCount := n; CreatedAt := Now s1 |} s1
               else s1)
  /\ (forall msg code, resp = JSONError msg code ->
        (s' = s /\ code = StatusUnprocessableEntity
         /\ ~ exists gid grp, accepted webCtx s gid grp)
        \/ (s' = s /\ code = StatusInternalServerError
            /\ exists gid err, ObjectIDFromHex (PathVar webCtx "id") = inr gid
                               /\ Get gid s = inl err)
        \/ (code = StatusInternalServerError
            /\ exists gid grp err, accepted webCtx s gid grp
                                   /\ CutGroup gid keep s = (inl err, s'))).
Proof.
  cbv zeta. unfold CutGroupEvents, accepted.
  destruct (ObjectIDFromHex (PathVar webCtx "id")) as [e|gid] eqn:Hid.
  { split.
    - intros n. split; [discriminate|]. intros (g & grp & s1 & (Hg & _) & _). discriminate.
    - intros msg code [= <- <-]. left. repeat split; auto.
      intros (g & grp & Hg & _). discriminate. }
  destruct (Get gid s) as [e|grp] eqn:Hget.
  { split.
    - intros n. split; [discriminate|].
      intros (g & grp & s1 & (Hg & Hgrp & _) & _). congruence.
    - intros msg code [= <- <-]. right. left. repeat split; auto. now exists gid, e. }
  destruct (bool_decide_reflect (MessageGroup.Status grp = MessageGroupStatusCollecting))
    as [Hc|Hc]; cbn [orb].
  { split.
    - intros n. split; [discriminate|].
      intros (g & grp' & s1 & (Hg & Hgrp & Hn & _) & _).
      assert (grp' = grp) as -> by congruence. contradiction.
    - intros msg code [= <- <-]. left. repeat split; auto.
      intros (g & grp' & Hg & Hgrp & Hn & _).
      assert (grp' = grp) as -> by congruence. contradiction. }
  destruct (bool_decide_reflect (MessageGroup.Status grp = MessageGroupStatusPending))
    as [Hp|Hp].
  { split.
    - intros n. split; [discriminate|].
      intros (g & grp' & s1 & (Hg & Hgrp & _ & Hn & _) & _).
      assert (grp' = grp) as -> by congruence. contradiction.
    - intros msg code [= <- <-]. left. repeat split; auto.
      intros (g & grp' & Hg & Hgrp & _ & Hn & _).
      assert (grp' = grp) as -> by congruence. contradiction. }
  destruct (Z.ltb_spec (Int64Input webCtx "keep" 20) 0) as [Hlo|Hlo]; cbn [orb].
  { split.
    - intros n. split; [discriminate|].
      intros (g & grp' & s1 & (_ & _ & _ & _ & Hk) & _). lia.
    - intros msg code [= <- <-]. left. repeat split; auto.
      intros (g & grp' & _ & _ & _ & _ & Hk). lia. }
  destruct (Z.ltb_spec 1000 (Int64Input webCtx "keep" 20)) as [Hhi|Hhi].
  { split.
    - intros n. split; [discriminate|].
      intros (g & grp' & s1 & (_ & _ & _ & _ & Hk) & _). lia.
    - intros msg code [= <- <-]. left. repeat split; auto.
      intros (g & grp' & _ & _ & _ & _ & Hk). lia. }
  destruct (CutGroup gid (Int64Input webCtx "keep" 20) s) as [[e|deleted] s1] eqn:Hcut.
  - split.
    + intros n. split; [discriminate|].
      intros (g & grp' & s1' & (Hg & _) & Hcut' & _).
      assert (g = gid) as -> by congruence. congruence.
    + intros msg code [= <- <-]. right. right. split; [reflexivity|].
      exists gid, grp, e. repeat split; auto; lia.
  - split.
    + intros n. split.
      * intros [= <-]. exists gid, grp, s1. repeat split; auto; lia.
      * intros (g & grp' & s1' & (Hg & Hgrp & _) & Hcut' & _).
        assert (g = gid) as -> by congruence. congruence.
    + intros msg code. discriminate.
Qed.
End GroupControllerFacts.

Section AgentFacts.
Import Web AgentAPI.
Context {misc : Misc} {messageStore : MessageStore}.

Lemma saveMessage_answers (cm : CommonMessage) (ctx : WebContext) (q : Queue) :
  saveMessage cm ctx q
  = match Enqueue {| Data := Serialize cm |} q with
    | (Some err, q') =>
        (JSONError (Sprintf "本地存储写入失败：%v" err) StatusInternalServerError, q')
    | (None, q') => (JSON tt, q')
    end.
Proof. reflexivity. Qed.

(** What a handler does once the route's conversion is known. *)
Lemma handler_cases (path name : string) (h : Handler) (ctx : WebContext) (q : Queue) :
  (path, name, h) ∈ Register ->
  (exists msg code, refused path ctx msg code /\ h ctx q = (JSONError msg code, q))
  \/ (exists cm, converted path ctx cm /\ h ctx q = saveMessage cm ctx q).
Proof.
  unfold Register. intros Hin.
  repeat (apply elem_of_cons in Hin as [[= -> -> ->]|Hin]).
  - unfold AddCommonMessage. destruct (unmarshal (Body ctx)) as [err|cm] eqn:Hc.
    + left. eexists _, _. split; [|reflexivity]. left. split; [reflexivity|]. now exists err.
    + right. exists cm. split; [|reflexivity]. left. auto.
  - unfold AddLogstashMessage.
    destruct (LogstashToCommonMessage _ _) as [err|cm] eqn:Hc.
    + left. eexists _, _. split; [|reflexivity].
      right; left. split; [reflexivity|]. now exists err.
    + right. exists cm. split; [|reflexivity]. right; left. auto.
  - unfold AddGrafanaMessage. destruct (GrafanaToCommonMessage _) as [err|cm] eqn:Hc.
    + left. eexists _, _. split; [|reflexivity].
      do 2 right; left. split; [reflexivity|]. now exists err.
    + right. exists cm. split; [|reflexivity]. do 2 right; left. auto.
  - unfold AddPrometheusMessage. destruct (PrometheusToCommonMessage _) as [err|cm] eqn:Hc.
    + left. eexists _, _. split; [|reflexivity].
      do 3 right; left. split; [reflexivity|]. now exists err.
    + right. exists cm. split; [|reflexivity]. do 3 right; left. auto.
  - unfold AddPrometheusAlertMessage.
    destruct (PrometheusAlertToCommonMessage _) as [err|cm] eqn:Hc.
    + left. eexists _, _. split; [|reflexivity].
      do 4 right; left. split; [reflexivity|]. now exists err.
    + right. exists cm. split; [|reflexivity]. do 4 right; left. auto.
  - unfold AddOpenFalconMessage. cbv zeta.
    destruct (String.eqb_spec (Input ctx "content") EmptyString) as [Hc|Hc].
    + left. eexists _, _. split; [|reflexivity]. do 5 right. auto.
    + right. eexists. split; [|reflexivity]. do 5 right. auto.
  - now apply elem_of_nil in Hin.
Qed.

(** A route refuses a request or converts it, never both. *)
Lemma refused_not_converted (path : string) (ctx : WebContext) (msg : Message) (code : Z)
  (cm : CommonMessage) :
  refused path ctx msg code -> converted path ctx cm -> False.
Proof.
  unfold refused, converted.
  intros [(-> & err & He & _)|[(-> & err & He & _)|[(-> & err & He & _)|
          [(-> & err & He & _)|[(-> & err & He & _)|(-> & He & _)]]]]];
  intros [(Hp & Hc)|[(Hp & Hc)|[(Hp & Hc)|[(Hp & Hc)|[(Hp & Hc)|(Hp & Hc & _)]]]]];
    try discriminate Hp; congruence.
Qed.

(** X14. Every route the agent's message controller registers treats a
    request the same way.  A request that does not convert (or, for
    open-falcon, has no content) is refused with the route's message and
    status code, 422 or 500, and the queue is left as it was: nothing is
    enqueued.  A request that converts is enqueued once, serialized; when
    [Enqueue] fails the answer is 500 with the error, and only when it
    succeeds is the answer the empty JSON object.  So an acknowledgement
    always means the message is in the queue. *)
Theorem handlers_acknowledge_only_enqueued (path name : string) (h : Handler)
  (ctx : WebContext) (q : Queue) :
  (path, name, h) ∈ Register ->
  (forall msg code, refused path ctx msg code ->
     h ctx q = (JSONError msg code, q)
     /\ (code = StatusUnprocessableEntity \/ code = StatusInternalServerError))
  /\ (forall cm err q', converted path ctx cm ->
        Enqueue {| Data := Serialize cm |} q = (Some err, q') ->
        h ctx q
        = (JSONError (Sprintf "本地存储写入失败：%v" err) StatusInternalServerError, q'))
  /\ (forall cm q', converted path ctx cm ->
        Enqueue {| Data := Serialize cm |} q = (None, q') ->
        h ctx q = (JSON tt, q'))
  /\ ((exists msg code, refused path ctx msg code) \/ (exists cm, converted path ctx cm))
  /\ (forall q', h ctx q = (JSON tt, q') ->
        exists cm, converted path ctx cm
                   /\ Enqueue {| Data := Serialize cm |} q = (None, q')).
Proof.
  intros Hin. pose proof (handler_cases path name h ctx q Hin) as Hcases.
  split; [|split; [|split; [|split]]].
  - intros msg code Href.
    destruct Hcases as [(msg' & code' & Href' & Hh)|(cm & Hconv & _)].
    2:{ destruct (refused_not_converted _ _ _ _ _ Href Hconv). }
    assert (Hsame : msg' = msg /\ code' = code).
    { unfold refused in Href, Href'.
      destruct Href as [(-> & err & He & -> & ->)|[(-> & err & He & -> & ->)|
                        [(-> & err & He & -> & ->)|[(-> & err & He & -> & ->)|
                        [(-> & err & He & -> & ->)|(-> & He & -> & ->)]]]]];
      destruct Href' as [(Hp & err' & He' & -> & ->)|[(Hp & err' & He' & -> & ->)|
                         [(Hp & err' & He' & -> & ->)|[(Hp & err' & He' & -> & ->)|
                         [(Hp & err' & He' & -> & ->)|(Hp & He' & -> & ->)]]]]];
        try discriminate Hp; split; congruence. }
    destruct Hsame as [-> ->]. split; [exact Hh|].
    unfold refused in Href.
    destruct Href as [(_ & err & _ & _ & ->)|[(_ & err & _ & _ & ->)|
                      [(_ & err & _ & _ & ->)|[(_ & err & _ & _ & ->)|
                      [(_ & err & _ & _ & ->)|(_ & _ & _ & ->)]]]]]; auto.
  - intros cm err q' Hconv Henq.
    destruct Hcases as [(msg & code & Href & _)|(cm' & Hconv' & Hh)].
    { destruct (refused_not_converted _ _ _ _ _ Href Hconv). }
    assert (cm' = cm) as ->.
    { unfold converted in Hconv, Hconv'.
      destruct Hconv as [(-> & Hc)|[(-> & Hc)|[(-> & Hc)|[(-> & Hc)|[(-> & Hc)|(-> & _ & Hc)]]]]];
      destruct Hconv' as [(Hp & Hc')|[(Hp & Hc')|[(Hp & Hc')|[(Hp & Hc')|[(Hp & Hc')|
                          (Hp & _ & Hc')]]]]];
        try discriminate Hp; congruence. }
    rewrite Hh, saveMessage_answers, Henq. reflexivity.
  - intros cm q' Hconv Henq.
    destruct Hcases as [(msg & code & Href & _)|(cm' & Hconv' & Hh)].
    { destruct (refused_not_converted _ _ _ _ _ Href Hconv). }
    assert (cm' = cm) as ->.
    { unfold converted in Hconv, Hconv'.
      destruct Hconv as [(-> & Hc)|[(-> & Hc)|[(-> & Hc)|[(-> & Hc)|[(-> & Hc)|(-> & _ & Hc)]]]]];
      destruct Hconv' as [(Hp & Hc')|[(Hp & Hc')|[(Hp & Hc')|[(Hp & Hc')|[(Hp & Hc')|
                          (Hp & _ & Hc')]]]]];
        try discriminate Hp; congruence. }
    rewrite Hh, saveMessage_answers, Henq. reflexivity.
  - destruct Hcases as [(msg & code & Href & _)|(cm & Hconv & _)]; [left|right]; eauto.
  - intros q' Hack.
    destruct Hcases as [(msg & code & _ & Hh)|(cm & Hconv & Hh)]; [congruence|].
    exists cm. split; [exact Hconv|].
    rewrite Hh, saveMessage_answers in Hack.
    destruct (Enqueue {| Data := Serialize cm |} q) as [[err|] q1]; [discriminate|].
    now injection Hack as ->.
Qed.
End AgentFacts.

(** A payload the sample agent cannot convert is answered with 500 and the
    queue stays empty. *)
Lemma handlers_acknowledge_only_enqueued_witness :
  AgentAPI.AddGrafanaMessage (misc := AgentAPI.SampleMisc)
    (messageStore := AgentAPI.BoundedQueue) AgentAPI.brokenRequest []
  = (Web.JSONError (Web.ErrorText (ErrOther "bad payload")) Web.StatusInternalServerError, []).
Proof.
  apply (proj1 (handlers_acknowledge_only_enqueued (misc := AgentAPI.SampleMisc)
                  (messageStore := AgentAPI.BoundedQueue)
                  "/grafana/" "messages:add:grafana"
                  (AgentAPI.AddGrafanaMessage (misc := AgentAPI.SampleMisc)
                     (messageStore := AgentAPI.BoundedQueue))
                  AgentAPI.brokenRequest []
                  ltac:(do 2 apply list_elem_of_further; apply list_elem_of_here))).
  do 2 right; left. split; [reflexivity|].
  exists (ErrOther "bad payload"). repeat split.
Defined.

Section MigrateFacts.
Import Migrate.

Lemma installAll_nil {repo : TemplateRepo} (s : Store) : installAll [] s = s.
Proof. reflexivity. Qed.

Lemma installAll_cons {repo : TemplateRepo} (e : Template) (table : list Template)
  (s : Store) :
  installAll (e :: table) s = installAll table (install e s).
Proof. reflexivity. Qed.

Lemma filter_head_split {A : Type} (P : A -> bool) (l : list A) (x : A) (rest : list A) :
  List.filter P l = x :: rest ->
  exists pre post, l = pre ++ x :: post /\ List.filter P pre = [] /\ P x = true
                   /\ rest = List.filter P post.
Proof.
  induction l as [|a l IH]; cbn; [discriminate|].
  destruct (P a) eqn:Ha.
  - intros [= -> <-]. exists [], l. repeat split; auto.
  - intros Hf. destruct (IH Hf) as (pre & post & -> & Hpre & Hx & Hrest).
    exists (a :: pre), post. cbn. rewrite Ha. repeat split; auto.
Qed.

Lemma selected_spec (f : TemplateFilter) (d : Template) :
  selected f d = true <-> Name d = name f /\ Predefined d = predefined f.
Proof.
  unfold selected. rewrite andb_true_iff, String.eqb_eq, Bool.eqb_true_iff. tauto.
Qed.

Lemma changed_false (old t : Template) :
  changed old t = false <->
  Type_ old = Type_ t /\ Content old = Content t /\ Description old = Description t.
Proof.
  unfold changed. rewrite !orb_false_iff, !negb_false_iff, !String.eqb_eq.
  rewrite bool_decide_eq_true. tauto.
Qed.

(** [install] on the in-memory collection. *)
Lemma install_mem_absent (entry : Template) (s : MemTemplates) :
  List.filter (selected {| name := Name entry; predefined := true |}) (docs s) = [] ->
  install (repo := MemTemplateRepo) entry s
  = {| docs := docs s ++ [withID (withPredefined entry true) (nextID s)];
       nextID := (nextID s + 1)%N |}.
Proof. intros Hf. unfold install. cbn. rewrite Hf. reflexivity. Qed.

Lemma install_mem_present (entry old : Template) (rest : list Template) (s : MemTemplates) :
  List.filter (selected {| name := Name entry; predefined := true |}) (docs s) = old :: rest ->
  install (repo := MemTemplateRepo) entry s
  = if changed old (withPredefined entry true)
    then {| docs := Aggregation.updateID ID (ID old) (refreshed old entry) (docs s);
            nextID := nextID s |}
    else s.
Proof. intros Hf. unfold install. cbn. rewrite Hf. reflexivity. Qed.

Lemma present_split (entry old : Template) (rest : list Template) (s : MemTemplates) :
  wellFormed s ->
  List.filter (selected {| name := Name entry; predefined := true |}) (docs s) = old :: rest ->
  exists pre post,
    docs s = pre ++ old :: post
    /\ List.filter (selected {| name := Name entry; predefined := true |}) pre = []
    /\ Name old = Name entry /\ Predefined old = true
    /\ Aggregation.updateID ID (ID old) (refreshed old entry) (docs s)
       = pre ++ refreshed old entry :: post.
Proof.
  intros [Hnd _] Hf.
  destruct (filter_head_split _ _ _ _ Hf) as (pre & post & Hdocs & Hpre & Hsel & _).
  apply selected_spec in Hsel as [Hname Hpred]. cbn in Hname, Hpred.
  exists pre, post. repeat split; auto.
  rewrite Hdocs. apply (updateID_middle ID).
  rewrite Hdocs, map_app in Hnd. apply NoDup_app in Hnd as (_ & Hdisj & _).
  intros Hin. apply (Hdisj _ Hin). cbn. left.
Qed.

Lemma install_wellFormed (entry : Template) (s : MemTemplates) :
  wellFormed s ->
  wellFormed (install (repo := MemTemplateRepo) entry s)
  /\ (nextID s <= nextID (install (repo := MemTemplateRepo) entry s))%N.
Proof.
  intros Hwf.
  destruct (List.filter (selected {| name := Name entry; predefined := true |}) (docs s))
    as [|old rest] eqn:Hf.
  - rewrite (install_mem_absent _ _ Hf). destruct Hwf as [Hnd Hlt]. unfold wellFormed. cbn.
    split; [split|lia].
    + rewrite map_app. apply NoDup_app. split; [exact Hnd|]. split; [|apply NoDup_singleton].
      intros id Hin Hin'. cbn in Hin'. apply list_elem_of_singleton in Hin'. subst id.
      apply list_elem_of_fmap in Hin as (d & Hid & Hd).
      rewrite Forall_forall in Hlt. specialize (Hlt d Hd). lia.
    + apply Forall_app. split.
      * eapply Forall_impl; [exact Hlt|]. cbn. intros; lia.
      * constructor; [cbn; lia|constructor].
  - rewrite (install_mem_present _ _ _ _ Hf).
    destruct (changed old (withPredefined entry true)); [|split; [exact Hwf|lia]].
    destruct (present_split _ _ _ _ Hwf Hf) as (pre & post & Hdocs & _ & _ & _ & Hupd).
    rewrite Hupd. destruct Hwf as [Hnd Hlt]. rewrite Hdocs in Hnd, Hlt.
    unfold wellFormed. cbn. split; [split|lia].
    + rewrite map_app in *. exact Hnd.
    + apply Forall_app in Hlt as [Hpre Hpost]. apply Forall_app. split; [exact Hpre|].
      inversion Hpost; subst. constructor; auto.
Qed.

Lemma install_installs (entry : Template) (s : MemTemplates) :
  wellFormed s -> installed entry (install (repo := MemTemplateRepo) entry s).
Proof.
  intros Hwf. unfold installed.
  destruct (List.filter (selected {| name := Name entry; predefined := true |}) (docs s))
    as [|old rest] eqn:Hf.
  - rewrite (install_mem_absent _ _ Hf). cbn. rewrite List.filter_app, Hf. cbn.
    unfold selected at 1. cbn. rewrite String.eqb_refl. cbn.
    eexists _, _. split; [reflexivity|]. cbn. auto.
  - rewrite (install_mem_present _ _ _ _ Hf).
    destruct (changed old (withPredefined entry true)) eqn:Hch.
    + destruct (present_split _ _ _ _ Hwf Hf) as (pre & post & Hdocs & Hpre & Hn & Hp & Hupd).
      rewrite Hupd. cbn. rewrite List.filter_app, Hpre. cbn.
      unfold selected at 1. cbn. rewrite Hn, Hp, String.eqb_refl. cbn.
      eexists _, _. split; [reflexivity|]. cbn. auto.
    + rewrite Hf. apply changed_false in Hch. cbn in Hch. now exists old, rest.
Qed.

Lemma install_other_name (entry t : Template) (s : MemTemplates) :
  wellFormed s -> Name entry <> Name t ->
  List.filter (selected {| name := Name t; predefined := true |})
    (docs (install (repo := MemTemplateRepo) entry s))
  = List.filter (selected {| name := Name t; predefined := true |}) (docs s).
Proof.
  intros Hwf Hne.
  destruct (List.filter (selected {| name := Name entry; predefined := true |}) (docs s))
    as [|old rest] eqn:Hf.
  - rewrite (install_mem_absent _ _ Hf). cbn. rewrite List.filter_app. cbn.
    unfold selected at 2. cbn. destruct (String.eqb_spec (Name entry) (Name t)); [congruence|].
    cbn. now rewrite app_nil_r.
  - rewrite (install_mem_present _ _ _ _ Hf).
    destruct (changed old (withPredefined entry true)); [|reflexivity].
    destruct (present_split _ _ _ _ Hwf Hf) as (pre & post & Hdocs & Hpre & Hn & Hp & Hupd).
    assert (Hs1 : selected {| name := Name t; predefined := true |} (refreshed old entry)
                  = false).
    { unfold selected. cbn. rewrite Hn.
      destruct (String.eqb_spec (Name entry) (Name t)); [congruence|reflexivity]. }
    assert (Hs2 : selected {| name := Name t; predefined := true |} old = false).
    { unfold selected. cbn. rewrite Hn.
      destruct (String.eqb_spec (Name entry) (Name t)); [congruence|reflexivity]. }
    rewrite Hupd, Hdocs. cbn [docs]. rewrite !List.filter_app. cbn [List.filter].
    now rewrite Hs1, Hs2.
Qed.

Lemma install_fixed (entry : Template) (s : MemTemplates) :
  installed entry s -> install (repo := MemTemplateRepo) entry s = s.
Proof.
  intros (old & rest & Hf & Hfields).
  rewrite (install_mem_present _ _ _ _ Hf).
  assert (Hch : changed old (withPredefined entry true) = false) by now apply changed_false.
  now rewrite Hch.
Qed.

Lemma fold_installs (table : list Template) (s : MemTemplates) :
  NoDup (map Name table) -> wellFormed s ->
  wellFormed (installAll (repo := MemTemplateRepo) table s)
  /\ (forall t, t ∈ table ->
        installed t (installAll (repo := MemTemplateRepo) table s))
  /\ (forall t, Name t ∉ map Name table -> installed t s ->
        installed t (installAll (repo := MemTemplateRepo) table s)).
Proof.
  revert s. induction table as [|e table IH]; intros s Hnd Hwf;
    rewrite ?installAll_nil, ?installAll_cons.
  { split; [exact Hwf|]. split; [|auto]. intros t Ht. now apply elem_of_nil in Ht. }
  cbn [map] in Hnd. apply NoDup_cons in Hnd as [He Hnd].
  destruct (install_wellFormed e s Hwf) as [Hwf1 _].
  destruct (IH _ Hnd Hwf1) as (Hwf' & Hin & Hout).
  split; [exact Hwf'|]. split.
  - intros t Ht. apply elem_of_cons in Ht as [->|Ht]; [|now apply Hin].
    apply Hout; [exact He|]. now apply install_installs.
  - intros t Ht Hinst. cbn [map] in Ht. apply not_elem_of_cons in Ht as [Hne Ht].
    apply Hout; [exact Ht|]. destruct Hinst as (old & rest & Hf & Hfields).
    exists old, rest. split; [|exact Hfields].
    rewrite install_other_name; auto.
Qed.

Lemma fold_fixed (entries : list Template) (s : MemTemplates) :
  (forall t, t ∈ entries -> installed t s) ->
  installAll (repo := MemTemplateRepo) entries s = s.
Proof.
  induction entries as [|e entries IH]; intros Hall;
    rewrite ?installAll_nil, ?installAll_cons; [reflexivity|].
  rewrite install_fixed by (apply Hall; left). apply IH. intros t Ht. apply Hall. now right.
Qed.

Lemma predefinedTemplates_distinct : NoDup (map Name predefinedTemplates).
Proof. vm_compute. compute_done. Qed.

(** X15. With migration enabled, after [initPredefinedTemplates] every entry
    of [predefinedTemplates] is installed: the first stored predefined
    template of that name (the one a later run reads) has the entry's type,
    content and description, whatever the store held before. *)
Theorem initPredefinedTemplates_installs (conf : Config) (s : MemTemplates) :
  Migrate conf = true -> wellFormed s ->
  forall t, t ∈ predefinedTemplates ->
    installed t (initPredefinedTemplates (repo := MemTemplateRepo) conf s).
Proof.
  intros Hm Hwf t Ht. unfold initPredefinedTemplates. rewrite Hm. cbn [negb].
  destruct (fold_installs _ s predefinedTemplates_distinct Hwf) as (_ & Hin & _).
  now apply Hin.
Qed.

(** X16. [initPredefinedTemplates] is idempotent: a second run finds every
    entry of the table installed and neither adds nor updates a template. *)
Theorem initPredefinedTemplates_idempotent (conf : Config) (s : MemTemplates) :
  wellFormed s ->
  initPredefinedTemplates (repo := MemTemplateRepo) conf
    (initPredefinedTemplates (repo := MemTemplateRepo) conf s)
  = initPredefinedTemplates (repo := MemTemplateRepo) conf s.
Proof.
  intros Hwf. unfold initPredefinedTemplates.
  destruct (Migrate conf); cbn [negb]; [|reflexivity].
  destruct (fold_installs _ s predefinedTemplates_distinct Hwf) as (_ & Hin & _).
  apply fold_fixed. intros t Ht. now apply Hin.
Qed.

Lemma kept_refl (table : list Template) (a : Template) : kept table a a.
Proof. now left. Qed.

Lemma kept_trans (table : list Template) (a b c : Template) :
  kept table a b -> kept table b c -> kept table a c.
Proof.
  intros [->|(Hp & t & Ht & Hn & ->)]; [auto|].
  intros [->|(Hp' & t' & Ht' & Hn' & ->)].
  - right. split; [exact Hp|]. now exists t.
  - right. split; [exact Hp|]. exists t'. repeat split; auto.
Qed.

Lemma kept_added (table : list Template) (free : ObjectID) (d d' : Template) :
  addedFrom table free d -> kept table d d' -> addedFrom table free d'.
Proof.
  intros (Hfree & t & Ht & Hd) [->|(Hp & t' & Ht' & Hn & ->)].
  - split; [exact Hfree|]. now exists t.
  - split; [exact Hfree|]. exists t'. split; [exact Ht'|].
    unfold refreshed, withID, withPredefined. cbn. now rewrite Hn, Hp.
Qed.

Lemma install_migrated (table : list Template) (entry : Template) (s : MemTemplates) :
  entry ∈ table -> wellFormed s ->
  migrated table s (install (repo := MemTemplateRepo) entry s).
Proof.
  intros Hin Hwf. unfold migrated.
  destruct (List.filter (selected {| name := Name entry; predefined := true |}) (docs s))
    as [|old rest] eqn:Hf.
  - rewrite (install_mem_absent _ _ Hf). cbn. eexists _, _. split; [reflexivity|]. split.
    + apply Forall2_same_length_lookup_2; [reflexivity|].
      intros i a b Ha Hb. assert (a = b) as -> by congruence. apply kept_refl.
    + constructor; [|constructor]. split; [cbn; lia|]. exists entry. now split.
  - rewrite (install_mem_present _ _ _ _ Hf).
    destruct (changed old (withPredefined entry true)).
    + destruct (present_split _ _ _ _ Hwf Hf) as (pre & post & Hdocs & _ & Hn & Hp & Hupd).
      rewrite Hupd. cbn. exists (pre ++ refreshed old entry :: post), [].
      rewrite app_nil_r. split; [reflexivity|]. split; [|constructor].
      rewrite Hdocs. apply Forall2_app.
      * apply Forall2_same_length_lookup_2; [reflexivity|].
        intros i a b Ha Hb. assert (a = b) as -> by congruence. apply kept_refl.
      * constructor.
        -- right. split; [exact Hp|]. exists entry. repeat split; auto.
        -- apply Forall2_same_length_lookup_2; [reflexivity|].
           intros i a b Ha Hb. assert (a = b) as -> by congruence. apply kept_refl.
    + exists (docs s), []. rewrite app_nil_r. split; [reflexivity|]. split; [|constructor].
      apply Forall2_same_length_lookup_2; [reflexivity|].
      intros i a b Ha Hb. assert (a = b) as -> by congruence. apply kept_refl.
Qed.

Lemma migrated_trans (table : list Template) (s1 s2 s3 : MemTemplates) :
  (nextID s1 <= nextID s2)%N ->
  migrated table s1 s2 -> migrated table s2 s3 -> migrated table s1 s3.
Proof.
  intros Hle (olds & added & Hd2 & Hk & Ha) (olds' & added' & Hd3 & Hk' & Ha').
  rewrite Hd2 in Hk'. apply Forall2_app_inv_l in Hk' as (o1 & o2 & Hk1 & Hk2 & ->).
  exists o1, (o2 ++ added'). split; [now rewrite Hd3, <- app_assoc|]. split.
  - clear -Hk Hk1. revert o1 Hk1.
    induction Hk as [|a b l k Hab Hk IH]; intros o1 Hk1.
    + inversion Hk1; subst. constructor.
    + inversion Hk1; subst. constructor; [now apply kept_trans with b|now apply IH].
  - apply Forall_app. split.
    + clear -Ha Hk2. induction Hk2 as [|d d' l k Hdd Hk2 IH]; [constructor|].
      inversion Ha; subst. constructor; [now apply kept_added with d|now apply IH].
    + eapply Forall_impl; [exact Ha'|]. intros d (Hfree & Ht). split; [lia|exact Ht].
Qed.

Lemma fold_migrated (table entries : list Template) (s : MemTemplates) :
  (forall e, e ∈ entries -> e ∈ table) -> wellFormed s ->
  migrated table s
    (installAll (repo := MemTemplateRepo) entries s).
Proof.
  revert s. induction entries as [|e entries IH]; intros s Hsub Hwf;
    rewrite ?installAll_nil, ?installAll_cons.
  { exists (docs s), []. rewrite app_nil_r. split; [reflexivity|]. split; [|constructor].
    apply Forall2_same_length_lookup_2; [reflexivity|].
    intros i a b Ha Hb. assert (a = b) as -> by congruence. apply kept_refl. }
  destruct (install_wellFormed e s Hwf) as [Hwf1 Hle].
  eapply migrated_trans; [exact Hle| |].
  - apply install_migrated; [apply Hsub; left|exact Hwf].
  - apply IH; [|exact Hwf1]. intros e' He'. apply Hsub. now right.
Qed.

(** X17. [initPredefinedTemplates] never removes or reorders a stored
    template and never touches a user's template: a stored template is
    left as it is, or, when it is predefined and carries the name of a
    table entry, has its type, content and description set to that
    entry's; what is new comes after, each a predefined copy of a table
    entry under a fresh id.  With migration disabled the store is not
    touched at all. *)
Theorem initPredefinedTemplates_keeps (conf : Config) (s : MemTemplates) :
  wellFormed s ->
  migrated predefinedTemplates s (initPredefinedTemplates (repo := MemTemplateRepo) conf s)
  /\ (Migrate conf = false -> initPredefinedTemplates (repo := MemTemplateRepo) conf s = s).
Proof.
  intros Hwf. unfold initPredefinedTemplates. split; [|now intros ->].
  destruct (Migrate conf); cbn [negb].
  - apply fold_migrated; auto.
  - exists (docs s), []. rewrite app_nil_r. split; [reflexivity|]. split; [|constructor].
    apply Forall2_same_length_lookup_2; [reflexivity|].
    intros i a b Ha Hb. assert (a = b) as -> by congruence. apply kept_refl.
Qed.
End MigrateFacts.

Lemma initPredefinedTemplates_installs_witness :
  Migrate.installed Migrate.detailLink
    (Migrate.initPredefinedTemplates (repo := Migrate.MemTemplateRepo)
       Migrate.migrating Migrate.staleStore).
Proof.
  apply (initPredefinedTemplates_installs Migrate.migrating Migrate.staleStore).
  - reflexivity.
  - split; cbn; compute_done.
  - do 13 apply list_elem_of_further. apply list_elem_of_here.
Defined.

Lemma initPredefinedTemplates_idempotent_witness :
  Migrate.initPredefinedTemplates (repo := Migrate.MemTemplateRepo) Migrate.migrating
    (Migrate.initPredefinedTemplates (repo := Migrate.MemTemplateRepo)
       Migrate.migrating Migrate.staleStore)
  = Migrate.initPredefinedTemplates (repo := Migrate.MemTemplateRepo)
      Migrate.migrating Migrate.staleStore.
Proof.
  apply (initPredefinedTemplates_idempotent Migrate.migrating Migrate.staleStore).
  split; cbn; compute_done.
Defined.

Lemma initPredefinedTemplates_keeps_witness :
  Migrate.migrated Migrate.predefinedTemplates Migrate.staleStore
    (Migrate.initPredefinedTemplates (repo := Migrate.MemTemplateRepo)
       Migrate.migrating Migrate.staleStore).
Proof.
  apply (initPredefinedTemplates_keeps Migrate.migrating Migrate.staleStore).
  split; cbn; compute_done.
Defined.

Section ReleaseThenAcquire.
Import DistLock.

(** X18. On the in-memory lock store, after a node released its lease with
    [TryUnLock] it keeps reporting the lock, so once another node acquires
    the free resource both report it; the releasing node is demoted only
    by its next [TryLock], whose renewal finds the lease gone. *)
Theorem both_report_lock_after_release (s : MemLocks) (a b : DistributeLockManager) :
  locked a = true ->
  existsb (fun r => bool_decide (LockID r = lockID a)) (rows s) = true ->
  existsb (live (clock s) lockResource)
    (filter (fun r => LockID r ≠ lockID a) (rows s)) = false ->
  lockID a <> nextID s ->
  locked b = false ->
  exists s1 b' s2 a',
    TryUnLock (repo := MemLockRepo) a s = (None, a, s1)
    /\ TryLock (repo := MemLockRepo) b s1 = (None, b', s2)
    /\ HasLock a = true /\ HasLock b' = true
    /\ TryLock (repo := MemLockRepo) a s2 = (None, a', s2)
    /\ HasLock a' = false.
Proof.
  intros Hheld Hrow Hfree Hfresh Hb.
  unfold TryUnLock, TryLock, lock, HasLock. rewrite Hheld, Hb.
  cbn [repoLock repoRenew repoUnLock MemLockRepo]. unfold memUnLock. rewrite Hrow.
  exists {| rows := filter (fun r => LockID r ≠ lockID a) (rows s);
            clock := clock s; nextID := nextID s |}.
  unfold memLock at 1. cbn [rows clock nextID]. rewrite Hfree.
  eexists _, _, _. split; [reflexivity|]. split; [reflexivity|].
  split; [reflexivity|]. split; [reflexivity|].
  unfold memRenew. cbn [rows clock nextID List.find LockID].
  destruct (bool_decide_reflect (nextID s = lockID a)) as [Heq|_]; [now destruct Hfresh|].
  rewrite find_filtered_none.
  2:{ intros r Hin Hid _. apply bool_decide_eq_true in Hid.
      apply list_elem_of_filter in Hin as [Hne _]. contradiction. }
  cbn [isErrLockNotFound].
  assert (Hlive : live (clock s) lockResource
                    {| LockID := nextID s; Resource := lockResource; Owner := owner b;
                       ExpiredAt := (clock s + 90)%Z |} = true).
  { unfold live. cbn [Resource ExpiredAt]. apply andb_true_iff. split.
    - now apply bool_decide_eq_true.
    - apply Z.ltb_lt. lia. }
  unfold memLock. cbn [rows clock existsb]. rewrite Hlive. cbn. auto.
Qed.
End ReleaseThenAcquire.

Lemma both_report_lock_after_release_witness :
  exists s1 b' s2 a',
    DistLock.TryUnLock (repo := DistLock.MemLockRepo) DistLock.nodeA DistLock.storeHeldByA
    = (None, DistLock.nodeA, s1)
    /\ DistLock.TryLock (repo := DistLock.MemLockRepo) DistLock.nodeB s1 = (None, b', s2)
    /\ DistLock.HasLock DistLock.nodeA = true /\ DistLock.HasLock b' = true
    /\ DistLock.TryLock (repo := DistLock.MemLockRepo) DistLock.nodeA s2 = (None, a', s2)
    /\ DistLock.HasLock a' = false.
Proof.
  apply (both_report_lock_after_release DistLock.storeHeldByA DistLock.nodeA DistLock.nodeB).
  - reflexivity.
  - reflexivity.
  - reflexivity.
  - cbn. lia.
  - reflexivity.
Defined.
